(** * pygenomics.coretype.tree: the TreeNode class over an explicit object store

    Source: src/pygenomics/coretype/tree.py (Python 2).

    A TreeNode is a mutable object: [children] is a Python list of node
    references, [up] a reference to the parent or None.  The objects live in
    a store (a finite map from references to node records); a reference
    stands for the object's identity, which is what the class compares
    ([==], [is], [list.remove], [set] membership: TreeNode defines neither
    [__eq__] nor [__hash__]) and what [list.sort] orders by.

    Python loops ([while], recursion, iteration over a list that may grow)
    are bounded by a [fuel] argument; running out of fuel is reported as
    [OutOfFuel], which is not a Python outcome. *)

From Stdlib Require Import Floats.PrimFloat.
From stdpp Require Import gmap strings list sorting relations.

#[local] Set Warnings "-inexact-float,-clear-no-such-hyp".

(** ** Numbers

    [dist] and [support] are Python floats.  The operations the class uses
    on them are collected in an interface so that the code can be read both
    at binary64 (the primitive floats) and at an exact arithmetic. *)

Class PyNum (D : Type) := {
  num_zero : D;               (* 0.0 *)
  num_one : D;                (* 1.0 *)
  num_add : D -> D -> D;      (* x + y *)
  num_half : D -> D;          (* x / 2 *)
  num_ge : D -> D -> bool;    (* x >= y *)
}.

(** Python floats: IEEE 754 binary64. *)
#[export] Instance float_num : PyNum float := {
  num_zero := 0%float;
  num_one := 1%float;
  num_add := PrimFloat.add;
  num_half := fun x => PrimFloat.div x 2%float;
  num_ge := fun x y => PrimFloat.leb y x;
}.

(** Exact integer arithmetic (Python 2 [int]/[long], where [/] is floor
    division). *)
#[export] Instance Z_num : PyNum Z := {
  num_zero := 0%Z;
  num_one := 1%Z;
  num_add := Z.add;
  num_half := fun x => (x / 2)%Z;
  num_ge := fun x y => (y <=? x)%Z;
}.

(** An arithmetic without rounding: [>=] is a total order and adding on
    the right keeps both [>=] and [<].  Binary64 is not one: [x < y] does
    not give [x + c < y + c]. *)
Class ExactNum (D : Type) `{PyNum D} : Prop := {
  num_ge_total x y : num_ge x y = true ∨ num_ge y x = true;
  num_ge_trans x y z : num_ge x y = true -> num_ge y z = true -> num_ge x z = true;
  num_add_ge x y c : num_ge x y = true -> num_ge (num_add x c) (num_add y c) = true;
  num_add_lt x y c : num_ge x y = false -> num_ge (num_add x c) (num_add y c) = false;
  num_add_zero c : num_add num_zero c = c;
  num_one_ge_zero : num_ge num_one num_zero = true;
}.

#[export] Instance Z_exact : ExactNum Z.
Proof.
  split; simpl; intros; rewrite ?Z.leb_le, ?Z.leb_gt in *; lia.
Qed.

(** ** Outcomes of a call *)

Inductive exn : Set :=
  | TreeError | ValueError | TypeError | IndexError | AttributeError | NameError.

Inductive result (A : Type) : Type :=
  | Ok (a : A)
  | Raise (e : exn)
  | OutOfFuel.
Arguments Ok {A} a.
Arguments Raise {A} e.
Arguments OutOfFuel {A}.

#[export] Instance result_ret : MRet result := fun A a => Ok a.
#[export] Instance result_bind : MBind result := fun A B f m =>
  match m with
  | Ok a => f a
  | Raise e => Raise e
  | OutOfFuel => OutOfFuel
  end.

(** [try: ... except ValueError: raise TreeError]. *)
Definition except_ValueError {A} (m : result A) : result A :=
  match m with
  | Raise ValueError => Raise TreeError
  | _ => m
  end.

(** [l.remove(x)]: drops the first element equal to [x]; ValueError when
    there is none. *)
Fixpoint list_remove (x : positive) (l : list positive) : result (list positive) :=
  match l with
  | [] => Raise ValueError
  | y :: l' =>
      if decide (x = y) then Ok l' else r ← list_remove x l'; Ok (y :: r)
  end.

(** The value a call returned, [default] if it did not return. *)
Definition returned {A} (r : result A) (default : A) : A :=
  match r with Ok a => a | _ => default end.

(** Arguments as [add_child] receives them, by what the conversions it
    applies do to them: [float(v)] returns a float, raises ValueError (a
    string that is no number) or raises TypeError (a list, say);
    [str(v)] returns a string or raises a ValueError (UnicodeEncodeError
    is one). *)
Inductive float_arg (D : Type) : Type :=
  | FloatOf (d : D)
  | FloatValueError
  | FloatTypeError.
Arguments FloatOf {D} d.
Arguments FloatValueError {D}.
Arguments FloatTypeError {D}.

Inductive str_arg : Type :=
  | StrOf (s : string)
  | StrValueError.

Definition py_float {D} (v : float_arg D) : result D :=
  match v with
  | FloatOf d => Ok d
  | FloatValueError => Raise ValueError
  | FloatTypeError => Raise TypeError
  end.

Definition py_str (v : str_arg) : result string :=
  match v with
  | StrOf s => Ok s
  | StrValueError => Raise ValueError
  end.

(** [strategy] of [traverse]; any other value makes [traverse] return
    None. *)
Inductive strategy : Set := Preorder | Postorder | OtherStrategy.

(** [method] of [prune]. *)
Inductive prune_method : Set := Keep | Crop | OtherMethod.

(** An element of the [leaves] argument of [prune]: a [str], a TreeNode, or
    anything else (skipped by the type tests). *)
Inductive selector : Type :=
  | SelName (s : string)
  | SelNode (n : positive)
  | SelOther.

#[local] Set Warnings "-register-all".

(** ** Strings and lists as [_asciiArt] uses them *)

(** [s[0]], [s[-1]] and [s[k:]] of a [str]; [l[i]] and [l.pop()] of a
    list.  An index out of range raises IndexError; a slice never does. *)
Definition str_first (s : string) : result string :=
  match s with
  | EmptyString => Raise IndexError
  | String a _ => Ok (String a EmptyString)
  end.

Fixpoint str_last (s : string) : result string :=
  match s with
  | EmptyString => Raise IndexError
  | String a EmptyString => Ok (String a EmptyString)
  | String _ s' => str_last s'
  end.

Fixpoint str_from (k : nat) (s : string) : string :=
  match k, s with
  | S k, String _ s' => str_from k s'
  | _, _ => s
  end.

Definition list_get {A} (l : list A) (i : nat) : result A :=
  match l !! i with Some x => Ok x | None => Raise IndexError end.

Definition list_pop {A} (l : list A) : result (list A) :=
  match l with [] => Raise IndexError | _ => Ok (removelast l) end.

Definition PAD : string := "          ".
Definition PA : string := "         ".

(** The lines a leaf takes in a drawing, and the empty lines after each
    child's drawing: one and none when [compact], two and one otherwise. *)
Definition ascii_step (compact : bool) : nat := if compact then 1 else 2.
Definition ascii_sep (compact : bool) : nat := if compact then 0 else 1.

(** ** Trees

    The shape of a tree: the reference of its root and the shapes below
    it, in the order of [children]. *)
Inductive shape : Type := Shape (root : positive) (kids : list shape).

Definition shape_root (t : shape) : positive := let 'Shape r _ := t in r.
Definition shape_kids (t : shape) : list shape := let 'Shape _ ks := t in ks.

Fixpoint shape_size (t : shape) : nat :=
  let 'Shape _ ks := t in S (list_sum (map shape_size ks)).

(** The nodes of a shape in preorder: the root, then the nodes of each
    child's shape, left to right. *)
Fixpoint ids (t : shape) : list positive :=
  let 'Shape r ks := t in r :: (ks ≫= ids).

(** The nodes of a shape level by level (breadth first), left to right. *)
Fixpoint level_order (fuel : nat) (ts : list shape) : list positive :=
  match fuel, ts with
  | S fuel, Shape r ks :: ts => r :: level_order fuel (ts ++ ks)
  | _, _ => []
  end.

(** The nodes of a shape in postorder: the nodes of each child's shape,
    left to right, then the root. *)
Fixpoint postorder (t : shape) : list positive :=
  let 'Shape r ks := t in (ks ≫= postorder) ++ [r].

(** [s] is [t] or a shape below it. *)
Inductive subshape (s : shape) : shape -> Prop :=
  | subshape_refl : subshape s s
  | subshape_kid r ks k : k ∈ ks -> subshape s k -> subshape s (Shape r ks).

Section TreeNode.
Context {D : Type} {num : PyNum D}.

(** ** The object store *)

(** The attributes of one TreeNode.  [collapse_attr] is the instance
    attribute named [collapse], absent until [collapse()] or [expand()]
    assigns it; once present it hides the method of that name. *)
Record TreeNode : Type := mkNode {
  children : list positive;
  up : option positive;
  features : gset string;
  collapsed : bool;
  dist : D;
  name : string;
  support : D;
  collapse_attr : option bool;
}.

Abbreviation store := (gmap positive TreeNode).

Definition set_children (l : list positive) (n : TreeNode) : TreeNode :=
  mkNode l (up n) (features n) (collapsed n) (dist n) (name n) (support n) (collapse_attr n).
Definition set_up (u : option positive) (n : TreeNode) : TreeNode :=
  mkNode (children n) u (features n) (collapsed n) (dist n) (name n) (support n) (collapse_attr n).
Definition set_dist (d : D) (n : TreeNode) : TreeNode :=
  mkNode (children n) (up n) (features n) (collapsed n) d (name n) (support n) (collapse_attr n).
Definition set_name (s : string) (n : TreeNode) : TreeNode :=
  mkNode (children n) (up n) (features n) (collapsed n) (dist n) s (support n) (collapse_attr n).
Definition set_support (d : D) (n : TreeNode) : TreeNode :=
  mkNode (children n) (up n) (features n) (collapsed n) (dist n) (name n) d (collapse_attr n).
Definition set_features (f : gset string) (n : TreeNode) : TreeNode :=
  mkNode (children n) (up n) f (collapsed n) (dist n) (name n) (support n) (collapse_attr n).
Definition set_collapse_attr (b : option bool) (n : TreeNode) : TreeNode :=
  mkNode (children n) (up n) (features n) (collapsed n) (dist n) (name n) (support n) b.

(** Attribute reads.  Every reference the class handles is a live object;
    on a reference that is not in the store the reads give the values
    below and the writes do nothing. *)
Definition children_of (h : store) (n : positive) : list positive :=
  match h !! n with Some o => children o | None => [] end.
Definition up_of (h : store) (n : positive) : option positive :=
  match h !! n with Some o => up o | None => None end.
Definition dist_of (h : store) (n : positive) : D :=
  match h !! n with Some o => dist o | None => num_zero end.
Definition name_of (h : store) (n : positive) : string :=
  match h !! n with Some o => name o | None => EmptyString end.
Definition support_of (h : store) (n : positive) : D :=
  match h !! n with Some o => support o | None => num_zero end.
Definition collapsed_of (h : store) (n : positive) : bool :=
  match h !! n with Some o => collapsed o | None => false end.
Definition collapse_attr_of (h : store) (n : positive) : option bool :=
  match h !! n with Some o => collapse_attr o | None => None end.

(** [TreeNode.__init__(self, newick=None)]: the attributes of a new
    object ([read_newick] belongs to the parser, outside this class). *)
Definition new_node : TreeNode :=
  mkNode [] None {["dist"; "name"; "support"]} false num_one "NoName" num_one None.

(** The reference a new object gets: one not in the store. *)
Definition new_ref (h : store) : positive := fresh (dom h).

(** ** Node predicates *)

Definition is_leaf (h : store) (self : positive) : bool :=
  if collapsed_of h self || bool_decide (length (children_of h self) = 0)
  then true else false.

Definition is_root (h : store) (self : positive) : bool :=
  match up_of h self with None => true | Some _ => false end.

(** [collapse()] and [expand()] assign the attribute [collapse].  A second
    [collapse()] finds the bool in place of the method and raises
    TypeError. *)
Definition collapse (h : store) (self : positive) : result store :=
  match collapse_attr_of h self with
  | Some _ => Raise TypeError
  | None => Ok (alter (set_collapse_attr (Some true)) self h)
  end.

Definition expand (h : store) (self : positive) : result store :=
  Ok (alter (set_collapse_attr (Some false)) self h).

(** The store after a call that may have raised: a call that raises
    before its first write leaves the store as it was. *)
Definition store_after (r : result store) (h : store) : store :=
  match r with Ok h' => h' | _ => h end.

(** ** Traversal *)

(** [_iter_descendants_preorder]: the nodes in the order the generator
    yields them.  [tovisit.pop(0)] takes the head of the list and
    [tovisit.extend] adds at its end. *)
Fixpoint _iter_descendants_preorder (fuel : nat) (h : store) (tovisit : list positive)
    : result (list positive) :=
  match tovisit with
  | [] => Ok []
  | current :: tovisit =>
      match fuel with
      | 0 => OutOfFuel
      | S fuel =>
          r ← _iter_descendants_preorder fuel h (tovisit ++ children_of h current);
          Ok (current :: r)
      end
  end.

(** [_iter_descendants_postorder]: [current] runs until it is [end_]
    ([self.up], possibly None); reading [.children] of None raises
    AttributeError. *)
Fixpoint _iter_descendants_postorder (fuel : nat) (h : store) (end_ : option positive)
    (visited_childs : gset positive) (current : option positive) : result (list positive) :=
  if decide (current = end_) then Ok [] else
  match current with
  | None => Raise AttributeError
  | Some c =>
      match fuel with
      | 0 => OutOfFuel
      | S fuel =>
          match List.find (fun c' => bool_decide (c' ∉ visited_childs)) (children_of h c) with
          | Some c' => _iter_descendants_postorder fuel h end_ visited_childs (Some c')
          | None =>
              r ← _iter_descendants_postorder fuel h end_ ({[c]} ∪ visited_childs) (up_of h c);
              Ok (c :: r)
          end
      end
  end.

(** [traverse(self, strategy)], consumed to the end.  With another
    strategy the method returns None, and iterating None raises
    TypeError. *)
Definition traverse (fuel : nat) (h : store) (self : positive) (s : strategy)
    : result (list positive) :=
  match s with
  | Preorder => _iter_descendants_preorder fuel h [self]
  | Postorder => _iter_descendants_postorder fuel h (up_of h self) ∅ (Some self)
  | OtherStrategy => Raise TypeError
  end.

Definition iter_leaves (fuel : nat) (h : store) (self : positive) : result (list positive) :=
  l ← traverse fuel h self Preorder;
  Ok (filter (fun n => is_leaf h n = true) l).

Definition get_leaves := iter_leaves.

Definition get_leaves_by_name (fuel : nat) (h : store) (self : positive) (s : string)
    : result (list positive) :=
  l ← iter_leaves fuel h self;
  Ok (filter (fun n => name_of h n = s) l).

Definition get_descendants (fuel : nat) (h : store) (self : positive) : result (list positive) :=
  l ← traverse fuel h self Preorder;
  Ok (filter (fun n => n ≠ self) l).

(** [__contains__(self, item)]: for a node, whether it is among
    [get_descendants()]; for a string, whether a descendant has this
    name; for anything else the method returns None. *)
Definition __contains__ (fuel : nat) (h : store) (self : positive)
    (item : selector) : result (option bool) :=
  match item with
  | SelNode n =>
      l ← get_descendants fuel h self;
      Ok (Some (bool_decide (n ∈ l)))
  | SelName s =>
      l ← get_descendants fuel h self;
      Ok (Some (bool_decide (s ∈ map (name_of h) l)))
  | SelOther => Ok None
  end.

Fixpoint get_tree_root (fuel : nat) (h : store) (root : positive) : result positive :=
  match up_of h root with
  | None => Ok root
  | Some p =>
      match fuel with
      | 0 => OutOfFuel
      | S fuel => get_tree_root fuel h p
      end
  end.

(** [__len__(self)]: the number of leaves under the node. *)
Definition __len__ (fuel : nat) (h : store) (self : positive) : result nat :=
  l ← get_leaves fuel h self;
  Ok (length l).

(** ** Attaching and detaching *)

Definition add_feature_name (s : string) (n : TreeNode) : TreeNode :=
  set_features ({["name"]} ∪ features n) (set_name s n).
Definition add_feature_dist (d : D) (n : TreeNode) : TreeNode :=
  set_features ({["dist"]} ∪ features n) (set_dist d n).
Definition add_feature_support (d : D) (n : TreeNode) : TreeNode :=
  set_features ({["support"]} ∪ features n) (set_support d n).

(** [self.children.append(child); child.up = self]: the last two
    statements of [add_child], which is all [delete] uses of it. *)
Definition attach (h : store) (self child : positive) : store :=
  alter (set_up (Some self)) child
    (alter (fun o => set_children (children o ++ [child]) o) self h).

(** A conversion inside [try: ... except ValueError: raise TreeError]:
    [k] runs on its value; when it raises, the call ends there, with the
    store as it is. *)
Definition converted {A} (m : result A) (h : store)
    (k : A -> store * result positive) : store * result positive :=
  match except_ValueError m with
  | Ok a => k a
  | Raise e => (h, Raise e)
  | OutOfFuel => (h, OutOfFuel)
  end.

(** [add_child(self, child=None, name=None, dist=None, support=None)]:
    the store after the call, and the child returned or the exception
    raised. *)
Definition add_child (h : store) (self : positive) (child : option positive)
    (name : option str_arg) (dist support : option (float_arg D))
    : store * result positive :=
  let '(h, child) :=
    match child with
    | Some c => (h, c)
    | None => (<[new_ref h := new_node]> h, new_ref h)
    end in
  let with_support h :=
    match support with
    | None => (attach h self child, Ok child)
    | Some v =>
        converted (py_float v) h (fun d =>
          (attach (alter (add_feature_support d) child h) self child, Ok child))
    end in
  let with_dist h :=
    match dist with
    | None => with_support h
    | Some v =>
        converted (py_float v) h (fun d =>
          with_support (alter (add_feature_dist d) child h))
    end in
  match name with
  | None => with_dist h
  | Some v =>
      converted (py_str v) h (fun s =>
        with_dist (alter (add_feature_name s) child h))
  end.

(** [remove_child(self, child)]. *)
Definition remove_child (h : store) (self child : positive) : result store :=
  l ← except_ValueError (list_remove child (children_of h self));
  Ok (alter (set_up None) child (alter (set_children l) self h)).

(** [detach(self)]: the ValueError of [list.remove] is not caught here.
    [if self.up:] takes the truth value of the parent: None is false, and a
    node is true unless its [__len__] is 0. *)
Definition detach (fuel : nat) (h : store) (self : positive) : result store :=
  match up_of h self with
  | Some p =>
      n ← __len__ fuel h p;
      if bool_decide (n = 0) then Ok h
      else
        l ← list_remove self (children_of h p);
        Ok (alter (set_up None) self (alter (set_children l) p h))
  | None => Ok h
  end.

(** [add_sister(self, sister=None, name=None, dist=None)]. *)
Definition add_sister (h : store) (self : positive) (sister : option positive)
    (name : option str_arg) (dist : option (float_arg D)) : store * result positive :=
  match up_of h self with
  | None => (h, Raise TreeError)
  | Some p => add_child h p sister name dist None
  end.

(** [get_sisters(self)]. *)
Definition get_sisters (h : store) (self : positive) : list positive :=
  match up_of h self with
  | Some p => filter (fun ch => ch ≠ self) (children_of h p)
  | None => []
  end.

(** [remove_sister(self, sister=None)]: the store and the node removed, or
    None when the node has no sister. *)
Definition remove_sister (h : store) (self : positive) (sister : option positive)
    : result (store * option positive) :=
  match get_sisters h self with
  | [] => Ok (h, None)
  | first :: _ =>
      let sister := match sister with Some s => s | None => first end in
      match up_of h self with
      | Some p => h ← remove_child h p sister; Ok (h, Some sister)
      | None => Raise AttributeError
      end
  end.

(** [swap_childs(self)]. *)
Definition swap_childs (h : store) (self : positive) : store :=
  if bool_decide (1 < length (children_of h self))
  then alter (fun o => set_children (reverse (children o)) o) self h
  else h.

(** [for ch in self.children: self.up.add_child(ch)], as Python iterates a
    list: by index, over the list as it is at each step.  [self.up] stays
    [p] through the loop, which assigns [up] only to [ch], and assigns it
    [p]. *)
Fixpoint delete_loop (fuel : nat) (h : store) (self p : positive) (i : nat) : result store :=
  match children_of h self !! i with
  | None => Ok h
  | Some ch =>
      match fuel with
      | 0 => OutOfFuel
      | S fuel => delete_loop fuel (attach h p ch) self p (S i)
      end
  end.

(** [delete(self)], with the same test [if self.up:]. *)
Definition delete (fuel : nat) (h : store) (self : positive) : result store :=
  match up_of h self with
  | Some p =>
      n ← __len__ fuel h p;
      if bool_decide (n = 0) then Ok h
      else
        h ← delete_loop fuel h self p 0;
        remove_child h p self
  | None => Ok h
  end.

(** [unroot(self)].  On a node that has a parent the warning is printed
    with [sys.stderr], and the module does not import [sys]: NameError. *)
Definition unroot (fuel : nat) (h : store) (self : positive) : result store :=
  if is_root h self then
    match children_of h self with
    | [c0; c1] =>
        if negb (is_leaf h c0) then delete fuel h c0
        else if negb (is_leaf h c1) then delete fuel h c1
        else Raise TreeError
    | _ => Ok h
    end
  else Raise NameError.

(** ** Queries *)

(** [[n for s in current.children for n in s.traverse() if s != prev_node]]. *)
Fixpoint nodes_under (fuel : nat) (h : store) (prev_node : positive) (cs : list positive)
    : result (list positive) :=
  match cs with
  | [] => Ok []
  | s :: cs =>
      l ← traverse fuel h s Preorder;
      r ← nodes_under fuel h prev_node cs;
      Ok (filter (fun _ => s ≠ prev_node) l ++ r)
  end.

(** The [while current is not None] loop of [get_common_ancestor]. *)
Fixpoint common_ancestor_loop (fuel : nat) (h : store) (targets nodes_bellow : gset positive)
    (current : option positive) (prev_node : positive) : result (option positive) :=
  match current with
  | None => Ok None
  | Some c =>
      match fuel with
      | 0 => OutOfFuel
      | S fuel =>
          l ← nodes_under fuel h prev_node (children_of h c);
          let new_nodes := l ++ [c] in
          let nodes_bellow := nodes_bellow ∪ list_to_set new_nodes in
          if decide (targets ⊆ nodes_bellow) then Ok (Some c)
          else common_ancestor_loop fuel h targets nodes_bellow (up_of h c) c
      end
  end.

(** [get_common_ancestor(self, *target_nodes)]; the result is None when
    the walk passes the root. *)
Definition get_common_ancestor (fuel : nat) (h : store) (self : positive)
    (target_nodes : list positive) : result (option positive) :=
  let targets : gset positive := {[self]} ∪ list_to_set target_nodes in
  common_ancestor_loop fuel h targets {[self]} (Some self) self.

(** [while current != ancestor: dist += current.dist; current = current.up]. *)
Fixpoint distance_loop (fuel : nat) (h : store) (ancestor : positive)
    (current : option positive) (dist : D) : result D :=
  if decide (current = Some ancestor) then Ok dist else
  match current with
  | None => Raise AttributeError
  | Some c =>
      match fuel with
      | 0 => OutOfFuel
      | S fuel => distance_loop fuel h ancestor (up_of h c) (num_add dist (dist_of h c))
      end
  end.

Definition get_distance (fuel : nat) (h : store) (self target : positive) : result D :=
  ancestor ← get_common_ancestor fuel h self [target];
  match ancestor with
  | None => Raise TreeError
  | Some ancestor =>
      dist ← distance_loop fuel h ancestor (Some self) num_zero;
      distance_loop fuel h ancestor (Some target) dist
  end.

(** [get_farthest_leaf(self, topology_only)]: the pair (node or None,
    distance).  [farthest_step] is the body of [for ch in self.children]
    once the recursive call on [ch] has returned [r]. *)
Definition farthest_step (h : store) (topology_only : bool) (ch : positive)
    (r : option positive * D) (acc : option positive * D) : option positive * D :=
  let '(node, d) := r in
  let d := if topology_only then num_add d num_one else num_add d (dist_of h ch) in
  if num_ge d (snd acc) then (node, d) else acc.

(** [for ch in self.children], with [rec] the recursive call. *)
Fixpoint farthest_loop (rec : positive -> result (option positive * D)) (h : store)
    (topology_only : bool) (cs : list positive) (acc : option positive * D)
    : result (option positive * D) :=
  match cs with
  | [] => Ok acc
  | ch :: cs =>
      r ← rec ch;
      farthest_loop rec h topology_only cs (farthest_step h topology_only ch r acc)
  end.

Fixpoint get_farthest_leaf (fuel : nat) (h : store) (self : positive) (topology_only : bool)
    : result (option positive * D) :=
  match fuel with
  | 0 => OutOfFuel
  | S fuel =>
      if is_leaf h self then Ok (Some self, num_zero)
      else
        farthest_loop (fun ch => get_farthest_leaf fuel h ch topology_only)
          h topology_only (children_of h self) (None, num_zero)
  end.

(** ** Pruning *)

(** The [for l in leaves] loop of [prune]: the node instances selected. *)
Fixpoint node_instances_of (fuel : nat) (h : store) (self : positive) (leaves : list selector)
    (node_instances : gset positive) : result (gset positive) :=
  match leaves with
  | [] => Ok node_instances
  | SelName s :: leaves =>
      l ← get_leaves_by_name fuel h self s;
      node_instances_of fuel h self leaves (node_instances ∪ list_to_set l)
  | SelNode n :: leaves =>
      node_instances_of fuel h self leaves (node_instances ∪ {[n]})
  | SelOther :: leaves =>
      node_instances_of fuel h self leaves node_instances
  end.

(** The [while] loop of [prune] for one node [n] of [to_delete]. *)
Fixpoint prune_up (fuel : nat) (h : store) (n : positive) (current : option positive)
    : result store :=
  match current with
  | None => Ok h
  | Some c =>
      if bool_decide (c = n) || bool_decide (length (children_of h c) = 1) then
        match fuel with
        | 0 => OutOfFuel
        | S fuel' =>
            let next := up_of h c in
            h ← delete fuel h c;
            prune_up fuel' h n next
        end
      else Ok h
  end.

(** [for n in to_delete], in the order the set is iterated. *)
Fixpoint prune_loop (fuel : nat) (h : store) (to_delete : list positive) : result store :=
  match to_delete with
  | [] => Ok h
  | n :: to_delete =>
      h ← prune_up fuel h n (Some n);
      prune_loop fuel h to_delete
  end.

(** [prune(self, leaves, method)]: the store and the set returned.
    [set_iter] is the order in which Python iterates a set of nodes (it
    follows their hashes, that is their addresses). *)
Definition prune (set_iter : gset positive -> list positive) (fuel : nat) (h : store)
    (self : positive) (leaves : list selector) (method : prune_method)
    : result (store * gset positive) :=
  node_instances ← node_instances_of fuel h self leaves ∅;
  nodes_leaves ← get_leaves fuel h self;
  if decide (node_instances ⊆ list_to_set nodes_leaves) then
    to_delete ← match method with
                | Crop => Ok node_instances
                | Keep =>
                    l ← get_leaves fuel h self;
                    Ok (list_to_set l ∖ node_instances)
                | OtherMethod => Raise TreeError
                end;
    h ← prune_loop fuel h (set_iter to_delete);
    Ok (h, to_delete)
  else Raise TreeError.

(** ** Rerooting *)

(** [n = outgroup; while n.up is not self: n = n.up].  When [n.up] is None
    the next test reads [.up] of None. *)
Fixpoint branch_of (fuel : nat) (h : store) (self n : positive) : result positive :=
  match up_of h n with
  | None => Raise AttributeError
  | Some p =>
      if decide (p = self) then Ok n
      else
        match fuel with
        | 0 => OutOfFuel
        | S fuel => branch_of fuel h self p
        end
  end.

(** [for ch in self.get_childs(): ...], over the copy [cs] of the
    children. *)
Fixpoint move_children (h : store) (self connector : positive) (cs : list positive)
    : result store :=
  match cs with
  | [] => Ok h
  | ch :: cs =>
      let h := alter (fun o => set_children (children o ++ [ch]) o) connector h in
      let h := alter (set_up (Some connector)) ch h in
      l ← list_remove ch (children_of h self);
      move_children (alter (set_children l) self h) self connector cs
  end.

(** The parent-child swapping loop: [padre], [hijo], [fue_padre] are
    [quien_va_ser_padre], [quien_va_ser_hijo], [quien_fue_padre].  The
    result is the store with the final [quien_va_ser_padre],
    [quien_fue_padre] and [buffered_dist]. *)
Fixpoint swap_loop (fuel : nat) (h : store) (self padre : positive) (hijo : option positive)
    (fue_padre : option positive) (buffered_dist : D)
    : result (store * positive * option positive * D) :=
  if decide (hijo = Some self) then Ok (h, padre, fue_padre, buffered_dist) else
  match hijo with
  | None => Raise AttributeError
  | Some hj =>
      match fuel with
      | 0 => OutOfFuel
      | S fuel =>
          let h := alter (fun o => set_children (children o ++ [hj]) o) padre h in
          l ← list_remove padre (children_of h hj);
          let h := alter (set_children l) hj h in
          let buffered_dist2 := dist_of h hj in
          let h := alter (set_dist buffered_dist) hj h in
          let h := alter (set_up fue_padre) padre h in
          swap_loop fuel h self hj (up_of h hj) (Some padre) buffered_dist2
      end
  end.

(** The down branch connector, once the branch towards the outgroup is
    out of [self.children]: a new node that takes the children left when
    they are more than one, else [self.children[0]]. *)
Definition down_branch (h : store) (self : positive) : result (store * positive) :=
  if bool_decide (1 < length (children_of h self)) then
    let c := new_ref h in
    let h := <[c := set_dist num_zero new_node]> h in
    h ← move_children h self c (children_of h self);
    Ok (h, c)
  else
    match children_of h self !! 0 with
    | Some c => Ok (h, c)
    | None => Raise IndexError
    end.

(** The branch [if quien_va_ser_padre is not self:]: the swaps up to the
    child of [self], the connector hung under it, and the parent of the
    outgroup made [outgroup2]. *)
Definition swap_branch (fuel : nat) (h : store) (self outgroup parent_outgroup
    down_branch_connector : positive) : result (store * positive) :=
  '(h, padre, fue_padre, buffered_dist) ←
    swap_loop fuel h self parent_outgroup (up_of h parent_outgroup) None
      (dist_of h parent_outgroup);
  let h := alter (fun o => set_children (children o ++ [down_branch_connector]) o)
             padre h in
  let h := alter (set_up (Some padre)) down_branch_connector h in
  let h := alter (set_up fue_padre) padre h in
  let h := alter (fun o => set_dist (num_add (dist o) buffered_dist) o)
             down_branch_connector h in
  l ← list_remove outgroup (children_of h parent_outgroup);
  let h := alter (set_children l) parent_outgroup h in
  let h := alter (set_dist num_zero) parent_outgroup h in
  Ok (h, parent_outgroup).

(** The last statements of [set_outgroup], from [outgroup.up = self] to
    [self.children.sort()]: nodes are ordered by their address. *)
Definition new_root (h : store) (self outgroup outgroup2 : positive) : store :=
  let h := alter (set_up (Some self)) outgroup h in
  let h := alter (set_up (Some self)) outgroup2 h in
  let h := alter (set_children [outgroup; outgroup2]) self h in
  let middist := num_half (num_add (dist_of h outgroup2) (dist_of h outgroup)) in
  let h := alter (set_dist middist) outgroup h in
  let h := alter (set_dist middist) outgroup2 h in
  alter (fun o => set_children (merge_sort Pos.le (children o)) o) self h.

(** [set_outgroup(self, outgroup)]. *)
Definition set_outgroup (fuel : nat) (h : store) (self outgroup : positive) : result store :=
  if decide (self = outgroup) then Ok h else
  let parent_outgroup := up_of h outgroup in
  n ← branch_of fuel h self outgroup;
  l ← list_remove n (children_of h self);
  let h := alter (set_children l) self h in
  '(h, down_branch_connector) ← down_branch h self;
  match parent_outgroup with
  | None => Raise AttributeError
  | Some parent_outgroup =>
      '(h, outgroup2) ←
        (if decide (parent_outgroup = self) then Ok (h, down_branch_connector)
         else swap_branch fuel h self outgroup parent_outgroup down_branch_connector);
      Ok (new_root h self outgroup outgroup2)
  end.

(** ** Trees held by the store *)

(** The store [h] holds a tree of shape [t] whose root has parent
    [par]: every node of [t] is an object whose [children] are the roots
    of the shapes below it and whose [up] is the node above it. *)
Fixpoint represents (h : store) (par : option positive) (t : shape) : Prop :=
  let 'Shape r ks := t in
  is_Some (h !! r) ∧ children_of h r = map shape_root ks ∧ up_of h r = par ∧
  (fix all (ks : list shape) : Prop :=
     match ks with
     | [] => True
     | k :: ks => represents h (Some r) k ∧ all ks
     end) ks.

(** A tree: a shape held by the store, its root without a parent, no
    node twice. *)
Definition is_tree (h : store) (t : shape) : Prop :=
  represents h None t ∧ NoDup (ids t).

(** [p] is the parent of [c]. *)
Definition parent_step (h : store) (c p : positive) : Prop :=
  up_of h c = Some p.

(** [x] is [y] or an ancestor of [y]. *)
Definition ancestor_or_self (h : store) (x y : positive) : Prop :=
  rtc (parent_step h) y x.

(** [c] is in the children sequence of [p]. *)
Definition child_step (h : store) (p c : positive) : Prop :=
  c ∈ children_of h p.

(** [n] is reachable from [root] through children sequences. *)
Definition reachable (h : store) (root n : positive) : Prop :=
  rtc (child_step h) root n.

(** The number of times [n] stands in [l]. *)
Definition occurrences (n : positive) (l : list positive) : nat :=
  length (filter (fun x => x = n) l).

(** The link invariant at node [n]: every child of [n] has [n] as its
    parent, and the parent of [n], if any, lists [n] exactly once. *)
Definition links_ok_at (h : store) (n : positive) : Prop :=
  Forall (fun c => up_of h c = Some n) (children_of h n) ∧
  match up_of h n with
  | Some p => occurrences n (children_of h p) = 1
  | None => True
  end.

(** The link invariant of a store in which the nodes of [G] were
    deleted: it holds at every other node, and a deleted node has no
    parent and is the parent of no node (it keeps the [children] it had). *)
Definition links_except (G : gset positive) (h : store) : Prop :=
  map_Forall (fun n _ => n ∉ G -> links_ok_at h n) h ∧
  set_Forall (fun g => up_of h g = None) G ∧
  map_Forall (fun n _ =>
    match up_of h n with Some p => p ∉ G | None => True end) h.

(** The link invariant: it holds at every node. *)
Definition links_ok (h : store) : Prop := links_except ∅ h.

(** No node that has a parent has exactly one child. *)
Definition no_single_child (h : store) : Prop :=
  map_Forall (fun n _ => up_of h n ≠ None -> length (children_of h n) ≠ 1) h.

#[export] Instance links_ok_at_dec h n : Decision (links_ok_at h n).
Proof. unfold links_ok_at. destruct (up_of h n); apply _. Defined.

#[export] Instance links_except_dec G h : Decision (links_except G h).
Proof.
  unfold links_except. apply and_dec; [apply _ |]. apply and_dec; [apply _ |].
  apply map_Forall_dec. intros n _. destruct (up_of h n); apply _.
Defined.

#[export] Instance links_ok_dec h : Decision (links_ok h).
Proof. unfold links_ok. apply _. Defined.

#[export] Instance no_single_child_dec h : Decision (no_single_child h).
Proof. unfold no_single_child. apply _. Defined.

(** The indicator of a decidable proposition. *)
Definition ind (P : Prop) `{Decision P} : Z := if decide P then 1 else 0.

(** How far the pair of [p] and [c] is from the link invariant: the number
    of times [c] stands in [p.children], less one when [c.up] is [p].  The
    invariant holds when it is 0 at every pair. *)
Definition link_defect (h : store) (p c : positive) : Z :=
  Z.of_nat (occurrences c (children_of h p)) - ind (up_of h c = Some p).

(** The structure under [root] in a store in which the nodes of [G] were
    deleted: the invariant holds, [root] has no parent and was not
    deleted. *)
Definition rooted (root : positive) (G : gset positive) (h : store) : Prop :=
  links_except G h ∧ up_of h root = None ∧ (root ∉ G).

(** The state of the [while] loop of [prune]: the nodes of [G] were
    deleted, [root] was not and has no parent, the invariant holds, and
    no node with a parent has exactly one child, [current] apart. *)
Definition pruning (root : positive) (G : gset positive) (h : store)
    (current : option positive) : Prop :=
  links_except G h ∧ up_of h root = None ∧ (root ∉ G) ∧
  forall n, up_of h n ≠ None -> Some n ≠ current -> length (children_of h n) ≠ 1.

(** The leaves below a shape with the distance [get_farthest_leaf] sums
    for each, in children order: the edge to a child weighs its [dist],
    or 1 when [topology_only]; a node for which [is_leaf] holds ends the
    descent. *)
Fixpoint leaf_dists (h : store) (topology_only : bool) (t : shape)
    : list (positive * D) :=
  let 'Shape r ks := t in
  if is_leaf h r then [(r, num_zero)]
  else
    ks ≫= (fun k =>
      (fun p => (fst p,
         if topology_only then num_add (snd p) num_one
         else num_add (snd p) (dist_of h (shape_root k))))
      <$> leaf_dists h topology_only k).

(** The weight [get_farthest_leaf] adds for the edge above [ch]. *)
Definition edge_weight (h : store) (topo : bool) (ch : positive) : D :=
  if topo then num_one else dist_of h ch.

(** [(l, d)] is the last entry of [L] with the greatest distance: no entry
    before it is farther, every entry after it is nearer. *)
Definition last_max (L : list (positive * D)) (l : positive) (d : D) : Prop :=
  exists pre post, L = pre ++ (l, d) :: post ∧
    Forall (fun p => num_ge d (snd p) = true) pre ∧
    Forall (fun p => num_ge (snd p) d = false) post.

(** [get_farthest_leaf] read on the shape instead of the store's
    [children]: the recursion of the code, for the proofs. *)
Fixpoint farthest (h : store) (topology_only : bool) (t : shape) : option positive * D :=
  let 'Shape r ks := t in
  if is_leaf h r then (Some r, num_zero)
  else
    foldl (fun acc k =>
             farthest_step h topology_only (shape_root k) (farthest h topology_only k) acc)
          (None, num_zero) ks.

(** The nodes from [x] up to [r], [r] excluded: what [distance_loop]
    visits. *)
Inductive climbs (h : store) (r : positive) : positive -> list positive -> Prop :=
  | climbs_here : climbs h r r []
  | climbs_up x p l : x ≠ r -> up_of h x = Some p -> climbs h r p l -> climbs h r x (x :: l).

(** ** Drawing *)

(** The leaves a drawing shows: the descent stops at every node for
    which [is_leaf] holds. *)
Fixpoint shown_leaves (h : store) (t : shape) : list positive :=
  let 'Shape r ks := t in
  if is_leaf h r then [r] else ks ≫= shown_leaves h.

(** [lines] and [mid] draw the shape [t]: the line of the [i]-th leaf
    shown is the line [ascii_step compact * i], and ends with ["-"] and
    the name of the leaf. *)
Definition draws (h : store) (compact : bool) (t : shape)
    (lines : list string) (mid : nat) : Prop :=
  mid < length lines ∧ 0 < length (shown_leaves h t) ∧
  length lines + ascii_sep compact = ascii_step compact * length (shown_leaves h t) ∧
  forall i leaf, shown_leaves h t !! i = Some leaf ->
    exists pre, lines !! (ascii_step compact * i) = Some (pre +:+ "-" +:+ name_of h leaf).

(** [for c in self.children: ...] of [_asciiArt], with [rec] the recursive
    call; [all] is [self.children], [acc] the lists [mids] and [result]. *)
Fixpoint ascii_children (rec : positive -> string -> result (list string * nat))
    (all cs : list positive) (compact : bool) (acc : list nat * list string)
    : result (list nat * list string) :=
  match cs with
  | [] => Ok acc
  | c :: cs =>
      let char2 :=
        if decide (Some c = head all) then "/"
        else if decide (Some c = last all) then "\"
        else "-" in
      '(clines, mid) ← rec c char2;
      let '(mids, result) := acc in
      let mids := mids ++ [mid + length result] in
      let result := result ++ clines in
      let result := if compact then result else result ++ [EmptyString] in
      ascii_children rec all cs compact (mids, result)
  end.

(** [_asciiArt(self, char1, show_internal, compact)]: the lines and the
    index of the line the branch of [self] leaves from.  [(lo + hi) / 2]
    is the floor division of two [int]; a list repeated a negative number
    of times is empty, as with the truncated subtraction here. *)
Fixpoint _asciiArt (fuel : nat) (h : store) (self : positive)
    (char1 : string) (show_internal compact : bool) : result (list string * nat) :=
  match fuel with
  | 0 => OutOfFuel
  | S fuel =>
      if negb (is_leaf h self) then
        '(mids, result) ←
          ascii_children (fun c char2 => _asciiArt fuel h c char2 show_internal compact)
            (children_of h self) (children_of h self) compact ([], []);
        result ← (if negb compact then list_pop result else Ok result);
        lo ← list_get mids 0;
        hi ← match last mids with Some x => Ok x | None => Raise IndexError end;
        let end_ := length result in
        let prefixes :=
          replicate (lo + 1) PAD ++ replicate (hi - lo - 1) (PA +:+ "|")
            ++ replicate (end_ - hi) PAD in
        let mid := (lo + hi) / 2 in
        p ← list_get prefixes mid;
        lc ← str_last p;
        let prefixes := <[mid := char1 +:+ "--------" +:+ lc]> prefixes in
        let result := zip_with (fun p l => p +:+ l) prefixes result in
        result ←
          (if show_internal then
             stem ← list_get result mid;
             c0 ← str_first stem;
             Ok (<[mid := c0 +:+ name_of h self
                          +:+ str_from (String.length (name_of h self) + 1) stem]> result)
           else Ok result);
        Ok (result, mid)
      else Ok ([char1 +:+ "-" +:+ name_of h self], 0)
  end.

(** [get_ascii(self, show_internal, compact)]; [__str__] is
    [get_ascii()]. *)
Definition get_ascii (fuel : nat) (h : store) (self : positive)
    (show_internal compact : bool) : result string :=
  '(lines, mid) ← _asciiArt fuel h self "-" show_internal compact;
  Ok (String.concat (String (Ascii.ascii_of_nat 10) EmptyString) lines).

(** ** Building stores

    The store that holds a tree of a given shape: the object of node [n]
    has [dist] [dist_f n] and [name] [name_f n], the other attributes as
    [__init__] leaves them. *)
Definition node_of (cs : list positive) (par : option positive) (d : D) (s : string)
    : TreeNode :=
  mkNode cs par {["dist"; "name"; "support"]} false d s num_one None.

Fixpoint store_of (dist_f : positive -> D) (name_f : positive -> string)
    (par : option positive) (t : shape) : store :=
  let 'Shape r ks := t in
  <[r := node_of (map shape_root ks) par (dist_f r) (name_f r)]>
    (foldr (fun k acc => store_of dist_f name_f (Some r) k ∪ acc) ∅ ks).

End TreeNode.

(** ** Example trees *)

(** [((4,5)2,3)1]. *)
Definition shape5 : shape :=
  Shape 1 [Shape 2 [Shape 4 []; Shape 5 []]; Shape 3 []].

(** The tree of the docstrings,
    [(((A:0.1,B:0.01):0.001,C:0.0001):1.0,(D:0.00001):0.000001):2.0]:
    root 1, its children 2 and 3, under 2 the node 4 and the leaf C = 5,
    under 4 the leaves A = 6 and B = 7, under 3 the leaf D = 8. *)
Definition shape8 : shape :=
  Shape 1 [Shape 2 [Shape 4 [Shape 6 []; Shape 7 []]; Shape 5 []];
           Shape 3 [Shape 8 []]].

Definition names8 (n : positive) : string :=
  match n with
  | 1%positive => "root" | 2%positive => "I" | 3%positive => "J"
  | 5%positive => "C" | 6%positive => "A" | 7%positive => "B" | 8%positive => "D"
  | _ => "NoName"
  end.

Definition dists8 (n : positive) : float :=
  match n with
  | 1%positive => 2%float | 2%positive => 1%float | 3%positive => 0.000001%float
  | 4%positive => 0.001%float | 5%positive => 0.0001%float
  | 6%positive => 0.1%float | 7%positive => 0.01%float | 8%positive => 0.00001%float
  | _ => 1%float
  end.

Definition store8 : gmap positive (@TreeNode float) :=
  store_of dists8 names8 None shape8.

(** [shape5] with every [dist] 1.0, and with every [dist] the integer 1. *)
Definition store5 : gmap positive (@TreeNode float) :=
  store_of (fun _ => 1%float) (fun _ => "NoName") None shape5.

Definition store5Z : gmap positive (@TreeNode Z) :=
  store_of (fun _ => 1%Z) (fun _ => "NoName") None shape5.

(** [shape5] with a long branch above 3 and unit branches elsewhere:
    [((4:1,5:1)2:1,3:1e16)1]. *)
Definition store5_long : gmap positive (@TreeNode float) :=
  store_of (fun n => if decide (n = 3%positive) then 1e16%float else 1%float)
    (fun _ => "NoName") None shape5.

(** A root with two leaves, [(2:1,3:1)1]. *)
Definition shape3 : shape := Shape 1 [Shape 2 []; Shape 3 []].

Definition store3 : gmap positive (@TreeNode float) :=
  store_of (fun _ => 1%float) (fun _ => "NoName") None shape3.

Definition store3Z : gmap positive (@TreeNode Z) :=
  store_of (fun _ => 1%Z) (fun _ => "NoName") None shape3.

(** [(2:-1,3:-1)1]: two leaves at a negative distance. *)
Definition store3_negative : gmap positive (@TreeNode float) :=
  store_of (fun _ => (-1)%float) (fun _ => "NoName") None shape3.

(** A root with one child that has two leaves, [((3,4)2)1]. *)
Definition shape4 : shape := Shape 1 [Shape 2 [Shape 3 []; Shape 4 []]].

Definition store4 : gmap positive (@TreeNode float) :=
  store_of (fun _ => 1%float) (fun _ => "NoName") None shape4.

(** ** Tactics *)

(** Unfolds the attribute reads and decides the lookups under them. *)
Ltac reads :=
  unfold is_leaf, children_of, up_of, dist_of, support_of, name_of, collapsed_of,
    collapse_attr_of in *;
  rewrite ?lookup_alter, ?lookup_insert in *;
  repeat (case_decide; simplify_eq/=);
  repeat match goal with
         | |- context [?h !! ?n] => destruct (h !! n) eqn:?; simplify_eq/=
         end;
  try done.

(** Decides a closed proposition by evaluation. *)
Ltac by_evaluation :=
  match goal with |- ?P => refine (@bool_decide_unpack P _ _) end; vm_compute; exact I.

(** Proves that an example store holds a tree of the given shape. *)
Ltac tree_example :=
  split; [cbn; repeat split; try (eexists; reflexivity) | by_evaluation].

(** Proves a property of each node of a concrete list of nodes. *)
Ltac each_node :=
  let n := fresh "n" in
  let Hn := fresh "Hn" in
  intros n Hn;
  repeat (apply elem_of_cons in Hn as [->|Hn]; [reflexivity |]);
  by apply elem_of_nil in Hn.

(** * Properties *)

(** ** Indicators

    Sums of indicators are compared as polynomials: conjunctions become
    products, and the indicators the context decides are replaced by 1
    or 0. *)

Lemma ind_and (P Q : Prop) `{Decision P, Decision Q} :
  ind (P ∧ Q) = (ind P * ind Q)%Z.
Proof. unfold ind. repeat case_decide; destruct_and?; try done; tauto. Qed.

Lemma ind_Some {A} `{EqDecision A} (a b : A) : ind (Some a = Some b) = ind (a = b).
Proof. unfold ind. repeat case_decide; simplify_eq; done. Qed.

Lemma ind_None {A} `{EqDecision A} (b : A) : ind (None = Some b) = 0%Z.
Proof. unfold ind. by case_decide. Qed.

Lemma ind_sym {A} `{EqDecision A} (a b : A) : ind (a = b) = ind (b = a).
Proof. unfold ind. repeat case_decide; simplify_eq; done. Qed.

Lemma ind_True (P : Prop) `{Decision P} : P -> ind P = 1%Z.
Proof. intros. unfold ind. by rewrite decide_True. Qed.

Lemma ind_False (P : Prop) `{Decision P} : ¬ P -> ind P = 0%Z.
Proof. intros. unfold ind. by rewrite decide_False. Qed.

Ltac ind_simpl :=
  repeat match goal with
  | |- context [@ind ?P ?d] =>
      first [ rewrite (@ind_True P d) by (done || congruence)
            | rewrite (@ind_False P d) by (done || congruence) ]
  | |- context [@ind (?a = ?b) _] =>
      match goal with
      | |- context [@ind (b = a) _] =>
          tryif unify a b then fail else rewrite (ind_sym a b)
      end
  end.

Tactic Notation "ind_cases" :=
  rewrite ?ind_and, ?ind_Some, ?ind_None in *; ind_simpl;
  first [ ring | unfold ind in *; repeat case_decide; simplify_eq; lia ].
Tactic Notation "ind_cases" "+" hyp_list(Hs) := clear -Hs; ind_cases.

Section Facts.
Context {D : Type} {num : PyNum D}.
Implicit Types (h : gmap positive (@TreeNode D)) (n m self : positive).
Implicit Types (t s k : shape) (ts ks : list shape).

(** ** Reads after writes *)

Lemma children_of_alter_eq h f n :
  children_of (alter f n h) n =
  match h !! n with Some o => children (f o) | None => [] end.
Proof. by reads. Qed.

Lemma children_of_alter_ne h f n m :
  n ≠ m -> children_of (alter f n h) m = children_of h m.
Proof. intros. by reads. Qed.

Lemma up_of_alter_eq h f n :
  up_of (alter f n h) n = match h !! n with Some o => up (f o) | None => None end.
Proof. by reads. Qed.

Lemma up_of_alter_ne h f n m : n ≠ m -> up_of (alter f n h) m = up_of h m.
Proof. intros. by reads. Qed.

Lemma children_of_keep h f n m :
  (forall o, children (f o) = children o) ->
  children_of (alter f n h) m = children_of h m.
Proof.
  intros Hf. unfold children_of. rewrite lookup_alter.
  case_decide; [subst; destruct (h !! m); simpl; auto | done].
Qed.

Lemma up_of_keep h f n m :
  (forall o, up (f o) = up o) -> up_of (alter f n h) m = up_of h m.
Proof.
  intros Hf. unfold up_of. rewrite lookup_alter.
  case_decide; [subst; destruct (h !! m); simpl; auto | done].
Qed.

Lemma collapsed_of_keep h f n m :
  (forall o, collapsed (f o) = collapsed o) ->
  collapsed_of (alter f n h) m = collapsed_of h m.
Proof.
  intros Hf. unfold collapsed_of. rewrite lookup_alter.
  case_decide; [subst; destruct (h !! m); simpl; auto | done].
Qed.

(** ** C10: [collapse()] and [expand()] *)

(** C10.  For every store and node, [collapse()] and [expand()] leave the
    [collapsed] attribute of every node as it was, hence [is_leaf()] too:
    [collapse()] on a node that has no instance attribute [collapse]
    returns with that attribute set to True, on a node that has one it
    raises TypeError; [expand()] sets it to False. *)
Theorem collapse_assigns_collapse_not_collapsed h self :
  (forall n, collapsed_of (store_after (collapse h self) h) n = collapsed_of h n) ∧
  (forall n, is_leaf (store_after (collapse h self) h) n = is_leaf h n) ∧
  (forall n, collapsed_of (store_after (expand h self) h) n = collapsed_of h n) ∧
  (forall n, is_leaf (store_after (expand h self) h) n = is_leaf h n) ∧
  match h !! self with
  | Some o =>
      collapse_attr_of (store_after (expand h self) h) self = Some false ∧
      match collapse_attr o with
      | None =>
          collapse h self = Ok (store_after (collapse h self) h) ∧
          collapse_attr_of (store_after (collapse h self) h) self = Some true
      | Some _ => collapse h self = Raise TypeError
      end
  | None => True
  end.
Proof.
  assert (Hc : forall n, collapsed_of (store_after (collapse h self) h) n = collapsed_of h n).
  { intros n. unfold collapse. destruct (collapse_attr_of h self); simpl; [done |].
    by apply collapsed_of_keep. }
  assert (He : forall n, collapsed_of (store_after (expand h self) h) n = collapsed_of h n).
  { intros n. simpl. by apply collapsed_of_keep. }
  assert (Hk : forall n, children_of (store_after (collapse h self) h) n = children_of h n).
  { intros n. unfold collapse. destruct (collapse_attr_of h self); simpl; [done |].
    by apply children_of_keep. }
  assert (Hx : forall n, children_of (store_after (expand h self) h) n = children_of h n).
  { intros n. simpl. by apply children_of_keep. }
  split_and!; try done.
  - intros n. unfold is_leaf. by rewrite Hc, Hk.
  - intros n. unfold is_leaf. by rewrite He, Hx.
  - destruct (h !! self) as [o|] eqn:Ho; [| done]. split.
    + simpl. unfold collapse_attr_of. by rewrite lookup_alter_eq, Ho.
    + unfold collapse, collapse_attr_of. rewrite Ho.
      destruct (collapse_attr o); simpl; [done |].
      by rewrite lookup_alter_eq, Ho.
Qed.

(** ** Shapes *)

Lemma shape_ind' (P : shape -> Prop) :
  (forall r ks, Forall P ks -> P (Shape r ks)) -> forall t, P t.
Proof.
  intros Hstep. fix IH 1. intros [r ks]. apply Hstep.
  induction ks as [|k ks IHks]; constructor; [apply IH | apply IHks].
Qed.

Lemma represents_unfold h par r ks :
  represents h par (Shape r ks) <->
  is_Some (h !! r) ∧ children_of h r = map shape_root ks ∧ up_of h r = par ∧
  Forall (represents h (Some r)) ks.
Proof.
  simpl. do 3 (apply and_iff_compat_l).
  induction ks as [|k ks IHks]; [by split; [constructor |] |].
  rewrite Forall_cons, IHks. done.
Qed.

Lemma shape_size_pos t : 0 < shape_size t.
Proof. destruct t; simpl; lia. Qed.

Lemma shape_size_kid r ks k : k ∈ ks -> shape_size k < shape_size (Shape r ks).
Proof.
  intros Hk. simpl. induction Hk as [k ks|k k' ks _ IH]; simpl; lia.
Qed.

Lemma shape_size_kids r ks : list_sum (map shape_size ks) < shape_size (Shape r ks).
Proof. simpl. lia. Qed.

Lemma root_in_ids t : shape_root t ∈ ids t.
Proof. destruct t; simpl. left. Qed.

Lemma ids_kid r ks k n : k ∈ ks -> n ∈ ids k -> n ∈ ids (Shape r ks).
Proof.
  intros Hk Hn. simpl. right. apply list_elem_of_bind. eauto.
Qed.

Lemma length_ids t : length (ids t) = shape_size t.
Proof.
  induction t as [r ks IH] using shape_ind'.
  change (S (length (ks ≫= ids)) = S (list_sum (map shape_size ks))). f_equal.
  induction IH as [|k ks Hk _ IHks]; [done |].
  rewrite bind_cons, length_app, Hk, IHks. done.
Qed.

(** ** Traversal: what [traverse(strategy="preorder")] yields *)

Lemma preorder_level_order h fuel ts :
  Forall (fun t => exists par, represents h par t) ts ->
  list_sum (map shape_size ts) <= fuel ->
  _iter_descendants_preorder fuel h (map shape_root ts) = Ok (level_order fuel ts).
Proof.
  revert ts. induction fuel as [|fuel IH]; intros [|[r ks] ts] Hts Hfuel; simpl in *;
    try done; try lia.
  apply Forall_cons in Hts as [[par Hr] Hts].
  apply represents_unfold in Hr as (_ & -> & _ & Hks).
  rewrite <- map_app, IH; [done | |].
  - apply Forall_app. split; [done |].
    eapply Forall_impl; [exact Hks | eauto].
  - rewrite map_app, list_sum_app. lia.
Qed.

Lemma level_order_perm fuel ts :
  list_sum (map shape_size ts) <= fuel -> level_order fuel ts ≡ₚ ts ≫= ids.
Proof.
  revert ts. induction fuel as [|fuel IH]; intros [|[r ks] ts] Hfuel; simpl in *;
    try done; try lia.
  rewrite IH by (rewrite map_app, list_sum_app; lia).
  rewrite bind_app. simpl. constructor. apply Permutation_app_comm.
Qed.

(** On a tree, [traverse] with the default strategy returns, and yields
    the nodes level by level; each node of the tree is yielded once. *)
Lemma traverse_level_order h par t fuel :
  represents h par t -> shape_size t <= fuel ->
  traverse fuel h (shape_root t) Preorder = Ok (level_order fuel [t]) ∧
  level_order fuel [t] ≡ₚ ids t.
Proof.
  intros Ht Hfuel. split.
  - apply (preorder_level_order h fuel [t]); [eauto | simpl; lia].
  - rewrite level_order_perm by (simpl; lia). simpl. by rewrite app_nil_r.
Qed.

(** A traversal that ends has met a node without children: [__len__]
    is never 0, so a node is always true. *)
Lemma preorder_meets_childless h fuel tovisit l :
  _iter_descendants_preorder fuel h tovisit = Ok l -> tovisit ≠ [] ->
  exists x, x ∈ l ∧ children_of h x = [].
Proof.
  revert tovisit l. induction fuel as [|fuel IH]; intros [|c q] l; simpl; try done.
  destruct (_iter_descendants_preorder fuel h (q ++ children_of h c)) as [r| |] eqn:Hr;
    simpl; try done.
  intros [= <-] _. destruct (children_of h c) as [|c' cs] eqn:Hc.
  - exists c. split; [by left | done].
  - destruct (IH _ _ Hr) as (x & Hx & Hxc); [by destruct q |].
    exists x. split; [by right | done].
Qed.

Lemma len_not_zero h fuel self (len : nat) : __len__ fuel h self = Ok len -> len ≠ 0.
Proof.
  unfold __len__, get_leaves, iter_leaves, traverse.
  destruct (_iter_descendants_preorder fuel h [self]) as [l| |] eqn:Hl; simpl; try done.
  intros [= <-]. destruct (preorder_meets_childless _ _ _ _ Hl) as (x & Hx & Hxc); [done |].
  assert (Hin : x ∈ filter (fun n => is_leaf h n = true) l).
  { apply list_elem_of_filter. split; [| done]. unfold is_leaf. rewrite Hxc. simpl.
    by rewrite orb_true_r. }
  destruct (filter _ l); [by apply elem_of_nil in Hin | done].
Qed.

Lemma delete_cases h fuel self h' :
  delete fuel h self = Ok h' ->
  (up_of h self = None ∧ h' = h) ∨
  (exists p h1, up_of h self = Some p ∧ delete_loop fuel h self p 0 = Ok h1 ∧
     remove_child h1 p self = Ok h').
Proof.
  unfold delete. destruct (up_of h self) as [p|]; [| intros [= <-]; by left].
  destruct (__len__ fuel h p) as [len| |] eqn:Hn; simpl; try done.
  rewrite bool_decide_eq_false_2 by by eapply len_not_zero.
  destruct (delete_loop fuel h self p 0) as [h1| |] eqn:Hloop; simpl; try done.
  intros Hr. right. eauto.
Qed.

(** ** C8: [add_child] and its [dist] and [support] arguments *)

Lemma new_ref_fresh h : h !! new_ref h = None.
Proof. apply not_elem_of_dom. apply is_fresh. Qed.

Lemma children_of_new h n :
  children_of (<[new_ref h := new_node]> h) n = children_of h n.
Proof.
  unfold children_of. rewrite lookup_insert. case_decide; [subst | done].
  by rewrite new_ref_fresh.
Qed.

Lemma up_of_new h n : up_of (<[new_ref h := new_node]> h) n = up_of h n.
Proof.
  unfold up_of. rewrite lookup_insert. case_decide; [subst | done].
  by rewrite new_ref_fresh.
Qed.

Lemma children_of_attach h self (child : positive) n :
  children_of (attach h self child) n =
  if decide (n = self) then
    match h !! self with Some _ => children_of h self ++ [child] | None => [] end
  else children_of h n.
Proof.
  unfold attach. rewrite children_of_keep by done.
  case_decide; [subst; rewrite children_of_alter_eq | by rewrite children_of_alter_ne].
  unfold children_of. by destruct (h !! self).
Qed.

Lemma up_of_attach h self (child : positive) n :
  up_of (attach h self child) n =
  if decide (n = child) then
    match h !! child with Some _ => Some self | None => None end
  else up_of h n.
Proof.
  unfold attach. case_decide.
  - subst. rewrite up_of_alter_eq, lookup_alter. case_decide; subst.
    + by destruct (h !! child).
    + by destruct (h !! child).
  - rewrite up_of_alter_ne by done. by apply up_of_keep.
Qed.

(** When [add_child] raises, no [children] and no [up] has changed. *)
Lemma add_child_raise_no_link h self child nm ds sp e :
  snd (add_child h self child nm ds sp) = Raise e ->
  forall n,
    children_of (fst (add_child h self child nm ds sp)) n = children_of h n ∧
    up_of (fst (add_child h self child nm ds sp)) n = up_of h n.
Proof.
  unfold add_child, converted.
  destruct child as [c|], nm as [[?|]|], ds as [[?| |]|], sp as [[?| |]|]; simpl;
    intros He n; try discriminate;
    rewrite ?children_of_keep, ?up_of_keep, ?children_of_new, ?up_of_new by done; done.
Qed.


(** ** Lists: [occurrences] and [list.remove] *)

Lemma occurrences_nil n : occurrences n [] = 0.
Proof. done. Qed.

Lemma occurrences_cons n x l :
  occurrences n (x :: l) = (if decide (x = n) then 1 else 0) + occurrences n l.
Proof. unfold occurrences. rewrite filter_cons. by case_decide. Qed.

Lemma occurrences_app n l1 l2 :
  occurrences n (l1 ++ l2) = occurrences n l1 + occurrences n l2.
Proof. unfold occurrences. by rewrite filter_app, length_app. Qed.

Lemma occurrences_zero n l : occurrences n l = 0 <-> n ∉ l.
Proof.
  induction l as [|x l IH]; [by split; [intros _ ?%elem_of_nil |] |].
  rewrite occurrences_cons, not_elem_of_cons. case_decide; subst.
  - split; [lia | by intros []].
  - rewrite <- IH. split; [auto | lia].
Qed.

Lemma occurrences_pos n l : 0 < occurrences n l <-> n ∈ l.
Proof.
  destruct (decide (n ∈ l)) as [Hin|Hin].
  - split; [done | intros _]. destruct (occurrences n l) eqn:Ho; [| lia].
    by apply occurrences_zero in Ho.
  - apply occurrences_zero in Hin as Ho. rewrite Ho. split; [lia | done].
Qed.

Lemma list_remove_Ok x l l' :
  list_remove x l = Ok l' ->
  exists l1 l2, l = l1 ++ x :: l2 ∧ (x ∉ l1) ∧ l' = l1 ++ l2.
Proof.
  revert l'. induction l as [|y l IH]; intros l'; simpl; [done |].
  case_decide as Hxy.
  - intros [= <-]. subst. exists [], l. split_and!; [done | | done].
    by intros ?%elem_of_nil.
  - destruct (list_remove x l) as [r| |] eqn:Hr; simpl; try done.
    intros [= <-]. destruct (IH r eq_refl) as (l1 & l2 & -> & Hx & ->).
    exists (y :: l1), l2. split_and!; [done | | done].
    rewrite not_elem_of_cons. auto.
Qed.

Lemma list_remove_elem_of x l : x ∈ l -> exists l', list_remove x l = Ok l'.
Proof.
  induction l as [|y l IH]; [by intros ?%elem_of_nil |].
  intros Hx. simpl. case_decide; [eauto |].
  apply elem_of_cons in Hx as [| Hx]; [done |].
  destruct (IH Hx) as [l' ->]. simpl. eauto.
Qed.

Lemma list_remove_not_elem_of x l : x ∉ l -> list_remove x l = Raise ValueError.
Proof.
  induction l as [|y l IH]; [done |].
  rewrite not_elem_of_cons. intros [Hxy Hx]. simpl.
  rewrite decide_False by done. by rewrite IH.
Qed.

Lemma list_remove_occurrences x l l' n :
  list_remove x l = Ok l' ->
  occurrences n l = (if decide (x = n) then 1 else 0) + occurrences n l'.
Proof.
  intros (l1 & l2 & -> & _ & ->)%list_remove_Ok.
  rewrite !occurrences_app, occurrences_cons. lia.
Qed.

Lemma list_remove_subseteq x l l' n : list_remove x l = Ok l' -> n ∈ l' -> n ∈ l.
Proof.
  intros (l1 & l2 & -> & _ & ->)%list_remove_Ok.
  rewrite !elem_of_app, elem_of_cons. naive_solver.
Qed.

Lemma list_remove_length x l l' : list_remove x l = Ok l' -> length l = S (length l').
Proof.
  intros (l1 & l2 & -> & _ & ->)%list_remove_Ok.
  rewrite !length_app. simpl. lia.
Qed.

Lemma list_remove_once x l l' :
  list_remove x l = Ok l' -> occurrences x l = 1 -> x ∉ l'.
Proof.
  intros Hr Ho. apply occurrences_zero.
  rewrite (list_remove_occurrences _ _ _ x Hr), decide_True in Ho by done. lia.
Qed.

(** ** The link invariant, node by node *)

Lemma links_ok_at_spec h n :
  links_ok_at h n <->
  (forall c, c ∈ children_of h n -> up_of h c = Some n) ∧
  (forall p, up_of h n = Some p -> occurrences n (children_of h p) = 1).
Proof.
  unfold links_ok_at. rewrite Forall_forall.
  destruct (up_of h n) as [p|]; naive_solver.
Qed.

Lemma links_except_spec G h :
  links_except G h <->
  (forall n c, n ∉ G -> c ∈ children_of h n -> up_of h c = Some n) ∧
  (forall n p, up_of h n = Some p -> occurrences n (children_of h p) = 1) ∧
  (forall g, g ∈ G -> up_of h g = None) ∧
  (forall n p, up_of h n = Some p -> p ∉ G).
Proof.
  unfold links_except, set_Forall. rewrite !map_Forall_lookup. split.
  - intros (Hat & Hg & Hp). split_and!.
    + intros n c Hn Hc. destruct (h !! n) as [o|] eqn:Ho.
      * pose proof (Hat n o Ho Hn) as [H1 _]%links_ok_at_spec. by apply H1.
      * unfold children_of in Hc. rewrite Ho in Hc. by apply elem_of_nil in Hc.
    + intros n p Hup. destruct (h !! n) as [o|] eqn:Ho.
      * destruct (decide (n ∈ G)) as [Hin|Hn]; [apply Hg in Hin; congruence |].
        pose proof (Hat n o Ho Hn) as [_ H2]%links_ok_at_spec. by apply H2.
      * unfold up_of in Hup. by rewrite Ho in Hup.
    + done.
    + intros n p Hup. destruct (h !! n) as [o|] eqn:Ho.
      * specialize (Hp n o Ho). by rewrite Hup in Hp.
      * unfold up_of in Hup. by rewrite Ho in Hup.
  - intros (H1 & H2 & Hg & Hp). split_and!.
    + intros n o _ Hn. apply links_ok_at_spec. naive_solver.
    + done.
    + intros n o _. destruct (up_of h n) eqn:?; naive_solver.
Qed.

Lemma no_single_child_spec h :
  no_single_child h <->
  forall n, up_of h n ≠ None -> length (children_of h n) ≠ 1.
Proof.
  unfold no_single_child. rewrite map_Forall_lookup. split; [| naive_solver].
  intros Hh n Hup. destruct (h !! n) as [o|] eqn:Ho; [by eapply Hh |].
  unfold up_of in Hup. by rewrite Ho in Hup.
Qed.

Lemma up_of_Some_allocated h n p : up_of h n = Some p -> is_Some (h !! n).
Proof. unfold up_of. destruct (h !! n); [eauto | done]. Qed.

Lemma children_of_elem_allocated h n c : c ∈ children_of h n -> is_Some (h !! n).
Proof.
  unfold children_of. destruct (h !! n); [eauto | by intros ?%elem_of_nil].
Qed.

(** ** C9: the operations and the link invariant *)

Lemma links_except_reads G h h' :
  (forall n, children_of h' n = children_of h n) ->
  (forall n, up_of h' n = up_of h n) ->
  links_except G h -> links_except G h'.
Proof.
  intros Hc Hu. rewrite !links_except_spec.
  setoid_rewrite Hc. setoid_rewrite Hu. done.
Qed.

Lemma allocated_alter h f n m : is_Some (alter f n h !! m) <-> is_Some (h !! m).
Proof.
  rewrite lookup_alter. case_decide; [subst | done].
  destruct (h !! m); simpl; split; intros [? ?]; eauto; done.
Qed.

Lemma allocated_attach h self (c : positive) m :
  is_Some (attach h self c !! m) <-> is_Some (h !! m).
Proof. unfold attach. by rewrite !allocated_alter. Qed.

Lemma children_of_attach_self h self (c : positive) :
  is_Some (h !! self) ->
  children_of (attach h self c) self = children_of h self ++ [c].
Proof.
  intros [o Ho]. rewrite children_of_attach, decide_True by done. by rewrite Ho.
Qed.

Lemma children_of_attach_ne h self (c : positive) n :
  n ≠ self -> children_of (attach h self c) n = children_of h n.
Proof. intros. by rewrite children_of_attach, decide_False. Qed.

Lemma up_of_attach_child h self (c : positive) :
  is_Some (h !! c) -> up_of (attach h self c) c = Some self.
Proof.
  intros [o Ho]. rewrite up_of_attach, decide_True by done. by rewrite Ho.
Qed.

Lemma up_of_attach_ne h self (c : positive) n :
  n ≠ c -> up_of (attach h self c) n = up_of h n.
Proof. intros. by rewrite up_of_attach, decide_False. Qed.

(** Attaching a node that has no parent keeps the invariant. *)
Lemma attach_links G h self (c : positive) :
  links_except G h -> is_Some (h !! self) -> is_Some (h !! c) ->
  up_of h c = None -> self ∉ G -> c ∉ G ->
  links_except G (attach h self c).
Proof.
  rewrite !links_except_spec. intros (H1 & H2 & H3 & H4) Hself Hc Hup HsG HcG.
  assert (Hnot : c ∉ children_of h self).
  { intros Hin. apply (H1 _ _ HsG) in Hin. congruence. }
  split_and!.
  - intros n x Hn. destruct (decide (n = self)) as [->|Hne].
    + rewrite children_of_attach_self, elem_of_app, list_elem_of_singleton by done.
      intros [Hx| ->]; [| by apply up_of_attach_child].
      rewrite up_of_attach_ne by (intros ->; done). by apply H1.
    + rewrite children_of_attach_ne by done. intros Hx.
      pose proof (H1 _ _ Hn Hx) as Hux.
      rewrite up_of_attach_ne by (intros ->; congruence). done.
  - intros n p. destruct (decide (n = c)) as [->|Hne].
    + rewrite up_of_attach_child by done. intros [= <-].
      rewrite children_of_attach_self, occurrences_app by done.
      apply occurrences_zero in Hnot. rewrite Hnot, occurrences_cons, decide_True by done.
      done.
    + rewrite up_of_attach_ne by done. intros Hup'.
      destruct (decide (p = self)) as [->|Hps].
      * rewrite children_of_attach_self, occurrences_app by done.
        rewrite (H2 _ _ Hup'), occurrences_cons, decide_False by done. done.
      * rewrite children_of_attach_ne by done. by apply H2.
  - intros g Hg. rewrite up_of_attach_ne by (intros ->; done). by apply H3.
  - intros n p. destruct (decide (n = c)) as [->|Hne].
    + rewrite up_of_attach_child by done. by intros [= <-].
    + rewrite up_of_attach_ne by done. apply H4.
Qed.

Lemma remove_child_reads h self (child : positive) h' :
  remove_child h self child = Ok h' ->
  exists l, list_remove child (children_of h self) = Ok l ∧
    (forall n, children_of h' n = if decide (n = self) then l else children_of h n) ∧
    (forall n, up_of h' n = if decide (n = child) then None else up_of h n).
Proof.
  unfold remove_child. destruct (list_remove child (children_of h self)) as [l|[]|] eqn:Hl;
    simpl; try done.
  intros [= <-]. exists l. split_and!; [done | |].
  - intros n. rewrite children_of_keep by done. case_decide as Hn.
    + subst. rewrite children_of_alter_eq.
      destruct (h !! self) as [o|] eqn:Ho; [done |].
      unfold children_of in Hl. by rewrite Ho in Hl.
    + by rewrite children_of_alter_ne.
  - intros n. case_decide as Hn.
    + subst. rewrite up_of_alter_eq. by destruct (_ !! child).
    + rewrite up_of_alter_ne by done. by apply up_of_keep.
Qed.

Lemma list_remove_Ok_elem_of x l l' : list_remove x l = Ok l' -> x ∈ l.
Proof.
  intros (l1 & l2 & -> & _)%list_remove_Ok. rewrite elem_of_app, elem_of_cons. auto.
Qed.

(** [remove_child] keeps the invariant. *)
Lemma remove_child_links G h self (child : positive) h' :
  links_except G h -> self ∉ G -> remove_child h self child = Ok h' ->
  links_except G h'.
Proof.
  rewrite !links_except_spec. intros (H1 & H2 & H3 & H4) HsG Hr.
  apply remove_child_reads in Hr as (l & Hl & Hc & Hu).
  assert (Hin : child ∈ children_of h self) by by eapply list_remove_Ok_elem_of.
  assert (Hupc : up_of h child = Some self) by by apply H1.
  assert (Hnot : child ∉ l) by (eapply list_remove_once; eauto).
  split_and!.
  - intros n x Hn. rewrite Hc, Hu. case_decide as Hns; subst.
    + intros Hx. rewrite decide_False by (intros ->; done).
      apply H1; [done |]. by eapply list_remove_subseteq.
    + intros Hx. pose proof (H1 _ _ Hn Hx) as Hux.
      rewrite decide_False by (intros ->; congruence). done.
  - intros n p. rewrite Hu, Hc. case_decide as Hnc; [done |]. intros Hup.
    case_decide as Hps; subst; [| by apply H2].
    pose proof (H2 _ _ Hup) as Ho.
    rewrite (list_remove_occurrences _ _ _ n Hl), decide_False in Ho by done. done.
  - intros g Hg. rewrite Hu. case_decide; [done | by apply H3].
  - intros n p. rewrite Hu. case_decide; [done | apply H4].
Qed.

Lemma detach_cases h fuel self h' :
  detach fuel h self = Ok h' ->
  (up_of h self = None ∧ h' = h) ∨
  (exists p, up_of h self = Some p ∧ remove_child h p self = Ok h').
Proof.
  unfold detach, remove_child. destruct (up_of h self) as [p|]; [| intros [= <-]; by left].
  destruct (__len__ fuel h p) as [len| |] eqn:Hn; simpl; try done.
  rewrite bool_decide_eq_false_2 by by eapply len_not_zero.
  intros Hd. right. exists p. split; [done |].
  destruct (list_remove self (children_of h p)) as [l|e|]; simpl in *; done.
Qed.

(** [detach] keeps the invariant. *)
Lemma detach_links G h fuel self h' :
  links_except G h -> detach fuel h self = Ok h' -> links_except G h'.
Proof.
  intros Hl [[_ ->]|(p & Hup & Hr)]%detach_cases; [done |].
  eapply remove_child_links; [done | | done].
  apply links_except_spec in Hl as (_ & _ & _ & H4). by eapply H4.
Qed.

(** [add_child] with a new node, or with a node that has no parent, keeps
    the invariant. *)
Lemma add_child_links G h self (child : option positive) nm ds sp c :
  links_except G h -> is_Some (h !! self) -> self ∉ G ->
  match child with
  | Some c => is_Some (h !! c) ∧ up_of h c = None ∧ c ∉ G
  | None => new_ref h ∉ G
  end ->
  snd (add_child h self child nm ds sp) = Ok c ->
  links_except G (fst (add_child h self child nm ds sp)).
Proof.
  intros Hl Hself HsG Hchild.
  set (h0 := match child with Some _ => h | None => <[new_ref h := new_node]> h end).
  set (c0 := match child with Some c => c | None => new_ref h end).
  assert (Hl0 : links_except G h0).
  { destruct child; [done |]. eapply links_except_reads; [| | exact Hl].
    - apply children_of_new.
    - apply up_of_new. }
  assert (Hself0 : is_Some (h0 !! self)).
  { destruct child; [done |]. subst h0. rewrite lookup_insert. by case_decide. }
  assert (Hc0 : is_Some (h0 !! c0) ∧ up_of h0 c0 = None ∧ c0 ∉ G).
  { destruct child; [done |]. subst h0 c0. rewrite up_of_new.
    unfold up_of. rewrite lookup_insert_eq, new_ref_fresh. eauto. }
  destruct Hc0 as (Hc0 & Hup0 & HcG).
  assert (Hgo : forall h1, (forall n, children_of h1 n = children_of h0 n) ->
    (forall n, up_of h1 n = up_of h0 n) -> is_Some (h1 !! self) -> is_Some (h1 !! c0) ->
    links_except G (attach h1 self c0)).
  { intros h1 Hc1 Hu1 Hs1 Ha1. apply attach_links; try done.
    - by eapply links_except_reads.
    - by rewrite Hu1. }
  unfold add_child, converted.
  destruct child as [c'|], nm as [[?|]|], ds as [[?| |]|], sp as [[?| |]|]; simpl;
    intros He; try discriminate; apply Hgo; intros;
    rewrite ?children_of_keep, ?up_of_keep, ?allocated_alter by done; done.
Qed.

(** The loop of [delete] when the parent is another node: the children
    are attached to the parent one after the other. *)
Lemma delete_loop_Ok fuel h self p i h' :
  p ≠ self -> delete_loop fuel h self p i = Ok h' ->
  h' = foldl (fun h ch => attach h p ch) h (drop i (children_of h self)).
Proof.
  intros Hp. revert h i. induction fuel as [|fuel IH]; intros h i; simpl.
  - destruct (children_of h self !! i) as [ch|] eqn:Hi; [done |].
    intros [= <-]. apply lookup_ge_None in Hi. by rewrite drop_ge.
  - destruct (children_of h self !! i) as [ch|] eqn:Hi.
    + intros Hd. apply IH in Hd. rewrite children_of_attach_ne in Hd by done.
      by rewrite (drop_S _ _ _ Hi).
    + intros [= <-]. apply lookup_ge_None in Hi. by rewrite drop_ge.
Qed.

Lemma delete_loop_enough fuel h self p i :
  p ≠ self -> length (children_of h self) <= fuel + i ->
  delete_loop fuel h self p i =
    Ok (foldl (fun h ch => attach h p ch) h (drop i (children_of h self))).
Proof.
  intros Hp. revert h i. induction fuel as [|fuel IH]; intros h i Hlen; simpl.
  - rewrite (proj2 (lookup_ge_None _ _)) by (simpl in *; lia). by rewrite drop_ge.
  - destruct (children_of h self !! i) as [ch|] eqn:Hi.
    + rewrite IH by (rewrite children_of_attach_ne by done; lia).
      rewrite children_of_attach_ne by done. by rewrite (drop_S _ _ _ Hi).
    + apply lookup_ge_None in Hi. by rewrite drop_ge.
Qed.

(** When a node is its own parent the loop of [delete] runs over a list
    that grows with every step: it never ends. *)
Lemma delete_loop_own_parent fuel h self i h' :
  i < length (children_of h self) -> delete_loop fuel h self self i ≠ Ok h'.
Proof.
  revert h i. induction fuel as [|fuel IH]; intros h i Hi; simpl.
  - apply lookup_lt_is_Some in Hi as [ch ->]. done.
  - destruct (lookup_lt_is_Some_2 _ _ Hi) as [ch Hch]. rewrite Hch.
    apply IH. rewrite children_of_attach_self.
    + rewrite length_app. simpl. lia.
    + apply (children_of_elem_allocated h self ch). by eapply list_elem_of_lookup_2.
Qed.

Lemma foldl_attach_allocated h p cs n :
  is_Some (foldl (fun h ch => attach h p ch) h cs !! n) <-> is_Some (h !! n).
Proof.
  revert h. induction cs as [|c cs IH]; intros h; simpl; [done |].
  by rewrite IH, allocated_attach.
Qed.

Lemma foldl_attach_children h p cs n :
  is_Some (h !! p) ->
  children_of (foldl (fun h ch => attach h p ch) h cs) n =
  if decide (n = p) then children_of h p ++ cs else children_of h n.
Proof.
  revert h. induction cs as [|c cs IH]; intros h Hp; simpl.
  - case_decide; subst; by rewrite ?app_nil_r.
  - rewrite IH by by apply allocated_attach. case_decide; subst.
    + rewrite children_of_attach_self by done. by rewrite <- app_assoc.
    + by rewrite children_of_attach_ne.
Qed.

Lemma foldl_attach_up h p cs n :
  Forall (fun c => is_Some (h !! c)) cs ->
  up_of (foldl (fun h ch => attach h p ch) h cs) n =
  if decide (n ∈ cs) then Some p else up_of h n.
Proof.
  revert h. induction cs as [|c cs IH]; intros h Hcs; cbn [foldl].
  - rewrite decide_False; [done | by intros ?%elem_of_nil].
  - apply Forall_cons in Hcs as [Hc Hcs]. rewrite IH.
    + destruct (decide (n ∈ cs)) as [Hin|Hin].
      * rewrite decide_True; [done | by right].
      * destruct (decide (n = c)) as [->|Hne].
        -- rewrite decide_True by left. by apply up_of_attach_child.
        -- rewrite decide_False by (rewrite elem_of_cons; naive_solver).
           by apply up_of_attach_ne.
    + eapply Forall_impl; [exact Hcs |]. intros x Hx. by apply allocated_attach.
Qed.

(** What [delete] leaves in the store, for a node with a parent in a store
    that satisfies the invariant: the parent is another node; its
    children are its former children and those of [self], [self]
    removed; the children of [self] have the parent of [self] as their
    parent, and [self] has none. *)
Lemma delete_reads G h fuel self p h' :
  links_except G h -> up_of h self = Some p -> delete fuel h self = Ok h' ->
  p ≠ self ∧
  exists l, list_remove self (children_of h p ++ children_of h self) = Ok l ∧
    (forall n, children_of h' n = if decide (n = p) then l else children_of h n) ∧
    (forall n, up_of h' n =
       if decide (n = self) then None
       else if decide (n ∈ children_of h self) then Some p else up_of h n).
Proof.
  intros Hl Hup. apply links_except_spec in Hl as (H1 & H2 & H3 & H4).
  intros [[Hnone _]|(p' & h1 & Hup' & Hloop & Hr)]%delete_cases; [congruence |].
  assert (p' = p) as -> by congruence.
  assert (Hocc : occurrences self (children_of h p) = 1) by by apply H2.
  assert (Hin : self ∈ children_of h p) by (apply occurrences_pos; lia).
  assert (Hp : p ≠ self).
  { intros ->. apply list_elem_of_lookup_1 in Hin as [i Hi].
    eapply (delete_loop_own_parent fuel h self 0); [| exact Hloop].
    apply lookup_lt_Some in Hi. lia. }
  assert (HsG : self ∉ G) by (intros Hg; apply H3 in Hg; congruence).
  split; [done |].
  apply delete_loop_Ok in Hloop; [| done]. rewrite drop_0 in Hloop. subst h1.
  apply remove_child_reads in Hr as (l & Hrem & Hc & Hu).
  assert (Hpa : is_Some (h !! p)) by by eapply children_of_elem_allocated.
  assert (Hcs : Forall (fun c => is_Some (h !! c)) (children_of h self)).
  { apply Forall_forall. intros c Hc'. eapply up_of_Some_allocated. by apply H1. }
  rewrite foldl_attach_children, decide_True in Hrem by done.
  exists l. split_and!; [done | |].
  - intros n. rewrite Hc. case_decide; [done |].
    by rewrite foldl_attach_children, decide_False.
  - intros n. rewrite Hu. case_decide; [done |]. by apply foldl_attach_up.
Qed.

(** [delete] keeps the invariant at every node but the deleted one. *)
Lemma delete_links G h fuel self p h' :
  links_except G h -> up_of h self = Some p -> delete fuel h self = Ok h' ->
  links_except ({[self]} ∪ G) h'.
Proof.
  intros Hl Hup Hd.
  destruct (delete_reads _ _ _ _ _ _ Hl Hup Hd) as (Hp & l & Hrem & Hc & Hu).
  apply links_except_spec in Hl as (H1 & H2 & H3 & H4).
  assert (HsG : self ∉ G) by (intros Hg; apply H3 in Hg; congruence).
  assert (HpG : p ∉ G) by by eapply H4.
  assert (Hocc : occurrences self (children_of h p) = 1) by by apply H2.
  assert (Hscs : self ∉ children_of h self).
  { intros Hin. apply (H1 _ _ HsG) in Hin. congruence. }
  assert (Hsl : self ∉ l).
  { apply occurrences_zero. apply occurrences_zero in Hscs.
    pose proof (list_remove_occurrences _ _ _ self Hrem) as Ho.
    rewrite occurrences_app, decide_True in Ho by done. lia. }
  apply links_except_spec. split_and!.
  - intros n x Hn. apply not_elem_of_union in Hn as [Hns%not_elem_of_singleton HnG].
    rewrite Hc, Hu. case_decide as Hnp; subst.
    + intros Hx. rewrite decide_False by (intros ->; done).
      case_decide as Hxcs; [done |].
      apply (list_remove_subseteq _ _ _ _ Hrem) in Hx.
      apply elem_of_app in Hx as [Hx|Hx]; [by apply H1 | done].
    + intros Hx. pose proof (H1 _ _ HnG Hx) as Hux.
      rewrite decide_False by (intros ->; congruence).
      rewrite decide_False; [done |].
      intros Hxcs. apply (H1 _ _ HsG) in Hxcs. congruence.
  - intros n q. rewrite Hu, Hc. case_decide as Hns; [done |].
    case_decide as Hncs.
    + intros [= <-]. rewrite decide_True by done.
      pose proof (list_remove_occurrences _ _ _ n Hrem) as Ho.
      rewrite occurrences_app, decide_False in Ho by done.
      pose proof (H1 _ _ HsG Hncs) as Hun. pose proof (H2 _ _ Hun) as Ho2.
      assert (occurrences n (children_of h p) = 0); [| lia].
      apply occurrences_zero. intros Hin. apply (H1 _ _ HpG) in Hin. congruence.
    + intros Hun. pose proof (H2 _ _ Hun) as Ho2. case_decide as Hqp; [| done].
      subst. pose proof (list_remove_occurrences _ _ _ n Hrem) as Ho.
      rewrite occurrences_app, decide_False in Ho by done.
      apply occurrences_zero in Hncs. lia.
  - intros g. rewrite elem_of_union, elem_of_singleton, Hu. intros [->|Hg].
    + by rewrite decide_True.
    + case_decide; [done |]. rewrite decide_False; [by apply H3 |].
      intros Hgcs. apply (H1 _ _ HsG) in Hgcs. apply H3 in Hg. congruence.
  - intros n q. rewrite Hu. case_decide as Hns; [done |].
    rewrite not_elem_of_union, not_elem_of_singleton. case_decide as Hncs.
    + intros [= <-]. done.
    + intros Hun. split; [| by eapply H4].
      intros ->. pose proof (H2 _ _ Hun) as Ho.
      apply Hncs. apply occurrences_pos. lia.
Qed.

(** ** C6: [prune] and nodes with exactly one child *)

Lemma pruning_delete root G h fuel c p h' :
  pruning root G h (Some c) -> up_of h c = Some p -> delete fuel h c = Ok h' ->
  pruning root ({[c]} ∪ G) h' (Some p).
Proof.
  intros (Hl & Hroot & HrG & Hone) Hup Hd.
  pose proof (delete_links _ _ _ _ _ _ Hl Hup Hd) as Hl'.
  destruct (delete_reads _ _ _ _ _ _ Hl Hup Hd) as (Hp & l & Hrem & Hc & Hu).
  apply links_except_spec in Hl as (H1 & H2 & H3 & H4).
  assert (HcG : c ∉ G) by (intros Hg; apply H3 in Hg; congruence).
  split_and!; [done | | |].
  - rewrite Hu. case_decide; [done |]. rewrite decide_False; [done |].
    intros Hin. apply (H1 _ _ HcG) in Hin. congruence.
  - rewrite not_elem_of_union, not_elem_of_singleton. split; [congruence | done].
  - intros n. rewrite Hu, Hc. case_decide as Hnc; [done |]. intros Hun Hnp.
    rewrite decide_False by congruence. apply Hone; [| congruence].
    case_decide as Hin; [| done]. apply (H1 _ _ HcG) in Hin. congruence.
Qed.

Lemma pruning_weaken root G h current :
  pruning root G h current ->
  (forall c, current = Some c -> up_of h c = None ∨ length (children_of h c) ≠ 1) ->
  pruning root G h None.
Proof.
  intros (Hl & Hroot & HrG & Hone) Hcur. split_and!; try done.
  intros n Hun _. destruct (decide (Some n = current)) as [Heq|Hne]; [| by apply Hone].
  destruct (Hcur n) as [Hnone|Hlen]; done.
Qed.

Lemma prune_up_pruning root fuel G h n current h' :
  pruning root G h current ->
  prune_up fuel h n current = Ok h' ->
  exists G', pruning root G' h' None.
Proof.
  assert (Hstop : forall G h c,
    pruning root G h (Some c) ->
    bool_decide (c = n) || bool_decide (length (children_of h c) = 1) = false ->
    pruning root G h None).
  { intros G0 h0 c Hp Hb. eapply pruning_weaken; [done |].
    intros c' [= <-]. right. apply orb_false_iff in Hb as [_ Hb].
    by apply bool_decide_eq_false in Hb. }
  revert G h current. induction fuel as [|fuel IH]; intros G h current Hp.
  - destruct current as [c|]; simpl; [| intros [= <-]; eauto].
    destruct (bool_decide (c = n) || bool_decide (length (children_of h c) = 1)) eqn:Hb;
      [done |].
    intros [= <-]. eauto.
  - destruct current as [c|]; simpl; [| intros [= <-]; eauto].
    destruct (bool_decide (c = n) || bool_decide (length (children_of h c) = 1)) eqn:Hb;
      [| intros [= <-]; eauto].
    destruct (delete (S fuel) h c) as [h1| |] eqn:Hd; simpl; try done.
    destruct (up_of h c) as [p|] eqn:Hup.
    + intros Hrec. eapply (IH _ _ (Some p)); [| exact Hrec]. by eapply pruning_delete.
    + apply delete_cases in Hd as [[_ ->]|(? & ? & ? & _)]; [| congruence].
      destruct fuel; simpl; intros [= <-]; exists G;
        (eapply pruning_weaken; [done |]); intros c' [= <-]; by left.
Qed.

Lemma prune_loop_pruning root fuel G h to_delete h' :
  pruning root G h None -> prune_loop fuel h to_delete = Ok h' ->
  exists G', pruning root G' h' None.
Proof.
  revert G h. induction to_delete as [|n to_delete IH]; intros G h Hp; simpl.
  - intros [= <-]. eauto.
  - destruct (prune_up fuel h n (Some n)) as [h1| |] eqn:Hup; simpl; try done.
    intros Hrec. eapply prune_up_pruning in Hup as [G1 Hp1].
    + by eapply IH.
    + destruct Hp as (Hl & Hroot & HrG & Hone). split_and!; try done.
      intros m Hm _. by apply Hone.
Qed.

Lemma prune_store set_iter fuel h self leaves method h' removed :
  prune set_iter fuel h self leaves method = Ok (h', removed) ->
  prune_loop fuel h (set_iter removed) = Ok h'.
Proof.
  unfold prune.
  destruct (node_instances_of fuel h self leaves ∅) as [ni| |]; simpl; try done.
  destruct (get_leaves fuel h self) as [nl| |] eqn:Hnl; simpl; try done.
  case_decide; [| done].
  destruct method; simpl; rewrite ?Hnl; simpl.
  - destruct (prune_loop fuel h (set_iter _)) eqn:Hloop; simpl; try done.
    by intros [= <- <-].
  - destruct (prune_loop fuel h (set_iter _)) eqn:Hloop; simpl; try done.
    by intros [= <- <-].
  - done.
Qed.

Lemma reachable_live_parent root G h n :
  pruning root G h None -> reachable h root n ->
  (n ∉ G) ∧ (n ≠ root -> up_of h n ≠ None).
Proof.
  intros (Hl & Hroot & HrG & Hone) Hreach.
  apply links_except_spec in Hl as (H1 & H2 & H3 & H4).
  revert n Hreach. apply rtc_ind_r; [done |].
  intros m x Hm Hx [HmG _]. pose proof (H1 _ _ HmG Hx) as Hux. split.
  - intros Hg. apply H3 in Hg. congruence.
  - intros _. congruence.
Qed.


(** ** C9, continued: [delete] and [prune] under a root *)

Lemma rooted_delete root G h fuel c p h' :
  rooted root G h -> up_of h c = Some p -> delete fuel h c = Ok h' ->
  rooted root ({[c]} ∪ G) h'.
Proof.
  intros (Hl & Hroot & HrG) Hup Hd.
  pose proof (delete_links _ _ _ _ _ _ Hl Hup Hd) as Hl'.
  destruct (delete_reads _ _ _ _ _ _ Hl Hup Hd) as (Hp & l & Hrem & Hc & Hu).
  apply links_except_spec in Hl as (H1 & H2 & H3 & H4).
  assert (HcG : c ∉ G) by (intros Hg; apply H3 in Hg; congruence).
  split_and!; [done | |].
  - rewrite Hu. case_decide; [done |]. rewrite decide_False; [done |].
    intros Hin. apply (H1 _ _ HcG) in Hin. congruence.
  - rewrite not_elem_of_union, not_elem_of_singleton. split; [congruence | done].
Qed.

Lemma prune_up_rooted root fuel G h n current h' :
  rooted root G h -> prune_up fuel h n current = Ok h' ->
  exists G', rooted root G' h'.
Proof.
  revert G h current. induction fuel as [|fuel IH]; intros G h current Hp.
  - destruct current as [c|]; simpl; [| intros [= <-]; eauto].
    destruct (bool_decide (c = n) || bool_decide (length (children_of h c) = 1));
      [done | intros [= <-]; eauto].
  - destruct current as [c|]; simpl; [| intros [= <-]; eauto].
    destruct (bool_decide (c = n) || bool_decide (length (children_of h c) = 1));
      [| intros [= <-]; eauto].
    destruct (delete (S fuel) h c) as [h1| |] eqn:Hd; simpl; try done.
    destruct (up_of h c) as [p|] eqn:Hup.
    + intros Hrec. eapply (IH _ _ (Some p)); [| exact Hrec]. by eapply rooted_delete.
    + apply delete_cases in Hd as [[_ ->]|(? & ? & ? & _)]; [| congruence].
      destruct fuel; simpl; intros [= <-]; eauto.
Qed.

Lemma prune_loop_rooted root fuel G h to_delete h' :
  rooted root G h -> prune_loop fuel h to_delete = Ok h' ->
  exists G', rooted root G' h'.
Proof.
  revert G h. induction to_delete as [|n to_delete IH]; intros G h Hp; simpl.
  - intros [= <-]. eauto.
  - destruct (prune_up fuel h n (Some n)) as [h1| |] eqn:Hup; simpl; try done.
    intros Hrec. eapply prune_up_rooted in Hup as [G1 Hp1]; [| done]. by eapply IH.
Qed.

Lemma occurrences_reverse n l : occurrences n (reverse l) = occurrences n l.
Proof. unfold occurrences. by rewrite reverse_Permutation. Qed.

(** [swap_childs] keeps the invariant. *)
Lemma swap_childs_links G h self : links_except G h -> links_except G (swap_childs h self).
Proof.
  unfold swap_childs. case_bool_decide as Hlen; [| done].
  rewrite !links_except_spec. intros (H1 & H2 & H3 & H4).
  assert (Hc : forall n, children_of (alter (fun o => set_children (reverse (children o)) o)
                                        self h) n
                         = if decide (n = self) then reverse (children_of h n)
                           else children_of h n).
  { intros n. case_decide as Hn.
    - subst. rewrite children_of_alter_eq. unfold children_of. by destruct (h !! self).
    - by rewrite children_of_alter_ne. }
  assert (Hu : forall n, up_of (alter (fun o => set_children (reverse (children o)) o)
                                  self h) n = up_of h n).
  { intros n. by apply up_of_keep. }
  split_and!.
  - intros n c Hn. rewrite Hc, Hu. case_decide; [rewrite elem_of_reverse |]; by apply H1.
  - intros n p. rewrite Hu, Hc. intros Hup.
    case_decide; [rewrite occurrences_reverse |]; by apply H2.
  - intros g Hg. rewrite Hu. by apply H3.
  - intros n p. rewrite Hu. apply H4.
Qed.

(** C9, as the code has it.  From a store that satisfies the link
    invariant: [add_child] on [self] with a new node, or with a node that
    has no parent, gives a store that satisfies it, and so do [add_sister]
    with such a node, [remove_child], [remove_sister], [detach] and
    [swap_childs]; [delete] of a node that has a parent gives a store that
    satisfies it at every node but the deleted one, which has no parent
    and is no node's parent but keeps its children sequence; [unroot], and
    [prune] of a root, give a store that satisfies it at every node but
    those they deleted, [self] not being one of them. *)
Theorem operations_keep_links h self :
  links_ok h -> is_Some (h !! self) ->
  (forall child nm ds sp c,
     match child with
     | Some c' => is_Some (h !! c') ∧ up_of h c' = None
     | None => True
     end ->
     snd (add_child h self child nm ds sp) = Ok c ->
     links_ok (fst (add_child h self child nm ds sp))) ∧
  (forall sister nm ds c,
     match sister with
     | Some c' => is_Some (h !! c') ∧ up_of h c' = None
     | None => True
     end ->
     snd (add_sister h self sister nm ds) = Ok c ->
     links_ok (fst (add_sister h self sister nm ds))) ∧
  (forall child h', remove_child h self child = Ok h' -> links_ok h') ∧
  (forall sister h' r, remove_sister h self sister = Ok (h', r) -> links_ok h') ∧
  (forall fuel h', detach fuel h self = Ok h' -> links_ok h') ∧
  links_ok (swap_childs h self) ∧
  (forall fuel h', delete fuel h self = Ok h' ->
     match up_of h self with
     | Some _ => links_except {[self]} h'
     | None => h' = h
     end) ∧
  (forall fuel h', unroot fuel h self = Ok h' ->
     exists G, links_except G h' ∧ self ∉ G) ∧
  (forall set_iter fuel leaves method h' removed,
     up_of h self = None ->
     prune set_iter fuel h self leaves method = Ok (h', removed) ->
     exists G, links_except G h' ∧ self ∉ G).
Proof.
  intros Hl Hself.
  assert (Hadd : forall self' child nm ds sp c,
    is_Some (h !! self') ->
    match child with
    | Some c' => is_Some (h !! c') ∧ up_of h c' = None
    | None => True
    end ->
    snd (add_child h self' child nm ds sp) = Ok c ->
    links_ok (fst (add_child h self' child nm ds sp))).
  { intros self' child nm ds sp c Hself' Hchild.
    apply add_child_links; [done | done | set_solver |].
    destruct child; [| set_solver].
    split_and!; [apply Hchild | apply Hchild | set_solver]. }
  assert (Hdel : forall fuel c h', delete fuel h c = Ok h' ->
    match up_of h c with
    | Some _ => links_except {[c]} h'
    | None => h' = h
    end).
  { intros fuel c h' Hd. destruct (up_of h c) as [p|] eqn:Hup.
    - replace ({[c]} : gset positive) with ({[c]} ∪ ∅ : gset positive) by set_solver.
      by eapply delete_links.
    - apply delete_cases in Hd as [[_ ->]|(? & ? & ? & _)]; [done | congruence]. }
  pose proof Hl as (H1 & H2 & H3 & H4)%links_except_spec.
  split_and!.
  - intros child nm ds sp c. by apply Hadd.
  - intros sister nm ds c Hsis. unfold add_sister.
    destruct (up_of h self) as [p|] eqn:Hup; [| done].
    apply Hadd; [| done]. pose proof (H2 _ _ Hup) as Ho.
    eapply (children_of_elem_allocated h p self). apply occurrences_pos. lia.
  - intros child h'. apply remove_child_links; [done | set_solver].
  - intros sister h' r. unfold remove_sister.
    destruct (get_sisters h self) as [|first rest]; [by intros [= <- _] |].
    destruct (up_of h self) as [p|]; [| done].
    destruct (remove_child h p _) as [h1| |] eqn:Hr; simpl; try done.
    intros [= <- _]. eapply (remove_child_links ∅ h p); [done | set_solver | exact Hr].
  - intros fuel h'. by apply detach_links.
  - by apply swap_childs_links.
  - intros fuel h'. apply Hdel.
  - intros fuel h'. unfold unroot, is_root.
    destruct (up_of h self) eqn:Hup; [done |].
    assert (Hkeep : exists G, links_except G h ∧ self ∉ G) by (exists ∅; set_solver).
    assert (Hchild : forall c h', c ∈ children_of h self -> delete fuel h c = Ok h' ->
      exists G, links_except G h' ∧ self ∉ G).
    { intros c h1 Hc Hd. pose proof (H1 self c (not_elem_of_empty _) Hc) as Hupc.
      apply Hdel in Hd. rewrite Hupc in Hd. exists {[c]}. split; [done |].
      intros ->%elem_of_singleton. congruence. }
    destruct (children_of h self) as [|c0 [|c1 [|c2 cs]]] eqn:Hcs;
      try (by intros [= <-]).
    destruct (negb (is_leaf h c0)).
    + apply Hchild. by left.
    + destruct (negb (is_leaf h c1)); [| done]. apply Hchild. right. by left.
  - intros set_iter fuel leaves method h' removed Hroot Hp.
    apply prune_store in Hp.
    eapply (prune_loop_rooted self _ ∅) in Hp as [G' (Hl' & _ & HrG)]; [by eauto |].
    split_and!; [done | done | set_solver].
Qed.

(** ** C7: [prune] with "keep" and every leaf selected *)

(** On a tree, [get_leaves] returns the leaves among the nodes of the
    tree. *)
Lemma get_leaves_tree h par t fuel :
  represents h par t -> shape_size t <= fuel ->
  exists l, get_leaves fuel h (shape_root t) = Ok l ∧
    l ≡ₚ filter (fun n => is_leaf h n = true) (ids t).
Proof.
  intros Ht Hfuel. destruct (traverse_level_order _ _ _ _ Ht Hfuel) as [Htr Hperm].
  unfold get_leaves, iter_leaves. rewrite Htr. simpl. eexists. split; [done |].
  by rewrite Hperm.
Qed.

(** C7.  For every tree, [prune] with method "keep" and selectors that
    resolve to the set of all leaves of the tree returns the empty set and
    the store as it was. *)
Theorem prune_keep_all_leaves set_iter fuel h t leaves :
  is_tree h t -> shape_size t <= fuel -> set_iter ∅ = [] ->
  node_instances_of fuel h (shape_root t) leaves ∅ =
    Ok (list_to_set (filter (fun n => is_leaf h n = true) (ids t))) ->
  prune set_iter fuel h (shape_root t) leaves Keep = Ok (h, ∅).
Proof.
  intros [Ht _] Hfuel Hiter Hsel.
  destruct (get_leaves_tree _ _ _ _ Ht Hfuel) as (l & Hl & Hperm).
  unfold prune. rewrite Hsel, Hl. simpl.
  assert (Hset : list_to_set l =@{gset positive}
                 list_to_set (filter (fun n => is_leaf h n = true) (ids t))).
  { by rewrite Hperm. }
  rewrite Hset. rewrite decide_True by done. simpl.
  replace (_ ∖ _) with (∅ : gset positive) by set_solver.
  by rewrite Hiter.
Qed.

(** ** C4: [get_farthest_leaf] *)

Lemma farthest_loop_shape h topo fuel ks acc :
  Forall (fun k => get_farthest_leaf fuel h (shape_root k) topo = Ok (farthest h topo k)) ks ->
  farthest_loop (fun ch => get_farthest_leaf fuel h ch topo) h topo
    (map shape_root ks) acc =
  Ok (foldl (fun acc k => farthest_step h topo (shape_root k) (farthest h topo k) acc)
        acc ks).
Proof.
  revert acc. induction ks as [|k ks IH]; intros acc Hks; [done |].
  apply Forall_cons in Hks as [Hk Hks]. simpl. rewrite Hk. simpl. by apply IH.
Qed.

(** On a tree the recursion of [get_farthest_leaf] ends: the call
    returns what the recursion over the shape gives. *)
Lemma get_farthest_leaf_shape h topo par t fuel :
  represents h par t -> shape_size t <= fuel ->
  get_farthest_leaf fuel h (shape_root t) topo = Ok (farthest h topo t).
Proof.
  revert par fuel. induction t as [r ks IH] using shape_ind'. intros par fuel Ht Hfuel.
  destruct fuel as [|fuel]; [pose proof (shape_size_pos (Shape r ks)); lia |].
  apply represents_unfold in Ht as (_ & Hcs & _ & Hks).
  cbn [get_farthest_leaf farthest shape_root]. destruct (is_leaf h r); [done |].
  rewrite Hcs. apply farthest_loop_shape.
  apply Forall_forall. intros k Hk.
  rewrite Forall_forall in IH, Hks. eapply IH; [done | by apply Hks |].
  pose proof (shape_size_kid r ks k Hk). lia.
Qed.

Lemma leaf_dists_leaves h topo t l d :
  (l, d) ∈ leaf_dists h topo t -> l ∈ ids t ∧ is_leaf h l = true.
Proof.
  revert l d. induction t as [r ks IH] using shape_ind'. intros l d.
  cbn [leaf_dists]. destruct (is_leaf h r) eqn:Hleaf.
  - intros [= -> ->]%list_elem_of_singleton. split; [apply (root_in_ids (Shape r ks)) | done].
  - intros (k & Hin & Hk)%list_elem_of_bind.
    apply list_elem_of_fmap in Hin as ([l' d'] & [= -> ->] & Hin).
    rewrite Forall_forall in IH. destruct (IH k Hk _ _ Hin) as [Hl Hleaf'].
    split; [by eapply ids_kid | done].
Qed.

Section Exact.
Context {exact : ExactNum D}.

Lemma num_ge_refl (x : D) : num_ge x x = true.
Proof. by destruct (num_ge_total x x). Qed.

Lemma num_lt_ge (x y : D) : num_ge x y = false -> num_ge y x = true.
Proof. intros Hxy. destruct (num_ge_total x y); congruence. Qed.

Lemma num_ge_lt_trans (x y z : D) :
  num_ge y x = true -> num_ge y z = false -> num_ge x z = false.
Proof.
  intros Hyx Hyz. destruct (num_ge x z) eqn:Hxz; [| done].
  rewrite (num_ge_trans y x z) in Hyz; done.
Qed.

Lemma num_add_nonneg (x c : D) :
  num_ge x num_zero = true -> num_ge c num_zero = true ->
  num_ge (num_add x c) num_zero = true.
Proof.
  intros Hx Hc. eapply num_ge_trans; [| exact Hc].
  rewrite <- (num_add_zero c) at 2. by apply num_add_ge.
Qed.

Lemma last_max_bound L l d p : last_max L l d -> p ∈ L -> num_ge d (snd p) = true.
Proof.
  intros (pre & post & -> & Hpre & Hpost).
  rewrite elem_of_app, elem_of_cons. rewrite Forall_forall in Hpre, Hpost.
  intros [Hp|[->|Hp]]; [by apply Hpre | apply num_ge_refl |].
  apply num_lt_ge. by apply Hpost.
Qed.

Lemma last_max_elem_of L l d : last_max L l d -> (l, d) ∈ L.
Proof. intros (pre & post & -> & _). rewrite elem_of_app, elem_of_cons. auto. Qed.

Lemma last_max_shift L l d (c : D) :
  last_max L l d ->
  last_max ((fun p => (fst p, num_add (snd p) c)) <$> L) l (num_add d c).
Proof.
  intros (pre & post & -> & Hpre & Hpost).
  exists ((fun p => (fst p, num_add (snd p) c)) <$> pre),
         ((fun p => (fst p, num_add (snd p) c)) <$> post).
  split_and!.
  - by rewrite fmap_app, fmap_cons.
  - apply Forall_fmap. eapply Forall_impl; [exact Hpre |].
    intros p Hp. simpl. by apply num_add_ge.
  - apply Forall_fmap. eapply Forall_impl; [exact Hpost |].
    intros p Hp. simpl. by apply num_add_lt.
Qed.

Lemma last_max_app_r L1 L2 l d :
  last_max L2 l d -> Forall (fun p => num_ge d (snd p) = true) L1 ->
  last_max (L1 ++ L2) l d.
Proof.
  intros (pre & post & -> & Hpre & Hpost) H1.
  exists (L1 ++ pre), post. split_and!; [by rewrite app_assoc | | done].
  by apply Forall_app.
Qed.

Lemma last_max_app_l L1 L2 l d :
  last_max L1 l d -> Forall (fun p => num_ge (snd p) d = false) L2 ->
  last_max (L1 ++ L2) l d.
Proof.
  intros (pre & post & -> & Hpre & Hpost) H2.
  exists pre, (post ++ L2). split_and!; [by rewrite <- app_assoc | done |].
  by apply Forall_app.
Qed.

Lemma farthest_step_weight h topo ch node d acc :
  farthest_step h topo ch (node, d) acc =
  if num_ge (num_add d (edge_weight h topo ch)) (snd acc)
  then (node, num_add d (edge_weight h topo ch)) else acc.
Proof. unfold farthest_step, edge_weight. by destruct topo. Qed.

Lemma leaf_dists_kids h topo r ks :
  is_leaf h r = false ->
  leaf_dists h topo (Shape r ks) =
  ks ≫= (fun k => (fun p => (fst p, num_add (snd p) (edge_weight h topo (shape_root k))))
                    <$> leaf_dists h topo k).
Proof.
  intros Hleaf. cbn [leaf_dists]. rewrite Hleaf. unfold edge_weight.
  by destruct topo.
Qed.

(** With distances that are not negative, the recursion gives the last
    of the farthest leaves, and its distance is not negative. *)
Lemma farthest_last_max h topo par t :
  represents h par t ->
  (forall n, n ∈ ids t -> num_ge (dist_of h n) num_zero = true) ->
  exists l d, farthest h topo t = (Some l, d) ∧
    last_max (leaf_dists h topo t) l d ∧ num_ge d num_zero = true.
Proof.
  revert par. induction t as [r ks IH] using shape_ind'. intros par Ht Hdist.
  apply represents_unfold in Ht as (_ & Hcs & _ & Hks).
  destruct (is_leaf h r) eqn:Hleaf.
  { exists r, num_zero. cbn [farthest leaf_dists]. rewrite Hleaf.
    split_and!; [done | | apply num_ge_refl].
    exists [], []. by split_and!. }
  rewrite leaf_dists_kids by done. cbn [farthest]. rewrite Hleaf.
  assert (Hne : ks ≠ []).
  { intros ->. unfold is_leaf in Hleaf. rewrite Hcs in Hleaf. simpl in Hleaf.
    by rewrite orb_true_r in Hleaf. }
  set (shifted := fun k => (fun p => (fst p, num_add (snd p) (edge_weight h topo (shape_root k))))
                    <$> leaf_dists h topo k).
  set (step := fun acc k => farthest_step h topo (shape_root k) (farthest h topo k) acc).
  assert (Hkid : forall k, k ∈ ks ->
    exists l d, farthest h topo k = (Some l, d) ∧
      last_max (shifted k) l (num_add d (edge_weight h topo (shape_root k))) ∧
      num_ge (num_add d (edge_weight h topo (shape_root k))) num_zero = true).
  { intros k Hk. rewrite Forall_forall in IH, Hks.
    destruct (IH k Hk (Some r)) as (l & d & Hf & Hmax & Hd); [by apply Hks | |].
    - intros n Hn. apply Hdist. by eapply ids_kid.
    - exists l, d. split_and!; [done | by apply last_max_shift |].
      apply num_add_nonneg; [done |]. unfold edge_weight. destruct topo.
      + apply num_one_ge_zero.
      + apply Hdist. eapply ids_kid; [done | apply root_in_ids]. }
  clear IH Hks Hcs Hleaf Hdist.
  assert (Hfold : forall ks2 ks1 acc, ks = ks1 ++ ks2 ->
    (ks1 = [] ∧ acc = (None, num_zero)) ∨
      (exists l, fst acc = Some l ∧ last_max (ks1 ≫= shifted) l (snd acc) ∧
                 num_ge (snd acc) num_zero = true) ->
    (ks = [] ∧ foldl step acc ks2 = (None, num_zero)) ∨
      (exists l, fst (foldl step acc ks2) = Some l ∧
                 last_max (ks ≫= shifted) l (snd (foldl step acc ks2)) ∧
                 num_ge (snd (foldl step acc ks2)) num_zero = true)).
  { induction ks2 as [|k ks2 IH2]; intros ks1 acc Hks Hacc.
    - rewrite app_nil_r in Hks. subst ks1. simpl. done.
    - cbn [foldl]. apply (IH2 (ks1 ++ [k])); [by rewrite <- app_assoc |].
      right. destruct (Hkid k) as (lk & dk & Hfk & Hmaxk & Hdk).
      { rewrite Hks, elem_of_app, elem_of_cons. auto. }
      unfold step at 1 2 3. rewrite Hfk, farthest_step_weight.
      rewrite bind_app. simpl. rewrite app_nil_r.
      destruct Hacc as [[-> ->]|(l & Hl & Hmax & Hd)].
      + simpl. rewrite Hdk. simpl. eauto.
      + destruct (num_ge _ (snd acc)) eqn:Hge; simpl.
        * exists lk. split_and!; [done | | done].
          apply last_max_app_r; [done |]. apply Forall_forall. intros p Hp.
          eapply num_ge_trans; [exact Hge |]. by eapply last_max_bound.
        * exists l. split_and!; [done | | done].
          apply last_max_app_l; [done |]. apply Forall_forall. intros p Hp.
          eapply num_ge_lt_trans; [| exact Hge]. by eapply last_max_bound. }
  destruct (Hfold ks [] (None, num_zero)) as [[? _]|(l & Hl & Hmax & Hd)];
    [done | by left | done |].
  exists l, (snd (foldl step (None, num_zero) ks)). split_and!; [| done | done].
  destruct (foldl step (None, num_zero) ks) as [node d]. simpl in *. by subst.
Qed.


End Exact.

(** ** Shapes and the store: subshapes, ancestors *)

Lemma subshape_trans s k t : subshape s k -> subshape k t -> subshape s t.
Proof.
  intros Hsk Hkt. induction Hkt as [|r ks k' Hin Hk IH]; [done |].
  by eapply subshape_kid.
Qed.

Lemma subshape_ids s t n : subshape s t -> n ∈ ids s -> n ∈ ids t.
Proof.
  intros Hst Hn. induction Hst as [|r ks k Hin Hk IH]; [done |].
  by eapply ids_kid.
Qed.

Lemma ids_subshape t n : n ∈ ids t -> exists s, subshape s t ∧ shape_root s = n.
Proof.
  induction t as [r ks IH] using shape_ind'. cbn [ids].
  intros [->|Hn]%elem_of_cons.
  - exists (Shape r ks). split; [constructor | done].
  - apply list_elem_of_bind in Hn as (k & Hn & Hk).
    rewrite Forall_forall in IH. destruct (IH k Hk Hn) as (s & Hs & Hroot).
    exists s. split; [by eapply subshape_kid | done].
Qed.

Lemma ids_root_or_kid r ks n :
  n ∈ ids (Shape r ks) -> n = r ∨ exists k, k ∈ ks ∧ n ∈ ids k.
Proof.
  cbn [ids]. intros [->|Hn]%elem_of_cons; [by left |].
  apply list_elem_of_bind in Hn as (k & Hn & Hk). eauto.
Qed.

Lemma represents_up h par t : represents h par t -> up_of h (shape_root t) = par.
Proof. destruct t. by intros (_ & _ & ? & _)%represents_unfold. Qed.

Lemma represents_children h par t :
  represents h par t -> children_of h (shape_root t) = map shape_root (shape_kids t).
Proof. destruct t. by intros (_ & ? & _ & _)%represents_unfold. Qed.

Lemma represents_kid h par r ks k :
  represents h par (Shape r ks) -> k ∈ ks -> represents h (Some r) k.
Proof.
  intros (_ & _ & _ & Hks)%represents_unfold Hk.
  rewrite Forall_forall in Hks. by apply Hks.
Qed.

(** A shape below a represented shape is represented; if it is not the
    whole shape, its root's parent is the root of the shape it is a kid
    of. *)
Lemma represents_subshape h par t s :
  represents h par t -> subshape s t ->
  exists par', represents h par' s ∧
    ((s = t ∧ par' = par) ∨
     (exists p, subshape p t ∧ s ∈ shape_kids p ∧ par' = Some (shape_root p))).
Proof.
  intros Ht Hst. revert par Ht.
  induction Hst as [|r ks k Hin Hk IH]; intros par Ht; [eauto |].
  pose proof (represents_kid _ _ _ _ _ Ht Hin) as Hkr.
  destruct (IH _ Hkr) as (par' & Hs & [[-> ->]|(p & Hp & Hsp & ->)]).
  - exists (Some r). split; [done |]. right. exists (Shape r ks).
    split_and!; [constructor | done | done].
  - exists (Some (shape_root p)). split; [done |]. right. exists p.
    split_and!; [by eapply subshape_kid | done | done].
Qed.

Lemma NoDup_ids_kids r ks :
  NoDup (ids (Shape r ks)) -> (r ∉ ks ≫= ids) ∧ NoDup (ks ≫= ids).
Proof. cbn [ids]. by intros [? ?]%NoDup_cons. Qed.

Lemma NoDup_bind_kid ks k : NoDup (ks ≫= ids) -> k ∈ ks -> NoDup (ids k).
Proof.
  induction ks as [|k' ks IH]; [by intros _ ?%elem_of_nil |].
  rewrite bind_cons. intros (Hk' & _ & Hks)%NoDup_app [->|Hk]%elem_of_cons; auto.
Qed.

Lemma NoDup_bind_same ks k1 k2 n :
  NoDup (ks ≫= ids) -> k1 ∈ ks -> k2 ∈ ks -> n ∈ ids k1 -> n ∈ ids k2 -> k1 = k2.
Proof.
  induction ks as [|k ks IH]; [by intros _ ?%elem_of_nil |].
  rewrite bind_cons. intros (_ & Hdisj & Hks)%NoDup_app.
  intros [->|H1]%elem_of_cons [->|H2]%elem_of_cons Hn1 Hn2; [done | | | by apply IH].
  - exfalso. apply (Hdisj n Hn1). apply list_elem_of_bind. eauto.
  - exfalso. apply (Hdisj n Hn2). apply list_elem_of_bind. eauto.
Qed.

Lemma NoDup_ids_kid r ks k : NoDup (ids (Shape r ks)) -> k ∈ ks -> NoDup (ids k).
Proof. intros [_ Hks]%NoDup_ids_kids. by apply NoDup_bind_kid. Qed.

Lemma NoDup_ids_root r ks k : NoDup (ids (Shape r ks)) -> k ∈ ks -> r ∉ ids k.
Proof.
  intros [Hr _]%NoDup_ids_kids Hk Hin. apply Hr. apply list_elem_of_bind. eauto.
Qed.

Lemma NoDup_subshape s t : NoDup (ids t) -> subshape s t -> NoDup (ids s).
Proof.
  intros Ht Hst. induction Hst as [|r ks k Hin Hk IH]; [done |].
  apply IH. by eapply NoDup_ids_kid.
Qed.

Lemma subshape_inv s r ks :
  subshape s (Shape r ks) -> s = Shape r ks ∨ exists k, k ∈ ks ∧ subshape s k.
Proof. inversion 1; subst; eauto. Qed.

(** In a shape without repeated nodes a node is the root of one shape. *)
Lemma subshape_unique t s1 s2 :
  NoDup (ids t) -> subshape s1 t -> subshape s2 t ->
  shape_root s1 = shape_root s2 -> s1 = s2.
Proof.
  revert s1 s2. induction t as [r ks IH] using shape_ind'. intros s1 s2 Hnd H1 H2 Hroot.
  apply subshape_inv in H1 as [->|(k1 & Hk1 & H1)];
    apply subshape_inv in H2 as [->|(k2 & Hk2 & H2)].
  - done.
  - exfalso. apply (NoDup_ids_root _ _ _ Hnd Hk2).
    simpl in Hroot. rewrite Hroot. eapply subshape_ids; [done | apply root_in_ids].
  - exfalso. apply (NoDup_ids_root _ _ _ Hnd Hk1).
    simpl in Hroot. rewrite <- Hroot. eapply subshape_ids; [done | apply root_in_ids].
  - assert (k1 = k2) as <-.
    { apply NoDup_ids_kids in Hnd as [_ Hnd].
      eapply (NoDup_bind_same ks k1 k2 (shape_root s1)); try done.
      - eapply subshape_ids; [done | apply root_in_ids].
      - rewrite Hroot. eapply subshape_ids; [done | apply root_in_ids]. }
    rewrite Forall_forall in IH. eapply IH; try done. by eapply NoDup_ids_kid.
Qed.

(** Every node of a represented shape has the root among its ancestors. *)
Lemma shape_ancestor h par t x :
  represents h par t -> x ∈ ids t -> ancestor_or_self h (shape_root t) x.
Proof.
  revert par. induction t as [r ks IH] using shape_ind'. intros par Ht.
  intros [->|(k & Hk & Hx)]%ids_root_or_kid; [apply rtc_refl |].
  rewrite Forall_forall in IH. pose proof (represents_kid _ _ _ _ _ Ht Hk) as Hkr.
  eapply rtc_r; [by eapply IH |]. by apply represents_up in Hkr.
Qed.

(** In a tree, the ancestors of a node are the roots of the shapes it
    lies in. *)
Lemma ancestor_shape h t x d :
  is_tree h t -> x ∈ ids t -> ancestor_or_self h d x ->
  exists s, subshape s t ∧ shape_root s = d ∧ x ∈ ids s.
Proof.
  intros [Ht Hnd] Hx Hanc. revert d Hanc. apply rtc_ind_r.
  - destruct (ids_subshape _ _ Hx) as (s & Hs & Hroot).
    exists s. split_and!; [done | done |]. rewrite <- Hroot. apply root_in_ids.
  - intros y z _ Hyz (s & Hs & <- & Hxs).
    destruct (represents_subshape _ _ _ _ Ht Hs) as (par' & Hrep & Hcase).
    apply represents_up in Hrep. unfold parent_step in Hyz. rewrite Hyz in Hrep.
    destruct Hcase as [[_ ->]|(p & Hp & Hsp & ->)]; [done |].
    injection Hrep as ->. exists p. split_and!; [done | done |].
    destruct p as [r ks]. by eapply ids_kid.
Qed.

(** ** C1: [get_common_ancestor] *)

(** The nodes [get_common_ancestor] adds when it stands at a node whose
    children hold the shapes [ks]: the nodes of every shape but the one
    whose root is [prev]. *)
Lemma nodes_under_shapes h fuel prev r ks :
  Forall (represents h (Some r)) ks ->
  (forall k, k ∈ ks -> shape_size k <= fuel) ->
  exists l, nodes_under fuel h prev (map shape_root ks) = Ok l ∧
    forall x, x ∈ l <-> exists k, k ∈ ks ∧ shape_root k ≠ prev ∧ x ∈ ids k.
Proof.
  induction ks as [|k ks IH]; intros Hks Hfuel.
  - exists []. split; [done |]. intros x. split; [by intros ?%elem_of_nil |].
    by intros (k & ?%elem_of_nil & _).
  - apply Forall_cons in Hks as [Hk Hks].
    destruct IH as (l & Hl & Hspec); [done | |].
    { intros k' Hk'. apply Hfuel. by right. }
    destruct (traverse_level_order h _ k fuel Hk) as [Htr Hperm].
    { apply Hfuel. by left. }
    cbn [nodes_under map]. rewrite Htr, Hl. simpl. eexists. split; [done |].
    intros x. rewrite elem_of_app, list_elem_of_filter, Hperm, Hspec.
    split.
    + intros [[Hne Hx]|(k' & Hk' & Hne & Hx)].
      * exists k. split_and!; [by left | done | done].
      * exists k'. split_and!; [by right | done | done].
    + intros (k' & [->|Hk']%elem_of_cons & Hne & Hx); [by left |].
      right. eauto.
Qed.

Lemma common_ancestor_loop_step fuel h targets nodes_bellow c prev l :
  nodes_under fuel h prev (children_of h c) = Ok l ->
  common_ancestor_loop (S fuel) h targets nodes_bellow (Some c) prev =
  if decide (targets ⊆ nodes_bellow ∪ list_to_set (l ++ [c])) then Ok (Some c)
  else common_ancestor_loop fuel h targets (nodes_bellow ∪ list_to_set (l ++ [c]))
         (up_of h c) c.
Proof. intros Hl. simpl. rewrite Hl. done. Qed.

(** The walk of [get_common_ancestor] from a node [a] of a represented
    shape [t]: if [t] holds all the targets, the walk stops inside [t], at
    the root of the smallest shape around [a] that holds them; otherwise
    it leaves [t] through its root, having gathered the nodes of [t]. *)
Lemma common_ancestor_climb h (targets : gset positive) t :
  forall par a fuel,
    represents h par t -> NoDup (ids t) -> a ∈ ids t -> 2 * shape_size t <= fuel ->
    (targets ⊆ list_to_set (ids t) ->
     exists s, subshape s t ∧ a ∈ ids s ∧ targets ⊆ list_to_set (ids s) ∧
       (forall k, k ∈ shape_kids s -> a ∈ ids k -> ¬ targets ⊆ list_to_set (ids k)) ∧
       common_ancestor_loop fuel h targets {[a]} (Some a) a = Ok (Some (shape_root s))) ∧
    (¬ targets ⊆ list_to_set (ids t) ->
     exists j, 1 <= j <= shape_size t ∧
       common_ancestor_loop fuel h targets {[a]} (Some a) a =
       common_ancestor_loop (fuel - j) h targets (list_to_set (ids t)) par (shape_root t)).
Proof.
  induction t as [r ks IH] using shape_ind'. intros par a fuel Ht Hnd Ha Hfuel.
  pose proof (shape_size_kids r ks) as Hsize.
  assert (Hkfuel : forall f k, shape_size (Shape r ks) <= f -> k ∈ ks -> shape_size k <= f).
  { intros f k Hf Hk. pose proof (shape_size_kid r ks k Hk). lia. }
  pose proof Ht as (_ & Hcs & Hup & Hks)%represents_unfold.
  apply ids_root_or_kid in Ha as [->|(k & Hk & Ha)].
  - (* the walk starts at the root of [t] *)
    destruct fuel as [|fuel]; [simpl in *; lia |].
    destruct (nodes_under_shapes h fuel r r ks Hks) as (l & Hl & Hspec).
    { intros k Hk. apply Hkfuel; [lia | done]. }
    rewrite <- Hcs in Hl.
    assert (Hset : {[r]} ∪ list_to_set (l ++ [r]) =@{gset positive}
                   list_to_set (ids (Shape r ks))).
    { apply set_eq. intros x. cbn [ids].
      rewrite elem_of_union, !elem_of_list_to_set, elem_of_app, !elem_of_cons,
        elem_of_nil, elem_of_singleton, list_elem_of_bind, Hspec.
      split; [intros [?|[(?&?&?&?)|[?|[]]]]; eauto |]. intros [->|(k & Hx & Hk)]; [by left |].
      right. left. exists k. split_and!; [done | | done].
      intros Heq. apply (NoDup_ids_root _ _ _ Hnd Hk). rewrite <- Heq.
      apply root_in_ids. }
    rewrite (common_ancestor_loop_step _ _ _ _ _ _ _ Hl), Hset. split.
    + intros Hsub. rewrite decide_True by done. exists (Shape r ks).
      split_and!; [constructor | apply (root_in_ids (Shape r ks)) | done | | done].
      intros k Hk Hin. by apply (NoDup_ids_root _ _ _ Hnd Hk) in Hin.
    + intros Hsub. rewrite decide_False by done. exists 1.
      split; [simpl; lia |]. rewrite Hup. by replace (S fuel - 1) with fuel by lia.
  - (* the walk starts below the kid [k] *)
    rewrite Forall_forall in IH.
    pose proof (represents_kid _ _ _ _ _ Ht Hk) as Hkr.
    pose proof (NoDup_ids_kid _ _ _ Hnd Hk) as Hknd.
    pose proof (shape_size_kid r ks k Hk) as Hksize.
    destruct (IH k Hk (Some r) a fuel Hkr Hknd Ha) as [IHin IHout]; [lia |].
    assert (Hksub : list_to_set (ids k) ⊆@{gset positive} list_to_set (ids (Shape r ks))).
    { intros x. rewrite !elem_of_list_to_set. by apply ids_kid. }
    destruct (decide (targets ⊆ list_to_set (ids k))) as [Hin|Hout].
    { split; [| intros Hsub; exfalso; apply Hsub; set_solver].
      intros _. destruct (IHin Hin) as (s & Hs & Has & Hts & Hmin & Hres).
      exists s. split_and!; [by eapply subshape_kid | done | done | done | done]. }
    destruct (IHout Hout) as (j & Hj & Hres). rewrite Hres.
    destruct (fuel - j) as [|fuel'] eqn:Hfj; [lia |].
    destruct (nodes_under_shapes h fuel' (shape_root k) r ks Hks) as (l & Hl & Hspec).
    { intros k' Hk'. apply Hkfuel; [lia | done]. }
    rewrite <- Hcs in Hl.
    assert (Hset : list_to_set (ids k) ∪ list_to_set (l ++ [r]) =@{gset positive}
                   list_to_set (ids (Shape r ks))).
    { apply set_eq. intros x. cbn [ids].
      rewrite elem_of_union, !elem_of_list_to_set, elem_of_app, !elem_of_cons,
        elem_of_nil, list_elem_of_bind, Hspec.
      split; [intros [?|[(?&?&?&?)|[?|[]]]]; eauto |]. intros [->|(k' & Hx & Hk')]; [by right; right; left |].
      destruct (decide (shape_root k' = shape_root k)) as [Heq|Hne].
      - left. replace k with k'; [done |].
        apply NoDup_ids_kids in Hnd as [_ Hnd].
        eapply (NoDup_bind_same ks k' k (shape_root k')); try done;
          [apply root_in_ids | rewrite Heq; apply root_in_ids].
      - right. left. eauto. }
    rewrite (common_ancestor_loop_step _ _ _ _ _ _ _ Hl), Hset. split.
    + intros Hsub. rewrite decide_True by done. exists (Shape r ks).
      split_and!; [constructor | by eapply ids_kid | done | | done].
      intros k' Hk' Hak'. replace k' with k; [done |].
      apply NoDup_ids_kids in Hnd as [_ Hnd].
      by eapply (NoDup_bind_same ks k k' a).
    + intros Hsub. rewrite decide_False by done. exists (S j).
      split; [simpl in *; lia |]. rewrite Hup.
      by replace (fuel - S j) with fuel' by lia.
Qed.

(** In a tree, [get_common_ancestor] called on [a] with the target [b]
    returns the root of the smallest shape that holds both. *)
Lemma common_ancestor_shape h t a b fuel :
  is_tree h t -> a ∈ ids t -> b ∈ ids t -> 2 * shape_size t <= fuel ->
  exists s, subshape s t ∧
    get_common_ancestor fuel h a [b] = Ok (Some (shape_root s)) ∧
    a ∈ ids s ∧ b ∈ ids s ∧
    forall k, k ∈ shape_kids s -> ¬ (a ∈ ids k ∧ b ∈ ids k).
Proof.
  intros [Ht Hnd] Ha Hb Hfuel.
  destruct (common_ancestor_climb h ({[a]} ∪ list_to_set [b]) t None a fuel Ht Hnd Ha Hfuel)
    as [Hin _].
  destruct Hin as (s & Hs & Has & Hts & Hmin & Hres).
  { intros x. rewrite elem_of_union, elem_of_singleton, !elem_of_list_to_set,
      list_elem_of_singleton. by intros [->| ->]. }
  exists s. split_and!; [done | done | done | |].
  - specialize (Hts b). rewrite elem_of_list_to_set in Hts. apply Hts. set_solver.
  - intros k Hk [Hak Hbk]. apply (Hmin k Hk Hak).
    intros x. rewrite elem_of_union, elem_of_singleton, !elem_of_list_to_set,
      list_elem_of_singleton. by intros [->| ->].
Qed.

(** In a tree, [get_common_ancestor] returns a node that is an ancestor
    of both arguments, or one of them, and below which no other node is. *)
Lemma common_ancestor_lowest h t a b fuel :
  is_tree h t -> a ∈ ids t -> b ∈ ids t -> 2 * shape_size t <= fuel ->
  exists r, get_common_ancestor fuel h a [b] = Ok (Some r) ∧
    ancestor_or_self h r a ∧ ancestor_or_self h r b ∧
    forall d, ancestor_or_self h r d -> d ≠ r ->
              ¬ (ancestor_or_self h d a ∧ ancestor_or_self h d b).
Proof.
  intros Htree Ha Hb Hfuel. pose proof Htree as [Ht Hnd].
  destruct (common_ancestor_shape h t a b fuel Htree Ha Hb Hfuel)
    as (s & Hs & Hres & Has & Hbs & Hmin).
  destruct (represents_subshape _ _ _ _ Ht Hs) as (par' & Hrep & _).
  exists (shape_root s). split_and!; [done | by eapply shape_ancestor.. |].
  intros d Hrd Hne [Hda Hdb].
  destruct (ancestor_shape h t a d Htree Ha Hda) as (sa & Hsa & Hroota & Hasa).
  destruct (ancestor_shape h t b d Htree Hb Hdb) as (sb & Hsb & Hrootb & Hbsb).
  assert (sb = sa) as -> by (eapply subshape_unique; [done.. | congruence]).
  assert (Hd : d ∈ ids t).
  { eapply subshape_ids; [exact Hsa |]. rewrite <- Hroota. apply root_in_ids. }
  destruct (ancestor_shape h t d (shape_root s) Htree Hd Hrd) as (s' & Hs' & Hroot' & Hds').
  assert (s' = s) as -> by by eapply subshape_unique.
  destruct s as [r ks]. apply ids_root_or_kid in Hds' as [->|(k & Hk & Hdk)]; [done |].
  destruct (ids_subshape _ _ Hdk) as (sd & Hsd & Hrootd).
  assert (sd = sa) as ->.
  { eapply subshape_unique; [done | | done | congruence].
    eapply subshape_trans; [| exact Hs]. by eapply subshape_kid. }
  apply (Hmin k Hk). split; by eapply subshape_ids.
Qed.

(** C1.  For every tree and nodes [a], [b] of it, [get_common_ancestor]
    called on [a] with [b] returns a node [r] such that [r] is [a] or an
    ancestor of [a], [r] is [b] or an ancestor of [b], and no node below
    [r] is both. *)
Theorem get_common_ancestor_is_lowest h t a b fuel :
  is_tree h t -> a ∈ ids t -> b ∈ ids t -> 2 * shape_size t <= fuel ->
  exists r, get_common_ancestor fuel h a [b] = Ok (Some r) ∧
    ancestor_or_self h r a ∧ ancestor_or_self h r b ∧
    forall d, ancestor_or_self h r d -> d ≠ r ->
              ¬ (ancestor_or_self h d a ∧ ancestor_or_self h d b).
Proof. apply common_ancestor_lowest. Qed.

(** ** C2: [get_distance] *)

Lemma climbs_snoc h r r' x path :
  climbs h r' x path -> (forall y, y ∈ path -> y ≠ r) -> r' ≠ r ->
  up_of h r' = Some r -> climbs h r x (path ++ [r']).
Proof.
  intros Hc Hpath Hne Hup. induction Hc as [|x p l Hx Hxp Hc IH]; simpl.
  - eapply climbs_up; [done | done | constructor].
  - eapply climbs_up; [| done |].
    + apply Hpath. by left.
    + apply IH. intros y Hy. apply Hpath. by right.
Qed.

(** From a node of a represented shape the parents lead to its root,
    through nodes of the shape. *)
Lemma climbs_shape h par t x :
  represents h par t -> NoDup (ids t) -> x ∈ ids t ->
  exists path, climbs h (shape_root t) x path ∧ length path < shape_size t ∧
    forall y, y ∈ path -> y ∈ ids t.
Proof.
  revert par. induction t as [r ks IH] using shape_ind'. intros par Ht Hnd.
  intros [->|(k & Hk & Hx)]%ids_root_or_kid.
  - exists []. split_and!; [constructor | simpl; lia | by intros y ?%elem_of_nil].
  - rewrite Forall_forall in IH. pose proof (represents_kid _ _ _ _ _ Ht Hk) as Hkr.
    destruct (IH k Hk (Some r) Hkr) as (path & Hc & Hlen & Hin);
      [by eapply NoDup_ids_kid | done |].
    pose proof (NoDup_ids_root _ _ _ Hnd Hk) as Hr.
    exists (path ++ [shape_root k]). split_and!.
    + apply climbs_snoc; [done | | | by apply represents_up in Hkr].
      * intros y Hy ->. by apply Hr, Hin.
      * intros Heq. apply Hr. simpl in Heq. rewrite <- Heq. apply root_in_ids.
    + rewrite length_app. pose proof (shape_size_kid r ks k Hk). simpl in *. lia.
    + intros y [Hy| ->%list_elem_of_singleton]%elem_of_app.
      * eapply ids_kid; [done | by apply Hin].
      * eapply ids_kid; [done | apply root_in_ids].
Qed.

(** The [while] loop of [get_distance] adds the [dist] of the nodes on
    the way up, in that order. *)
Lemma distance_loop_climbs h r x path fuel (acc : D) :
  climbs h r x path -> length path <= fuel ->
  distance_loop fuel h r (Some x) acc =
  Ok (foldl (fun acc y => num_add acc (dist_of h y)) acc path).
Proof.
  intros Hc. revert fuel acc. induction Hc as [|x p l Hx Hxp Hc IH]; intros fuel acc Hlen.
  - destruct fuel; simpl; by rewrite decide_True.
  - destruct fuel as [|fuel]; [simpl in Hlen; lia |]. simpl.
    rewrite decide_False by congruence. rewrite Hxp. apply IH. simpl in Hlen. lia.
Qed.

Lemma foldl_right_commute {A B} (g : A -> B -> A) (a : A) (x : B) (l : list B) :
  (forall a x y, g (g a x) y = g (g a y) x) ->
  foldl g (g a x) l = g (foldl g a l) x.
Proof.
  intros Hg. revert a. induction l as [|y l IH]; intros a; simpl; [done |].
  by rewrite <- IH, Hg.
Qed.

Lemma foldl_swap {A B} (g : A -> B -> A) (a : A) (l1 l2 : list B) :
  (forall a x y, g (g a x) y = g (g a y) x) ->
  foldl g (foldl g a l1) l2 = foldl g (foldl g a l2) l1.
Proof.
  intros Hg. revert a. induction l1 as [|x l1 IH]; intros a; simpl; [done |].
  by rewrite IH, foldl_right_commute.
Qed.

Lemma ancestors_comparable h a x y :
  ancestor_or_self h x a -> ancestor_or_self h y a ->
  ancestor_or_self h x y ∨ ancestor_or_self h y x.
Proof.
  unfold ancestor_or_self. intros Hx. revert y.
  induction Hx as [a|a p x Hap Hpx IH]; intros y Hy; [by right |].
  destruct Hy as [|a p' y Hap' Hpy]; [left; by eapply rtc_l |].
  unfold parent_step in *. assert (p' = p) as -> by congruence. by apply IH.
Qed.

(** In a tree, [get_distance] returns, and adds the [dist] values of the
    two ways up to the common ancestor: first those above [a], then those
    above [b]. *)
Lemma get_distance_paths h t a b fuel :
  is_tree h t -> a ∈ ids t -> b ∈ ids t -> 2 * shape_size t <= fuel ->
  exists r pa pb,
    get_common_ancestor fuel h a [b] = Ok (Some r) ∧
    get_common_ancestor fuel h b [a] = Ok (Some r) ∧
    climbs h r a pa ∧ climbs h r b pb ∧
    get_distance fuel h a b =
      Ok (foldl (fun acc y => num_add acc (dist_of h y))
            (foldl (fun acc y => num_add acc (dist_of h y)) num_zero pa) pb) ∧
    get_distance fuel h b a =
      Ok (foldl (fun acc y => num_add acc (dist_of h y))
            (foldl (fun acc y => num_add acc (dist_of h y)) num_zero pb) pa).
Proof.
  intros Htree Ha Hb Hfuel. pose proof Htree as [Ht Hnd].
  destruct (common_ancestor_shape h t a b fuel Htree Ha Hb Hfuel)
    as (s & Hs & Hres & Has & Hbs & _).
  destruct (common_ancestor_lowest h t a b fuel Htree Ha Hb Hfuel)
    as (r & Hr & Hra & Hrb & Hmin).
  destruct (common_ancestor_lowest h t b a fuel Htree Hb Ha Hfuel)
    as (r' & Hr' & Hrb' & Hra' & Hmin').
  assert (r' = r) as ->.
  { destruct (decide (r' = r)) as [|Hne]; [done |]. exfalso.
    destruct (ancestors_comparable h a r r' Hra Hra') as [Hlt|Hlt].
    - by apply (Hmin r' Hlt).
    - apply (Hmin' r Hlt); [congruence |]. done. }
  assert (r = shape_root s) as -> by congruence.
  destruct (represents_subshape _ _ _ _ Ht Hs) as (par' & Hrep & _).
  pose proof (NoDup_subshape _ _ Hnd Hs) as Hsnd.
  destruct (climbs_shape h par' s a Hrep Hsnd Has) as (pa & Hpa & Hla & _).
  destruct (climbs_shape h par' s b Hrep Hsnd Hbs) as (pb & Hpb & Hlb & _).
  assert (Hsize : shape_size s <= shape_size t).
  { rewrite <- !length_ids. apply submseteq_length, NoDup_submseteq; [done |].
    intros x. by apply subshape_ids. }
  exists (shape_root s), pa, pb. split_and!; try done.
  - unfold get_distance. rewrite Hr. simpl.
    rewrite (distance_loop_climbs _ _ _ _ _ _ Hpa) by lia. simpl.
    by rewrite (distance_loop_climbs _ _ _ _ _ _ Hpb) by lia.
  - unfold get_distance. rewrite Hr'. simpl.
    rewrite (distance_loop_climbs _ _ _ _ _ _ Hpb) by lia. simpl.
    by rewrite (distance_loop_climbs _ _ _ _ _ _ Hpa) by lia.
Qed.


(** ** Rerooting: [set_outgroup] *)

Lemma links_ok_defect h : links_ok h <-> forall p c, link_defect h p c = 0%Z.
Proof.
  unfold links_ok. rewrite links_except_spec. unfold link_defect, ind. split.
  - intros (H1 & H2 & _ & _) p c. case_decide as Hup.
    + rewrite (H2 _ _ Hup). lia.
    + destruct (occurrences c (children_of h p)) eqn:Ho; [lia |].
      exfalso. apply Hup, H1; [set_solver |]. apply occurrences_pos. lia.
  - intros Hd. split_and!.
    + intros n c _ Hc. specialize (Hd n c). apply occurrences_pos in Hc.
      case_decide; [done | lia].
    + intros n p Hup. specialize (Hd p n). rewrite decide_True in Hd by done. lia.
    + set_solver.
    + set_solver.
Qed.

(** *** Reads after single writes *)

Lemma children_of_set_children h p l x :
  is_Some (h !! p) ->
  children_of (alter (set_children l) p h) x = if decide (x = p) then l else children_of h x.
Proof.
  intros [o Ho]. case_decide as Hx.
  - subst. by rewrite children_of_alter_eq, Ho.
  - by rewrite children_of_alter_ne.
Qed.

Lemma children_of_append h p (y : positive) x :
  is_Some (h !! p) ->
  children_of (alter (fun o => set_children (children o ++ [y]) o) p h) x =
  if decide (x = p) then children_of h p ++ [y] else children_of h x.
Proof.
  intros [o Ho]. case_decide as Hx.
  - subst. rewrite children_of_alter_eq, Ho. unfold children_of. by rewrite Ho.
  - by rewrite children_of_alter_ne.
Qed.

Lemma up_of_set_up h c0 u x :
  is_Some (h !! c0) ->
  up_of (alter (set_up u) c0 h) x = if decide (x = c0) then u else up_of h x.
Proof.
  intros [o Ho]. case_decide as Hx.
  - subst. by rewrite up_of_alter_eq, Ho.
  - by rewrite up_of_alter_ne.
Qed.

Lemma dist_of_keep h f x y :
  (forall o, dist (f o) = dist o) -> dist_of (alter f x h) y = dist_of h y.
Proof.
  intros Hf. unfold dist_of. rewrite lookup_alter.
  case_decide; [subst; destruct (h !! y); simpl; auto | done].
Qed.

Lemma dist_of_alter_ne h f x y : x ≠ y -> dist_of (alter f x h) y = dist_of h y.
Proof. intros. unfold dist_of. by rewrite lookup_alter_ne. Qed.

Lemma dist_of_set_dist h x d :
  is_Some (h !! x) -> dist_of (alter (set_dist d) x h) x = d.
Proof. intros [o Ho]. unfold dist_of. by rewrite lookup_alter_eq, Ho. Qed.

(** *** The effect of single writes on the defect *)

Lemma defect_keep h f x q c :
  (forall o, children (f o) = children o) -> (forall o, up (f o) = up o) ->
  link_defect (alter f x h) q c = link_defect h q c.
Proof. intros Hc Hu. unfold link_defect. by rewrite children_of_keep, up_of_keep. Qed.

Lemma defect_append h p (y : positive) q c :
  is_Some (h !! p) ->
  link_defect (alter (fun o => set_children (children o ++ [y]) o) p h) q c =
  (link_defect h q c + ind (q = p ∧ c = y))%Z.
Proof.
  intros Hp. unfold link_defect. rewrite children_of_append, up_of_keep by done.
  destruct (decide (q = p)) as [-> | Hqp].
  - rewrite occurrences_app, occurrences_cons, occurrences_nil.
    ind_cases + c.
  - ind_cases + Hqp.
Qed.

Lemma defect_remove h p (y : positive) l q c :
  list_remove y (children_of h p) = Ok l ->
  link_defect (alter (set_children l) p h) q c =
  (link_defect h q c - ind (q = p ∧ c = y))%Z.
Proof.
  intros Hl. assert (Hp : is_Some (h !! p)).
  { eapply children_of_elem_allocated. by eapply list_remove_Ok_elem_of. }
  unfold link_defect. rewrite children_of_set_children, up_of_keep by done.
  destruct (decide (q = p)) as [-> | Hqp].
  - rewrite (list_remove_occurrences _ _ _ c Hl).
    ind_cases + c.
  - ind_cases + Hqp.
Qed.

Lemma defect_set_children h p l q c :
  is_Some (h !! p) ->
  link_defect (alter (set_children l) p h) q c =
  (link_defect h q c +
   ind (q = p) * (Z.of_nat (occurrences c l) - Z.of_nat (occurrences c (children_of h p))))%Z.
Proof.
  intros Hp. unfold link_defect. rewrite children_of_set_children, up_of_keep by done.
  unfold ind. case_decide; subst; case_decide; try done; lia.
Qed.

Lemma defect_set_up h c0 u q c :
  is_Some (h !! c0) ->
  link_defect (alter (set_up u) c0 h) q c =
  (link_defect h q c + ind (c = c0) * (ind (up_of h c0 = Some q) - ind (u = Some q)))%Z.
Proof.
  intros Hc. unfold link_defect. rewrite children_of_keep, up_of_set_up by done.
  unfold ind. repeat case_decide; subst; try done; lia.
Qed.

Lemma defect_new h o q c :
  children o = [] -> up o = None ->
  link_defect (<[new_ref h := o]> h) q c = link_defect h q c.
Proof.
  intros Hc Hu. unfold link_defect.
  assert (Hch : forall x, children_of (<[new_ref h := o]> h) x = children_of h x).
  { intros x. unfold children_of. rewrite lookup_insert. case_decide; [subst | done].
    by rewrite new_ref_fresh. }
  assert (Hup : forall x, up_of (<[new_ref h := o]> h) x = up_of h x).
  { intros x. unfold up_of. rewrite lookup_insert. case_decide; [subst | done].
    by rewrite new_ref_fresh. }
  by rewrite Hch, Hup.
Qed.

Lemma defect_sort h p q c :
  link_defect (alter (fun o => set_children (merge_sort Pos.le (children o)) o) p h) q c =
  link_defect h q c.
Proof.
  unfold link_defect. rewrite up_of_keep by done. do 2 f_equal.
  destruct (decide (q = p)) as [->|Hne]; [| by rewrite children_of_alter_ne].
  rewrite children_of_alter_eq. unfold children_of, occurrences.
  destruct (h !! p); [| done]. simpl. by rewrite merge_sort_Permutation.
Qed.


(** *** Paths to an ancestor *)

Lemma climbs_self h r l : climbs h r r l -> l = [].
Proof. by inversion 1. Qed.

Lemma climbs_frame h h' r x path :
  climbs h r x path -> (forall y, y ∈ path -> up_of h' y = up_of h y) ->
  climbs h' r x path.
Proof.
  induction 1 as [| x p l Hx Hup _ IH]; intros Hsame; [constructor |].
  eapply climbs_up; [done | | apply IH; set_solver].
  rewrite Hsame; [done | set_solver].
Qed.

Lemma climbs_not_root h r x path y : climbs h r x path -> y ∈ path -> y ≠ r.
Proof. induction 1; set_solver. Qed.

Lemma climbs_head h r x path : climbs h r x path -> x ≠ r -> exists l, path = x :: l.
Proof. destruct 1; [done | eauto]. Qed.

Lemma climbs_allocated h r x path y : climbs h r x path -> y ∈ path -> is_Some (h !! y).
Proof.
  induction 1 as [| x p l Hx Hup _ IH]; [set_solver |].
  rewrite elem_of_cons. intros [-> | Hy]; [by eapply up_of_Some_allocated | auto].
Qed.

Lemma climbs_app h r x l1 y l2 :
  climbs h r x (l1 ++ y :: l2) -> climbs h r y (y :: l2).
Proof.
  revert x. induction l1 as [| z l1 IH]; intros x Hc; simpl in Hc.
  - inversion Hc; subst. by eapply climbs_up.
  - inversion Hc; subst. eauto.
Qed.

Lemma climbs_det h r x l1 l2 : climbs h r x l1 -> climbs h r x l2 -> l1 = l2.
Proof.
  intros Hc. revert l2. induction Hc as [| x p l Hx Hup _ IH]; intros l2 Hc2.
  - by apply climbs_self in Hc2.
  - inversion Hc2; subst; [done |]. f_equal. apply IH. congruence.
Qed.

Lemma climbs_length_head h r x y l1 l2 :
  climbs h r x l1 -> climbs h r y (y :: l2) -> y ∈ l1 -> length l2 < length l1.
Proof.
  intros Hc Hy Hin. apply list_elem_of_split in Hin as (la & lb & ->).
  apply climbs_app in Hc. pose proof (climbs_det _ _ _ _ _ Hy Hc) as [= ->].
  rewrite length_app. simpl. lia.
Qed.

Lemma climbs_NoDup h r x path : climbs h r x path -> NoDup path.
Proof.
  induction 1 as [| x p l Hx Hup Hc IH]; constructor; [| done].
  intros Hin. assert (Hx' : climbs h r x (x :: l)) by by eapply climbs_up.
  pose proof (climbs_length_head _ _ _ _ _ _ Hc Hx' Hin). lia.
Qed.

Lemma climbs_last_up h r x path n :
  climbs h r x path -> last path = Some n -> up_of h n = Some r.
Proof.
  induction 1 as [| x p l Hx Hup Hc IH]; [done |].
  destruct l as [| z l].
  - intros [= <-]. inversion Hc; by subst.
  - intros Hl. apply IH. by rewrite last_cons_cons in Hl.
Qed.

Lemma branch_of_climbs fuel h self x n :
  branch_of fuel h self x = Ok n -> x ≠ self ->
  exists path, climbs h self x path ∧ last path = Some n.
Proof.
  revert x. induction fuel as [| fuel IH]; intros x; simpl;
    destruct (up_of h x) as [p |] eqn:Hup; try done;
    case_decide as Hp; try done.
  - intros [= <-] Hx. exists [x]. split; [| done]. subst.
    eapply climbs_up; [done | done | constructor].
  - intros [= <-] Hx. exists [x]. split; [| done]. subst.
    eapply climbs_up; [done | done | constructor].
  - intros Hb Hx. destruct (IH _ Hb Hp) as (path & Hc & Hl).
    exists (x :: path). split; [by eapply climbs_up |].
    destruct path; [done | by rewrite last_cons_cons].
Qed.


(** *** The parent-child swapping loop *)

Lemma swap_loop_exit fuel h self P F (buf : D) :
  swap_loop fuel h self P (Some self) F buf = Ok (h, P, F, buf).
Proof. destruct fuel; simpl; by rewrite decide_True. Qed.

Lemma swap_loop_step fuel h self P hj F (buf : D) :
  hj ≠ self ->
  swap_loop (S fuel) h self P (Some hj) F buf =
  (let h := alter (fun o => set_children (children o ++ [hj]) o) P h in
   l ← list_remove P (children_of h hj);
   let h := alter (set_children l) hj h in
   let buffered_dist2 := dist_of h hj in
   let h := alter (set_dist buf) hj h in
   let h := alter (set_up F) P h in
   swap_loop fuel h self hj (up_of h hj) (Some P) buffered_dist2).
Proof. intros Hne. simpl. rewrite decide_False by congruence. done. Qed.

Lemma swap_loop_spec fuel : forall rest h self P F (buf : D) h' P' F' buf',
  climbs h self P (P :: rest) ->
  swap_loop fuel h self P (up_of h P) F buf = Ok (h', P', F', buf') ->
  last (P :: rest) = Some P' ∧
  up_of h' P' = Some self ∧
  (forall q c, link_defect h' q c =
     (link_defect h q c + ind (F' = Some q ∧ c = P') - ind (F = Some q ∧ c = P))%Z) ∧
  (P' ≠ P -> up_of h' P = F) ∧
  (P' = P -> F' = F) ∧
  (forall u, u ∉ P :: rest ->
     up_of h' u = up_of h u ∧ children_of h' u = children_of h u ∧
     dist_of h' u = dist_of h u) ∧
  (forall u, is_Some (h' !! u) <-> is_Some (h !! u)) ∧
  (forall x, x ∈ children_of h P -> x ∈ children_of h' P).
Proof.
  induction fuel as [| fuel IH]; intros rest h self P F buf h' P' F' buf' Hc Hloop.
  all: pose proof (climbs_NoDup _ _ _ _ Hc) as Hnd.
  all: inversion Hc as [| ? hj l HP Hup Hc']; subst; rewrite Hup in Hloop.
  all: destruct (decide (hj = self)) as [-> | Hhj].
  all: try (rewrite swap_loop_exit in Hloop; injection Hloop as <- <- <- <-;
            apply climbs_self in Hc' as ->;
            split_and!; [done | done | intros; lia | done | done | done | done | done]).
  { simpl in Hloop. by rewrite decide_False in Hloop by congruence. }
  rewrite swap_loop_step in Hloop by done. cbn zeta in Hloop.
  destruct (climbs_head _ _ _ _ Hc' Hhj) as [rest' ->].
  apply NoDup_cons in Hnd as [HPnot Hnd].
  assert (HPhj : P ≠ hj) by set_solver + HPnot.
  assert (HaP : is_Some (h !! P)) by by eapply up_of_Some_allocated.
  assert (Hahj : is_Some (h !! hj)).
  { eapply climbs_allocated; [exact Hc' | apply list_elem_of_here]. }
  destruct (list_remove P _) as [l | |] eqn:Hrem; try done. simpl in Hloop.
  apply (IH rest') in Hloop as (Hlast & Hup' & Hdef & Hold & _ & Hframe & Halloc & _).
  - split_and!.
    + done.
    + done.
    + intros q c. rewrite Hdef.
      rewrite defect_set_up by by rewrite !allocated_alter.
      rewrite defect_keep by done.
      rewrite (defect_remove _ _ _ _ _ _ Hrem).
      rewrite defect_append by done.
      rewrite up_of_keep by done. rewrite up_of_keep by done. rewrite up_of_keep by done.
      rewrite Hup. ind_cases + HPhj.
    + intros _. destruct (Hframe P) as (-> & _); [done |].
      rewrite up_of_alter_eq. rewrite !lookup_alter_ne by done.
      rewrite lookup_alter_eq. by destruct HaP as [o ->].
    + intros ->. exfalso. apply HPnot.
      by apply last_Some_elem_of in Hlast.
    + intros u Hu. apply not_elem_of_cons in Hu as [HuP Hu].
      destruct (Hframe u) as (-> & -> & ->); [done |].
      assert (u ≠ hj) by set_solver + Hu.
      rewrite !up_of_alter_ne, !children_of_alter_ne, !dist_of_alter_ne by done. done.
    + intros u. rewrite Halloc. by rewrite !allocated_alter.
    + intros x Hx. destruct (Hframe P) as (_ & -> & _); [done |].
      rewrite !children_of_keep by done. rewrite children_of_alter_ne by done.
      rewrite children_of_append, decide_True by done.
      apply elem_of_app. by left.
  - eapply climbs_frame; [exact Hc' |].
    intros y Hy. assert (y ≠ P) by set_solver + Hy HPnot.
    rewrite up_of_alter_ne by done. by rewrite !up_of_keep.
Qed.


(** *** The down branch connector *)

Lemma children_of_fresh h o n :
  children o = [] -> children_of (<[new_ref h := o]> h) n = children_of h n.
Proof.
  intros Ho. unfold children_of. rewrite lookup_insert. case_decide; [subst | done].
  by rewrite new_ref_fresh.
Qed.

Lemma up_of_fresh h o n :
  up o = None -> up_of (<[new_ref h := o]> h) n = up_of h n.
Proof.
  intros Ho. unfold up_of. rewrite lookup_insert. case_decide; [subst | done].
  by rewrite new_ref_fresh.
Qed.

Lemma dist_of_fresh h o n :
  dist o = num_zero -> dist_of (<[new_ref h := o]> h) n = dist_of h n.
Proof.
  intros Ho. unfold dist_of. rewrite lookup_insert. case_decide; [subst | done].
  by rewrite new_ref_fresh.
Qed.

Lemma move_children_spec cs : forall h self c,
  c ≠ self -> c ∉ cs -> is_Some (h !! c) -> is_Some (h !! self) -> NoDup cs ->
  up_of h self ≠ Some self -> children_of h self = cs ->
  (forall ch, ch ∈ cs -> up_of h ch = Some self) ->
  exists h', move_children h self c cs = Ok h' ∧
    (forall q x, link_defect h' q x = link_defect h q x) ∧
    children_of h' self = [] ∧
    (forall u, u ∉ cs -> up_of h' u = up_of h u) ∧
    (forall u, u ≠ self -> u ≠ c -> children_of h' u = children_of h u) ∧
    (forall u, dist_of h' u = dist_of h u) ∧
    (forall u, is_Some (h' !! u) <-> is_Some (h !! u)).
Proof.
  induction cs as [| ch cs IH]; intros h self c Hcs Hc Hac Has Hnd Hself Hch Hup.
  { exists h. by split_and!. }
  apply NoDup_cons in Hnd as [Hchn Hnd]. apply not_elem_of_cons in Hc as [Hcch Hc].
  assert (Hach : is_Some (h !! ch)).
  { eapply up_of_Some_allocated, Hup. apply list_elem_of_here. }
  assert (Hchs : ch ≠ self).
  { intros ->. apply Hself, Hup. apply list_elem_of_here. }
  simpl. rewrite children_of_keep by done.
  rewrite children_of_alter_ne by done. rewrite Hch. simpl.
  rewrite decide_True by done. simpl.
  destruct (IH (alter (set_children cs) self
                 (alter (set_up (Some c)) ch
                    (alter (fun o => set_children (children o ++ [ch]) o) c h)))
              self c) as (h' & Hmv & Hdef & Hnil & Hfu & Hfc & Hfd & Hal); try done.
  - by rewrite !allocated_alter.
  - by rewrite !allocated_alter.
  - rewrite up_of_keep by done. rewrite up_of_alter_ne by done. by rewrite up_of_keep.
  - rewrite children_of_set_children, decide_True by (by rewrite ?allocated_alter). done.
  - intros x Hx. rewrite up_of_keep by done.
    rewrite up_of_alter_ne by set_solver + Hx Hchn. rewrite up_of_keep by done.
    apply Hup. by apply list_elem_of_further.
  - exists h'. split_and!; try done.
    + intros q x. rewrite Hdef.
      rewrite defect_set_children by by rewrite !allocated_alter.
      rewrite children_of_keep by done. rewrite children_of_alter_ne by done.
      rewrite defect_set_up by by rewrite !allocated_alter.
      rewrite up_of_keep by done.
      rewrite defect_append by done.
      rewrite Hch, (Hup ch) by apply list_elem_of_here.
      rewrite occurrences_cons. ind_cases + Hcs Hchs Hcch.
    + intros u Hu. apply not_elem_of_cons in Hu as [Huch Hu]. rewrite Hfu by done.
      rewrite up_of_keep by done. rewrite up_of_alter_ne by done.
      by rewrite up_of_keep.
    + intros u Hus Huc. rewrite Hfc by done.
      rewrite children_of_alter_ne by done. rewrite children_of_keep by done.
      by rewrite children_of_alter_ne.
    + intros u. rewrite Hfd. by rewrite !dist_of_keep.
    + intros u. rewrite Hal. by rewrite !allocated_alter.
Qed.


Lemma children_of_set_children_eq h p l :
  l = [] -> children_of (alter (set_children l) p h) p = [].
Proof.
  intros ->. rewrite children_of_alter_eq. by destruct (h !! p).
Qed.

Lemma down_branch_empty h self :
  children_of h self = [] -> down_branch h self = Raise IndexError.
Proof. intros Hnil. unfold down_branch. by rewrite Hnil. Qed.

Lemma down_branch_spec h self :
  is_Some (h !! self) -> up_of h self ≠ Some self ->
  NoDup (children_of h self) ->
  (forall ch, ch ∈ children_of h self -> up_of h ch = Some self) ->
  children_of h self ≠ [] ->
  exists h' dbc, down_branch h self = Ok (h', dbc) ∧
    (forall q x, link_defect h' q x = link_defect h q x) ∧
    dbc ≠ self ∧ is_Some (h' !! dbc) ∧
    (children_of h' self = [] ∧ up_of h' dbc = None ∧ h !! dbc = None ∧
       1 < length (children_of h self)
     ∨ children_of h self = [dbc] ∧ h' = h) ∧
    (forall u, u ∉ children_of h self -> up_of h' u = up_of h u) ∧
    (forall u, u ≠ self -> u ≠ dbc -> children_of h' u = children_of h u) ∧
    (forall u, dist_of h' u = dist_of h u) ∧
    (forall u, is_Some (h !! u) -> is_Some (h' !! u)).
Proof.
  intros Has Hself Hnd Hup Hne. unfold down_branch. case_bool_decide as Hlen.
  - set (c := new_ref h). set (h1 := <[c := set_dist num_zero new_node]> h).
    assert (Hc : h !! c = None) by apply new_ref_fresh.
    assert (Hcs : c ≠ self) by (intros ->; rewrite Hc in Has; by destruct Has).
    assert (Hch1 : forall u, children_of h1 u = children_of h u).
    { intros u. by apply children_of_fresh. }
    assert (Hup1 : forall u, up_of h1 u = up_of h u).
    { intros u. by apply up_of_fresh. }
    assert (Hal1 : forall u, is_Some (h !! u) -> is_Some (h1 !! u)).
    { intros u Hu. unfold h1. rewrite lookup_insert. case_decide; eauto. }
    destruct (move_children_spec (children_of h1 self) h1 self c)
      as (h' & Hmv & Hdef & Hnil & Hfu & Hfc & Hfd & Hal); try done.
    + rewrite Hch1. intros Hin. apply Hup, up_of_Some_allocated in Hin.
      rewrite Hc in Hin. by destruct Hin.
    + unfold h1. rewrite lookup_insert_eq. eauto.
    + by apply Hal1.
    + by rewrite Hch1.
    + by rewrite Hup1.
    + intros ch. rewrite Hch1, Hup1. apply Hup.
    + rewrite Hmv. simpl. exists h', c. split_and!; try done.
      * intros q x. rewrite Hdef. by apply defect_new.
      * apply Hal. unfold h1. rewrite lookup_insert_eq. eauto.
      * left. split_and!; try done. rewrite Hfu, Hup1.
        -- unfold up_of. by rewrite Hc.
        -- rewrite Hch1. intros Hin. apply Hup, up_of_Some_allocated in Hin.
           rewrite Hc in Hin. by destruct Hin.
      * intros u Hu. rewrite Hfu, Hup1; [done |]. by rewrite Hch1.
      * intros u Hus Huc. by rewrite Hfc, Hch1.
      * intros u. rewrite Hfd. by apply dist_of_fresh.
      * intros u Hu. by apply Hal, Hal1.
  - destruct (children_of h self) as [| d [| d' l]] eqn:Hch; [done | | simpl in Hlen; lia].
    simpl. exists h, d. split_and!; try done.
    + intros ->. apply Hself, Hup. apply list_elem_of_here.
    + eapply up_of_Some_allocated, Hup. apply list_elem_of_here.
    + by right.
Qed.


Lemma climbs_up_root h r x path y :
  climbs h r x path -> y ∈ path -> up_of h y = Some r -> last path = Some y.
Proof.
  induction 1 as [| x p l Hx Hup Hc IH]; [set_solver |].
  rewrite elem_of_cons. intros [-> | Hy] Hyr.
  - assert (p = r) as -> by congruence. by apply climbs_self in Hc as ->.
  - destruct l as [| z l]; [set_solver |]. rewrite last_cons_cons. auto.
Qed.

(** *** The new root *)

Lemma new_root_defect h self outgroup o2 q x :
  is_Some (h !! self) -> is_Some (h !! outgroup) -> is_Some (h !! o2) ->
  outgroup ≠ o2 ->
  link_defect (new_root h self outgroup o2) q x =
  (link_defect h q x
   + ind (x = outgroup) * (ind (up_of h outgroup = Some q) - ind (q = self))
   + ind (x = o2) * (ind (up_of h o2 = Some q) - ind (q = self))
   + ind (q = self) * (ind (x = outgroup) + ind (x = o2))
   - ind (q = self) * Z.of_nat (occurrences x (children_of h self)))%Z.
Proof.
  intros Hs Ho Ho2 Hne. unfold new_root. cbn zeta.
  rewrite defect_sort. rewrite !(defect_keep _ (set_dist _)) by done.
  rewrite defect_set_children by by rewrite !allocated_alter.
  rewrite !children_of_keep by done.
  rewrite defect_set_up by by rewrite !allocated_alter.
  rewrite up_of_alter_ne by done.
  rewrite defect_set_up by done.
  rewrite !occurrences_cons, occurrences_nil. ind_cases + Hne.
Qed.

Lemma new_root_reads h self outgroup o2 :
  is_Some (h !! self) -> is_Some (h !! outgroup) -> is_Some (h !! o2) ->
  self ≠ outgroup -> self ≠ o2 ->
  let h' := new_root h self outgroup o2 in
  let middist := num_half (num_add (dist_of h o2) (dist_of h outgroup)) in
  children_of h' self = merge_sort Pos.le [outgroup; o2] ∧
  up_of h' outgroup = Some self ∧ up_of h' o2 = Some self ∧
  dist_of h' outgroup = middist ∧ dist_of h' o2 = middist.
Proof.
  intros [os Hs] [oo Ho] [oo2 Ho2] Hso Hso2. unfold new_root. cbn zeta.
  rewrite !(dist_of_keep _ (set_children _)), !(dist_of_keep _ (set_up _)) by done.
  split_and!.
  - rewrite children_of_alter_eq. rewrite !lookup_alter_ne by done.
    rewrite lookup_alter_eq. rewrite !lookup_alter_ne by done. by rewrite Hs.
  - rewrite !up_of_keep by done.
    destruct (decide (outgroup = o2)) as [<- | Hne].
    + rewrite up_of_alter_eq, lookup_alter_eq. by rewrite Ho.
    + rewrite up_of_alter_ne by done. rewrite up_of_alter_eq. by rewrite Ho.
  - rewrite !up_of_keep by done. rewrite up_of_alter_eq.
    destruct (decide (outgroup = o2)) as [<- | Hne].
    + rewrite lookup_alter_eq. by rewrite Ho.
    + rewrite lookup_alter_ne by done. by rewrite Ho2.
  - rewrite dist_of_keep by done.
    destruct (decide (outgroup = o2)) as [<- | Hne].
    + rewrite dist_of_set_dist; [done |]. by rewrite !allocated_alter.
    + rewrite dist_of_alter_ne by done. rewrite dist_of_set_dist; [done |].
      by rewrite !allocated_alter.
  - rewrite dist_of_keep by done. rewrite dist_of_set_dist; [done |].
    by rewrite !allocated_alter.
Qed.


(** *** The swaps and the connector *)

Lemma swap_branch_spec fuel h self outgroup p dbc rest n h' o2 :
  climbs h self p (p :: rest) -> last (p :: rest) = Some n ->
  dbc ∉ p :: rest -> outgroup ∉ p :: rest -> dbc ≠ self -> dbc ≠ outgroup ->
  is_Some (h !! dbc) ->
  swap_branch fuel h self outgroup p dbc = Ok (h', o2) ->
  o2 = p ∧
  (forall q x, link_defect h' q x =
     (link_defect h q x + ind (x = dbc) * ind (up_of h dbc = Some q)
      + ind (q = self ∧ x = n) - ind (q = p ∧ x = outgroup))%Z) ∧
  up_of h' p = None ∧ up_of h' outgroup = up_of h outgroup ∧
  children_of h' self = children_of h self ∧
  dist_of h' p = num_zero ∧ dist_of h' outgroup = dist_of h outgroup ∧
  (forall u, is_Some (h' !! u) <-> is_Some (h !! u)).
Proof.
  intros Hc Hlast Hdbc Hout Hds Hdo Had. unfold swap_branch.
  destruct (swap_loop _ _ _ _ _ _ _) as [[[[h3 P'] F'] buf'] | |] eqn:Hloop;
    simpl; try done.
  apply (swap_loop_spec _ rest) in Hloop
    as (Hlast' & HupP' & Hdef & Hold & Hsame & Hframe & Hal & _); [| done].
  assert (P' = n) as -> by congruence.
  assert (Hsp : self ∉ p :: rest).
  { intros Hin. by eapply climbs_not_root in Hin. }
  assert (Hnin : n ∈ p :: rest) by by apply last_Some_elem_of.
  assert (Hpin : p ∈ p :: rest) by apply list_elem_of_here.
  assert (Hap : is_Some (h !! p)) by by eapply climbs_allocated.
  assert (Han : is_Some (h !! n)) by by eapply climbs_allocated.
  destruct (Hframe dbc Hdbc) as (Hfdu & Hfdc & Hfdd).
  destruct (Hframe outgroup Hout) as (Hfou & Hfoc & Hfod).
  destruct (Hframe self Hsp) as (Hfsu & Hfsc & Hfsd).
  assert (Hdn : dbc ≠ n) by (by intros ->).
  assert (Hdp : dbc ≠ p) by (by intros ->).
  assert (Hon : outgroup ≠ n) by (by intros ->).
  assert (Hop : outgroup ≠ p) by (by intros ->).
  assert (Hsn : self ≠ n) by (by intros ->).
  assert (Hspp : self ≠ p) by (by intros ->).
  destruct (list_remove outgroup _) as [l | |] eqn:Hrem; simpl; try done.
  intros [= <- <-]. split_and!.
  - done.
  - intros q x.
    rewrite defect_keep by done.
    rewrite (defect_remove _ _ _ _ _ _ Hrem).
    rewrite defect_keep by done.
    rewrite defect_set_up by by rewrite !allocated_alter, Hal.
    rewrite up_of_alter_ne by done. rewrite up_of_keep by done.
    rewrite defect_set_up by by rewrite !allocated_alter, Hal.
    rewrite up_of_keep by done.
    rewrite defect_append by by rewrite Hal.
    rewrite Hdef, HupP', Hfdu. ind_cases + Hdn Hdp Hon Hop Hsn Hspp Hds Hdo.
  - rewrite !up_of_keep by done.
    destruct (decide (n = p)) as [-> | Hnp].
    + rewrite up_of_alter_eq. rewrite lookup_alter_ne by done.
      rewrite lookup_alter_eq.
      assert (is_Some (h3 !! p)) as [o3 ->] by by apply Hal.
      simpl. by apply Hsame.
    + rewrite !up_of_alter_ne by done. rewrite ?up_of_keep by done. by apply Hold.
  - rewrite !up_of_keep by done. rewrite !up_of_alter_ne by done.
    by rewrite ?up_of_keep.
  - rewrite children_of_keep by done. rewrite children_of_alter_ne by done.
    rewrite !children_of_keep by done. by rewrite children_of_alter_ne.
  - rewrite dist_of_set_dist; [done |]. by rewrite !allocated_alter, Hal.
  - rewrite dist_of_alter_ne by done. rewrite dist_of_keep by done.
    rewrite dist_of_alter_ne by done. by rewrite !dist_of_keep.
  - intros u. by rewrite !allocated_alter.
Qed.


Lemma occurrences_NoDup (l : list positive) :
  (forall x, occurrences x l <= 1) -> NoDup l.
Proof.
  induction l as [| a l IH]; intros Hocc; constructor.
  - apply occurrences_zero. specialize (Hocc a).
    rewrite occurrences_cons, decide_True in Hocc by done. lia.
  - apply IH. intros x. specialize (Hocc x). rewrite occurrences_cons in Hocc. lia.
Qed.

(** *** [set_outgroup] *)

(** The state once the branch towards the outgroup is out of
    [self.children] and the down branch connector is chosen. *)
Lemma set_outgroup_prefix fuel h self outgroup n l :
  links_ok h -> up_of h self ≠ Some self -> self ≠ outgroup ->
  branch_of fuel h self outgroup = Ok n ->
  list_remove n (children_of h self) = Ok l -> l ≠ [] ->
  exists h2 dbc path,
    down_branch (alter (set_children l) self h) self = Ok (h2, dbc) ∧
    climbs h self outgroup path ∧ last path = Some n ∧
    climbs h2 self outgroup path ∧
    (forall q x, link_defect h2 q x = (- ind (q = self ∧ x = n))%Z) ∧
    (forall q x, (ind (x = dbc) * ind (up_of h2 dbc = Some q))%Z =
                 (ind (q = self) * Z.of_nat (occurrences x (children_of h2 self)))%Z) ∧
    dbc ≠ self ∧ (dbc ∉ path) ∧ is_Some (h2 !! dbc) ∧ is_Some (h2 !! self) ∧
    (forall u, u ∈ path -> up_of h2 u = up_of h u) ∧
    (forall u, dist_of h2 u = dist_of h u) ∧
    (forall u, is_Some (h !! u) -> is_Some (h2 !! u)) ∧
    (h !! dbc = None ∨ children_of h self ≡ₚ [n; dbc]) ∧
    (forall u y, u ≠ self -> y ∈ children_of h u -> y ∈ children_of h2 u).
Proof.
  intros Hlinks Hself Hso Hbr Hrem Hne.
  destruct (branch_of_climbs _ _ _ _ _ Hbr) as (path & Hc & Hlast); [done |].
  pose proof (climbs_last_up _ _ _ _ _ Hc Hlast) as Hupn.
  pose proof (proj1 (links_ok_defect h) Hlinks) as Hd0.
  assert (Has : is_Some (h !! self)).
  { eapply children_of_elem_allocated. by eapply list_remove_Ok_elem_of. }
  set (h1 := alter (set_children l) self h) in *.
  assert (Hd1 : forall q x, link_defect h1 q x = (- ind (q = self ∧ x = n))%Z).
  { intros q x. unfold h1. rewrite (defect_remove _ _ _ _ _ _ Hrem), Hd0. lia. }
  assert (Hch1 : children_of h1 self = l).
  { unfold h1. by rewrite children_of_set_children, decide_True. }
  assert (Hup1 : forall u, up_of h1 u = up_of h u).
  { intros u. unfold h1. by rewrite up_of_keep. }
  assert (Hocc : forall x, (Z.of_nat (occurrences x l) =
                            ind (up_of h x = Some self) - ind (x = n))%Z).
  { intros x. pose proof (Hd1 self x) as Hx. unfold link_defect in Hx.
    rewrite Hch1, Hup1 in Hx. ind_cases + Hx. }
  assert (Hnd : NoDup l).
  { apply occurrences_NoDup. intros x. pose proof (Hocc x) as Hx. ind_cases + Hx. }
  assert (Hlup : forall ch, ch ∈ l -> up_of h ch = Some self).
  { intros ch Hin%occurrences_pos. pose proof (Hocc ch) as Hx.
    destruct (decide (up_of h ch = Some self)) as [| Hno]; [done |].
    ind_cases + Hx Hin Hno. }
  assert (Hnl : n ∉ l).
  { intros Hin%occurrences_pos. pose proof (Hocc n) as Hx. ind_cases + Hx Hin. }
  assert (Hpl : forall y, y ∈ path -> y ∉ l).
  { intros y Hy Hin. pose proof (Hlup _ Hin) as Hupy.
    pose proof (climbs_up_root _ _ _ _ _ Hc Hy Hupy). by simplify_eq. }
  destruct (down_branch_spec h1 self) as (h2' & dbc' & Hdb' & Hd2 & Hds & Had & Hcases
    & Hfu & Hfc & Hfd & Hal); try done.
  { unfold h1. by rewrite allocated_alter. }
  { by rewrite Hup1. }
  { by rewrite Hch1. }
  { intros ch. rewrite Hch1, Hup1. apply Hlup. }
  { by rewrite Hch1. }
  exists h2', dbc', path.
  assert (Hdp : dbc' ∉ path).
  { destruct Hcases as [(_ & _ & Hnone & _) | [Hone _]].
    - intros Hin. eapply climbs_allocated in Hin; [| done].
      unfold h1 in Hnone. rewrite <- (allocated_alter h (set_children l) self) in Hin.
      rewrite Hnone in Hin. by destruct Hin.
    - rewrite Hch1 in Hone. intros Hin. apply (Hpl _ Hin). rewrite Hone.
      apply list_elem_of_here. }
  assert (Hfp : forall u, u ∈ path -> up_of h2' u = up_of h u).
  { intros u Hu. rewrite Hfu, Hup1; [done |]. rewrite Hch1. by apply Hpl. }
  split_and!; try done.
  - eapply climbs_frame; [done | done].
  - intros q x. by rewrite Hd2, Hd1.
  - intros q x. destruct Hcases as [(-> & -> & _) | [Hone ->]].
    + rewrite occurrences_nil. ind_cases + q.
    + rewrite Hone. rewrite occurrences_cons, occurrences_nil.
      rewrite Hup1, (Hlup dbc') by (rewrite <- Hch1, Hone; apply list_elem_of_here).
      ind_cases + q.
  - apply Hal. unfold h1. by rewrite allocated_alter.
  - intros u. rewrite Hfd. unfold h1. by rewrite dist_of_keep.
  - intros u Hu. apply Hal. unfold h1. by rewrite allocated_alter.
  - destruct Hcases as [(_ & _ & Hnone & _) | [Hone _]].
    + left. unfold h1 in Hnone. rewrite lookup_alter_ne in Hnone; [done |].
      intros <-. rewrite lookup_alter_eq in Hnone. destruct Has as [o Ho].
      by rewrite Ho in Hnone.
    + right. rewrite Hch1 in Hone. rewrite Hone in Hrem.
      apply list_remove_Ok in Hrem as (l1 & l2 & Hch & _ & Hl).
      rewrite Hch, <- Permutation_middle. constructor. by rewrite <- Hl.
  - intros u y Hu Hy.
    assert (Hy1 : y ∈ children_of h1 u).
    { unfold h1. by rewrite children_of_alter_ne. }
    destruct Hcases as [(_ & _ & Hnone & _) | [_ ->]]; [| done].
    rewrite Hfc; [done | done |]. intros ->.
    unfold children_of in Hy1. rewrite Hnone in Hy1. by apply elem_of_nil in Hy1.
Qed.


Lemma dist_of_unallocated h n : h !! n = None -> dist_of h n = num_zero.
Proof. intros Hn. unfold dist_of. by rewrite Hn. Qed.



(** *** When [set_outgroup] returns *)

Lemma branch_of_enough fuel h self : forall x path,
  climbs h self x path -> path ≠ [] -> length path <= S fuel ->
  exists n, branch_of fuel h self x = Ok n.
Proof.
  induction fuel as [| fuel IH]; intros x path Hc Hne Hlen;
    inversion Hc as [| ? p l Hx Hup Hc']; subst; try done; simpl; rewrite Hup;
    case_decide as Hp; eauto.
  - destruct (climbs_head _ _ _ _ Hc' Hp) as [l' ->]. simpl in Hlen. lia.
  - destruct (climbs_head _ _ _ _ Hc' Hp) as [l' ->].
    eapply IH; [exact Hc' | done | simpl in *; lia].
Qed.

Lemma list_remove_other x y l0 l :
  list_remove x l0 = Ok l -> y ∈ l0 -> y ≠ x -> y ∈ l.
Proof.
  intros (l1 & l2 & -> & _ & ->)%list_remove_Ok.
  rewrite !elem_of_app, elem_of_cons. naive_solver.
Qed.

Lemma swap_loop_returns fuel : forall rest h self P F (buf : D),
  climbs h self P (P :: rest) -> length rest <= fuel ->
  (forall y z, y ∈ P :: rest -> up_of h y = Some z -> z ≠ self ->
     y ∈ children_of h z) ->
  exists res, swap_loop fuel h self P (up_of h P) F buf = Ok res.
Proof.
  induction fuel as [| fuel IH]; intros rest h self P F buf Hc Hlen Hin.
  all: pose proof (climbs_NoDup _ _ _ _ Hc) as Hnd.
  all: inversion Hc as [| ? hj l HP Hup Hc']; subst; rewrite Hup.
  all: destruct (decide (hj = self)) as [-> | Hhj];
    [rewrite swap_loop_exit; eauto |].
  all: destruct (climbs_head _ _ _ _ Hc' Hhj) as [rest' ->].
  { simpl in Hlen. lia. }
  rewrite swap_loop_step by done. cbn zeta.
  apply NoDup_cons in Hnd as [HPnot Hnd].
  assert (HPhj : P ≠ hj) by set_solver + HPnot.
  assert (HaP : is_Some (h !! P)) by by eapply up_of_Some_allocated.
  assert (Hahj : is_Some (h !! hj)).
  { eapply climbs_allocated; [exact Hc' | apply list_elem_of_here]. }
  assert (HPin : P ∈ children_of h hj).
  { apply Hin; [apply list_elem_of_here | done | done]. }
  rewrite children_of_alter_ne by done.
  destruct (list_remove_elem_of _ _ HPin) as [l Hl]. rewrite Hl. simpl.
  apply (IH rest').
  - eapply climbs_frame; [exact Hc' |].
    intros y Hy. assert (y ≠ P) by set_solver + Hy HPnot.
    rewrite up_of_alter_ne by done. by rewrite !up_of_keep.
  - simpl in Hlen. lia.
  - intros y z Hy Hupy Hz.
    assert (HyP : y ≠ P) by set_solver + Hy HPnot.
    rewrite up_of_alter_ne in Hupy by done. rewrite !up_of_keep in Hupy by done.
    assert (Hyz : y ∈ children_of h z).
    { apply Hin; [by apply list_elem_of_further | done | done]. }
    rewrite !children_of_keep by done.
    rewrite children_of_set_children by by rewrite allocated_alter.
    case_decide as Hzhj; [subst; by eapply list_remove_other |].
    rewrite children_of_append by done.
    case_decide; [subst; apply elem_of_app; by left | done].
Qed.

Lemma swap_branch_returns fuel h self outgroup p dbc rest :
  climbs h self p (p :: rest) -> length rest <= fuel ->
  (forall y z, y ∈ p :: rest -> up_of h y = Some z -> z ≠ self ->
     y ∈ children_of h z) ->
  outgroup ∈ children_of h p ->
  exists res, swap_branch fuel h self outgroup p dbc = Ok res.
Proof.
  intros Hc Hlen Hin Hout. unfold swap_branch.
  destruct (swap_loop_returns fuel rest h self p None (dist_of h p) Hc Hlen Hin)
    as [[[[h3 P'] F'] buf'] Hloop].
  rewrite Hloop. simpl.
  apply (swap_loop_spec _ rest) in Hloop
    as (Hlast & _ & _ & _ & _ & _ & Hal & Hgrow); [| done].
  assert (HaP' : is_Some (h3 !! P')).
  { apply Hal. eapply climbs_allocated; [exact Hc |]. by apply last_Some_elem_of. }
  assert (Hout' : outgroup ∈ children_of
            (alter (fun o => set_dist (num_add (dist o) buf') o) dbc
               (alter (set_up F') P'
                  (alter (set_up (Some P')) dbc
                     (alter (fun o => set_children (children o ++ [dbc]) o) P' h3)))) p).
  { rewrite !children_of_keep by done. rewrite children_of_append by done.
    case_decide; [subst; apply elem_of_app; left |]; by apply Hgrow. }
  destruct (list_remove_elem_of _ _ Hout') as [l ->]. simpl. eauto.
Qed.

(** X2. [set_outgroup] returns when the links are consistent, [outgroup]
    is strictly below [self] (the parents of [outgroup] lead to [self]
    along [path]) and [self] has two children or more. *)
Theorem set_outgroup_returns fuel h self outgroup path :
  links_ok h -> up_of h self ≠ Some self ->
  climbs h self outgroup path -> path ≠ [] -> length path <= S fuel ->
  2 <= length (children_of h self) ->
  exists h', set_outgroup fuel h self outgroup = Ok h'.
Proof.
  intros Hlinks Hself Hc Hne Hlen Hch.
  assert (Hso : self ≠ outgroup).
  { intros <-. by apply climbs_self in Hc. }
  pose proof (proj1 (links_ok_defect h) Hlinks) as Hd0.
  assert (Hmem : forall y z, up_of h y = Some z -> y ∈ children_of h z).
  { intros y z Hup. apply occurrences_pos. pose proof (Hd0 z y) as Hx.
    unfold link_defect in Hx. rewrite (ind_True _ Hup) in Hx. lia. }
  unfold set_outgroup. rewrite decide_False by done.
  destruct (branch_of_enough fuel h self outgroup path Hc Hne Hlen) as [n Hbr].
  rewrite Hbr. simpl.
  destruct (branch_of_climbs _ _ _ _ _ Hbr) as (path' & Hc' & Hlast); [done |].
  pose proof (climbs_det _ _ _ _ _ Hc Hc') as <-. clear Hc'.
  pose proof (climbs_last_up _ _ _ _ _ Hc Hlast) as Hupn.
  destruct (list_remove_elem_of _ _ (Hmem _ _ Hupn)) as [l Hrem].
  rewrite Hrem. simpl.
  assert (Hl : l ≠ []).
  { intros ->. apply list_remove_length in Hrem. simpl in Hrem. lia. }
  destruct (set_outgroup_prefix _ _ _ _ _ _ Hlinks Hself Hso Hbr Hrem Hl)
    as (h2 & dbc & path' & -> & Hc' & _ & Hc2 & _ & _ & _ & _ & _ & _
        & Hfu & _ & _ & _ & Hsup).
  pose proof (climbs_det _ _ _ _ _ Hc Hc') as <-. clear Hc'.
  simpl. inversion Hc as [| ? p path1 _ Hupo Hc1]; [done |]. subst.
  rewrite Hupo. case_decide as Hp; [simpl; eauto |].
  destruct (climbs_head _ _ _ _ Hc1 Hp) as [rest ->].
  destruct (swap_branch_returns fuel h2 self outgroup p dbc rest) as [[h4 o2] ->].
  - eapply climbs_frame; [exact Hc1 |]. intros y Hy.
    apply Hfu. by apply list_elem_of_further.
  - simpl in Hlen. lia.
  - intros y z Hy Hupy Hz. apply Hsup; [done |]. apply Hmem.
    rewrite <- Hupy. symmetry. apply Hfu. by apply list_elem_of_further.
  - apply Hsup; [done |]. by apply Hmem.
  - simpl. eauto.
Qed.


(** X3. When [self] has exactly one child and [outgroup] is strictly
    below [self], [set_outgroup] raises IndexError: the branch towards
    the outgroup is removed from [self.children] and [self.children[0]]
    is read from the empty list. *)
Theorem set_outgroup_one_child_IndexError fuel h self outgroup path :
  links_ok h -> climbs h self outgroup path -> path ≠ [] ->
  length path <= S fuel -> length (children_of h self) = 1 ->
  set_outgroup fuel h self outgroup = Raise IndexError.
Proof.
  intros Hlinks Hc Hne Hlen Hch.
  assert (Hso : self ≠ outgroup).
  { intros <-. by apply climbs_self in Hc. }
  pose proof (proj1 (links_ok_defect h) Hlinks) as Hd0.
  unfold set_outgroup. rewrite decide_False by done.
  destruct (branch_of_enough fuel h self outgroup path Hc Hne Hlen) as [n Hbr].
  rewrite Hbr. simpl.
  destruct (branch_of_climbs _ _ _ _ _ Hbr) as (path' & Hc' & Hlast); [done |].
  pose proof (climbs_last_up _ _ _ _ _ Hc' Hlast) as Hupn.
  assert (Hin : n ∈ children_of h self).
  { apply occurrences_pos. pose proof (Hd0 self n) as Hx.
    unfold link_defect in Hx. rewrite (ind_True _ Hupn) in Hx. lia. }
  destruct (list_remove_elem_of _ _ Hin) as [l Hrem]. rewrite Hrem. simpl.
  assert (l = []) as ->.
  { apply list_remove_length in Hrem. destruct l; [done | simpl in Hrem; lia]. }
  by rewrite down_branch_empty by by rewrite children_of_set_children_eq.
Qed.

Lemma branch_of_outside fuel h self r : forall x path,
  climbs h r x path -> up_of h r = None -> self ∉ path -> self ≠ r ->
  length path <= fuel ->
  branch_of fuel h self x = Raise AttributeError.
Proof.
  induction fuel as [| fuel IH]; intros x path Hc Hr Hs Hsr Hlen;
    inversion Hc as [| ? p l Hx Hup Hc']; subst; simpl; rewrite ?Hr; try done;
    try (simpl in Hlen; lia).
  rewrite Hup. apply not_elem_of_cons in Hs as [Hsx Hs].
  rewrite decide_False.
  - eapply IH; [exact Hc' | done | done | done | simpl in Hlen; lia].
  - intros ->. inversion Hc'; subst; [done |]. apply Hs, list_elem_of_here.
Qed.


(** ** Traversal order *)

Lemma preorder_parent_before h fuel : forall tovisit out i c,
  _iter_descendants_preorder fuel h tovisit = Ok out -> out !! i = Some c ->
  tovisit !! i = Some c ∨
  exists j p, j < i ∧ out !! j = Some p ∧ c ∈ children_of h p.
Proof.
  induction fuel as [| fuel IH]; intros [| current tovisit] out i c; simpl;
    try done; try (intros [= <-]; done).
  destruct (_iter_descendants_preorder _ _ _) as [r | |] eqn:Hr; simpl; try done.
  intros [= <-]. destruct i as [| i]; simpl; [auto |].
  intros Hi. destruct (IH _ _ _ _ Hr Hi) as [Hq | (j & p & Hj & Hp & Hc)].
  - apply lookup_app_Some in Hq as [Hq | [Hlen Hq]]; [auto |].
    right. exists 0, current. split_and!; [lia | done |].
    by eapply list_elem_of_lookup_2.
  - right. exists (S j), p. split_and!; [lia | done | done].
Qed.

(** X6. [traverse(strategy="preorder")] yields [self] first, and every
    later node after a node that has it among its [children]: first the
    parent and then the children, as the docstring says, on any store. *)
Theorem traverse_preorder_parent_first h fuel self out i c :
  traverse fuel h self Preorder = Ok out -> out !! i = Some c ->
  i = 0 ∧ c = self ∨
  exists j p, j < i ∧ out !! j = Some p ∧ c ∈ children_of h p.
Proof.
  intros Hout Hi. destruct (preorder_parent_before _ _ _ _ _ _ Hout Hi) as [Hq | ?]; [| auto].
  left. destruct i; simpl in Hq; [by injection Hq | done].
Qed.


Lemma find_first_unvisited (V : gset positive) (l1 : list positive) x l2 :
  (forall y, y ∈ l1 -> y ∈ V) -> x ∉ V ->
  List.find (fun c' => bool_decide (c' ∉ V)) (l1 ++ x :: l2) = Some x.
Proof.
  intros Hl1 Hx. induction l1 as [| y l1 IH]; simpl.
  - by rewrite bool_decide_true.
  - rewrite bool_decide_false; [apply IH | ].
    + intros z Hz. apply Hl1. by apply list_elem_of_further.
    + intros Hy. apply Hy, Hl1, list_elem_of_here.
Qed.

Lemma find_all_visited (V : gset positive) (l : list positive) :
  (forall y, y ∈ l -> y ∈ V) ->
  List.find (fun c' => bool_decide (c' ∉ V)) l = None.
Proof.
  intros Hl. induction l as [| y l IH]; simpl; [done |].
  rewrite bool_decide_false; [apply IH | ].
  - intros z Hz. apply Hl. by apply list_elem_of_further.
  - intros Hy. apply Hy, Hl, list_elem_of_here.
Qed.

Lemma postorder_run t : forall h par end_ (V : gset positive) fuel F,
  represents h par t -> NoDup (ids t) ->
  (forall x, x ∈ ids t -> (x ∉ V) ∧ end_ ≠ Some x) ->
  F = 2 * shape_size t - 1 + fuel ->
  _iter_descendants_postorder F h end_ V (Some (shape_root t)) =
  (r ← _iter_descendants_postorder fuel h end_ (list_to_set (ids t) ∪ V) par;
   Ok (postorder t ++ r)).
Proof.
  induction t as [r ks IHks] using shape_ind'.
  intros h par end_ V fuel F Hrep Hnd Hout ->.
  apply represents_unfold in Hrep as (Har & Hch & Hup & Hkids).
  destruct (NoDup_ids_kids _ _ Hnd) as [Hr Hndks].
  assert (Hinner : forall todo done F,
    ks = done ++ todo ->
    F = list_sum (map (fun k => 2 * shape_size k) todo) + 1 + fuel ->
    _iter_descendants_postorder F h end_ (list_to_set (done ≫= ids) ∪ V) (Some r) =
    (rr ← _iter_descendants_postorder fuel h end_
            (list_to_set (ids (Shape r ks)) ∪ V) par;
     Ok ((todo ≫= postorder) ++ [r] ++ rr))).
  { induction todo as [| k todo IHtodo]; intros done F Hks HF.
    - rewrite app_nil_r in Hks. subst done. simpl in HF. subst F.
      replace (0 + 1 + fuel) with (S fuel) by lia. simpl.
      rewrite decide_False by (intros Heq; by apply (Hout r); [apply list_elem_of_here |]).
      rewrite Hch, find_all_visited.
      + rewrite Hup.
        replace ({[r]} ∪ (list_to_set (ks ≫= ids) ∪ V))
          with (list_to_set (ids (Shape r ks)) ∪ V) by (simpl; set_solver).
        done.
      + intros y (k & -> & Hk)%list_elem_of_fmap.
        apply elem_of_union_l, elem_of_list_to_set, list_elem_of_bind.
        exists k. split; [apply root_in_ids | done].
    - subst ks.
      assert (Hk : k ∈ done ++ k :: todo).
      { apply elem_of_app. right. apply list_elem_of_here. }
      pose proof (shape_size_pos k) as Hpos.
      destruct F as [| F]; [unfold list_sum in HF; cbn [map fold_right] in HF; lia |].
      cbn [_iter_descendants_postorder].
      rewrite decide_False by (intros Heq; by apply (Hout r); [apply list_elem_of_here |]).
      rewrite Hch, map_app. cbn [map].
      rewrite find_first_unvisited.
      + rewrite Forall_forall in IHks, Hkids.
        rewrite (IHks k Hk h (Some r) end_ (list_to_set (done ≫= ids) ∪ V)
                   (list_sum (map (fun k => 2 * shape_size k) todo) + 1 + fuel) F
                   (Hkids k Hk) (NoDup_bind_kid _ _ Hndks Hk)).
        * replace (list_to_set (ids k) ∪ (list_to_set (done ≫= ids) ∪ V))
            with (list_to_set ((done ++ [k]) ≫= ids) ∪ V)
            by (rewrite bind_app, list_to_set_app_L; simpl; rewrite app_nil_r; set_solver).
          rewrite (IHtodo (done ++ [k])
                     (list_sum (map (fun k => 2 * shape_size k) todo) + 1 + fuel)
                     ltac:(by rewrite <- app_assoc) eq_refl).
          destruct (_iter_descendants_postorder fuel _ _ _ _) as [rr | |]; simpl; try done.
          by rewrite <- !app_assoc.
        * intros x Hx. split; [| apply Hout; by eapply ids_kid].
          rewrite not_elem_of_union, elem_of_list_to_set. split.
          -- rewrite bind_app in Hndks. apply NoDup_app in Hndks as (_ & Hdis & _).
             intros Hin. apply (Hdis x Hin). simpl. apply elem_of_app. by left.
          -- apply Hout. by eapply ids_kid.
        * unfold list_sum in *. cbn [map fold_right] in HF. lia.
      + intros y (k' & -> & Hk')%list_elem_of_fmap.
        apply elem_of_union_l, elem_of_list_to_set, list_elem_of_bind.
        exists k'. split; [apply root_in_ids | done].
      + rewrite not_elem_of_union, elem_of_list_to_set. split.
        * rewrite bind_app in Hndks. apply NoDup_app in Hndks as (_ & Hdis & _).
          intros Hin. apply (Hdis _ Hin). simpl. apply elem_of_app. left.
          apply root_in_ids.
        * apply Hout. eapply ids_kid; [done | apply root_in_ids]. }
  assert (HF : 2 * shape_size (Shape r ks) - 1 + fuel =
               list_sum (map (fun k => 2 * shape_size k) ks) + 1 + fuel).
  { cbn [shape_size]. clear. unfold list_sum.
    induction ks as [| k ks IH]; cbn [map fold_right] in *; lia. }
  pose proof (Hinner ks [] _ eq_refl HF) as Hi.
  change (list_to_set ([] ≫= ids) ∪ V) with (∅ ∪ V) in Hi.
  rewrite (left_id_L ∅ (∪)) in Hi. cbn [shape_root]. rewrite Hi.
  destruct (_iter_descendants_postorder fuel _ _ _ _) as [rr | |]; simpl; try done.
  by rewrite <- app_assoc.
Qed.

(** X7. From any node of a tree [traverse(strategy="postorder")] yields
    the postorder of its subtree: the postorders of the children, left to
    right, then the node. *)
Theorem traverse_postorder_tree h t s fuel :
  is_tree h t -> subshape s t -> 2 * shape_size s <= fuel ->
  traverse fuel h (shape_root s) Postorder = Ok (postorder s).
Proof.
  intros [Hrep Hnd] Hsub Hfuel. unfold traverse.
  destruct (represents_subshape _ _ _ _ Hrep Hsub) as (par' & Hs & Hpar).
  pose proof (NoDup_subshape _ _ Hnd Hsub) as Hnds.
  rewrite (represents_up _ _ _ Hs).
  rewrite (postorder_run s h par' par' ∅ (fuel - (2 * shape_size s - 1)) fuel Hs Hnds).
  - destruct (fuel - _); simpl; rewrite decide_True by done; simpl; by rewrite app_nil_r.
  - intros x Hx. split; [set_solver |].
    destruct Hpar as [[_ ->] | (p & Hp & Hsp & ->)]; [done |].
    intros [= <-]. destruct p as [rp kp]. simpl in *.
    by apply (NoDup_ids_root rp kp s (NoDup_subshape _ _ Hnd Hp) Hsp).
  - lia.
Qed.

(** X5. From any node of a tree [traverse(strategy="preorder")] returns,
    and yields the nodes of its subtree level by level, each node once. *)
Theorem traverse_preorder_tree h t s fuel :
  is_tree h t -> subshape s t -> shape_size s <= fuel ->
  exists l, traverse fuel h (shape_root s) Preorder = Ok l ∧
    l = level_order fuel [s] ∧ l ≡ₚ ids s ∧ NoDup l.
Proof.
  intros [Hrep Hnd] Hsub Hfuel.
  destruct (represents_subshape _ _ _ _ Hrep Hsub) as (par' & Hs & _).
  destruct (traverse_level_order _ _ _ _ Hs Hfuel) as [Htr Hperm].
  exists (level_order fuel [s]). split_and!; [done | done | done |].
  rewrite Hperm. by eapply NoDup_subshape.
Qed.


(** ** Membership, the root, the number of leaves *)

Lemma get_descendants_tree h t s fuel :
  is_tree h t -> subshape s t -> shape_size s <= fuel ->
  exists l, get_descendants fuel h (shape_root s) = Ok l ∧
    forall n, n ∈ l <-> n ∈ ids s ∧ n ≠ shape_root s.
Proof.
  intros [Hrep Hnd] Hsub Hfuel.
  destruct (represents_subshape _ _ _ _ Hrep Hsub) as (par' & Hs & _).
  destruct (traverse_level_order _ _ _ _ Hs Hfuel) as [Htr Hperm].
  unfold get_descendants. rewrite Htr. simpl. eexists. split; [done |].
  intros n. rewrite list_elem_of_filter, Hperm. tauto.
Qed.

(** X8. [item in node], on a tree: a node is found when it is in the
    subtree and is not the node itself ([node in node] is False); a name
    is found when a node of the subtree other than the node itself has
    it. *)
Theorem contains_strict_descendants h t s fuel n nm :
  is_tree h t -> subshape s t -> shape_size s <= fuel ->
  __contains__ fuel h (shape_root s) (SelNode n)
    = Ok (Some (bool_decide (n ∈ ids s ∧ n ≠ shape_root s))) ∧
  __contains__ fuel h (shape_root s) (SelNode (shape_root s)) = Ok (Some false) ∧
  exists b, __contains__ fuel h (shape_root s) (SelName nm) = Ok (Some b) ∧
    (b = true <-> exists x, x ∈ ids s ∧ x ≠ shape_root s ∧ name_of h x = nm).
Proof.
  intros Ht Hsub Hfuel.
  destruct (get_descendants_tree _ _ _ _ Ht Hsub Hfuel) as (l & Hl & Hspec).
  unfold __contains__. rewrite Hl. simpl. split_and!.
  - do 2 f_equal. apply bool_decide_ext, Hspec.
  - do 2 f_equal. apply bool_decide_eq_false. rewrite Hspec. tauto.
  - eexists. split; [done |]. rewrite bool_decide_eq_true, list_elem_of_fmap.
    setoid_rewrite Hspec. naive_solver.
Qed.

Lemma get_tree_root_climbs h r : forall fuel x path,
  climbs h r x path -> up_of h r = None -> length path <= fuel ->
  get_tree_root fuel h x = Ok r.
Proof.
  induction fuel as [| fuel IH]; intros x path Hc Hr Hlen;
    inversion Hc as [| ? p l Hx Hup Hc']; subst; simpl; rewrite ?Hr; try done;
    try (simpl in Hlen; lia).
  rewrite Hup. eapply IH; [exact Hc' | done | simpl in Hlen; lia].
Qed.

(** X9. [get_tree_root()] on any node of a tree returns the root of the
    tree. *)
Theorem get_tree_root_of_tree h t x fuel :
  is_tree h t -> x ∈ ids t -> shape_size t <= fuel ->
  get_tree_root fuel h x = Ok (shape_root t).
Proof.
  intros [Hrep Hnd] Hx Hfuel.
  destruct (climbs_shape _ _ _ _ Hrep Hnd Hx) as (path & Hc & Hlen & _).
  eapply get_tree_root_climbs; [exact Hc | by eapply represents_up | lia].
Qed.

(** X10. [len(node)], on a tree, is the number of nodes of the subtree for
    which [is_leaf()] holds, and is never 0: a node is always true in a
    test such as [if self.up:]. *)
Theorem len_counts_leaves h t s fuel :
  is_tree h t -> subshape s t -> shape_size s <= fuel ->
  __len__ fuel h (shape_root s)
    = Ok (length (filter (fun n => is_leaf h n = true) (ids s))) ∧
  0 < length (filter (fun n => is_leaf h n = true) (ids s)).
Proof.
  intros [Hrep Hnd] Hsub Hfuel.
  destruct (represents_subshape _ _ _ _ Hrep Hsub) as (par' & Hs & _).
  destruct (get_leaves_tree _ _ _ _ Hs Hfuel) as (l & Hl & Hperm).
  assert (Hlen : __len__ fuel h (shape_root s)
                 = Ok (length (filter (fun n => is_leaf h n = true) (ids s)))).
  { unfold __len__. rewrite Hl. simpl. by rewrite Hperm. }
  split; [done |]. apply len_not_zero in Hlen. lia.
Qed.

(** ** Editing a tree *)

Lemma represents_change h h' k : forall par par',
  represents h par k -> NoDup (ids k) ->
  up_of h' (shape_root k) = par' ->
  (forall n, n ∈ ids k -> is_Some (h' !! n) ∧ children_of h' n = children_of h n) ->
  (forall n, n ∈ ids k -> n ≠ shape_root k -> up_of h' n = up_of h n) ->
  represents h' par' k.
Proof.
  induction k as [r ks IH] using shape_ind'. intros par par' Hrep Hnd Hup Hsame Hups.
  apply represents_unfold in Hrep as (Har & Hch & Hupr & Hkids).
  apply represents_unfold. split_and!.
  - apply Hsame. apply (root_in_ids (Shape r ks)).
  - rewrite <- Hch. apply Hsame. apply (root_in_ids (Shape r ks)).
  - done.
  - rewrite Forall_forall in IH, Hkids. apply Forall_forall. intros k Hk.
    pose proof (NoDup_ids_root _ _ _ Hnd Hk) as Hrk.
    apply (IH k Hk (Some r) (Some r)).
    + by apply Hkids.
    + by eapply NoDup_ids_kid.
    + rewrite Hups.
      * eapply represents_up. by apply Hkids.
      * eapply ids_kid; [done | apply root_in_ids].
      * simpl. intros Heq. apply Hrk. rewrite <- Heq. apply root_in_ids.
    + intros n Hn. apply Hsame. by eapply ids_kid.
    + intros n Hn _. apply Hups; [by eapply ids_kid |].
      simpl. by intros ->.
Qed.

Lemma list_remove_middle (x : positive) l1 l2 :
  x ∉ l1 -> list_remove x (l1 ++ x :: l2) = Ok (l1 ++ l2).
Proof.
  induction l1 as [| y l1 IH]; simpl; intros Hx.
  - by rewrite decide_True.
  - apply not_elem_of_cons in Hx as [Hxy Hx]. rewrite decide_False by done.
    by rewrite IH.
Qed.

Lemma length_kids_size r ks : length ks < shape_size (Shape r ks).
Proof.
  cbn [shape_size]. unfold list_sum.
  induction ks as [| k ks IH]; cbn [map fold_right length]; [lia |].
  pose proof (shape_size_pos k). lia.
Qed.


Lemma NoDup_kids_split ks1 k ks2 :
  NoDup ((ks1 ++ k :: ks2) ≫= ids) ->
  NoDup (ids k) ∧ NoDup ((ks1 ++ ks2) ≫= ids) ∧
  (forall n, n ∈ ids k -> n ∉ (ks1 ++ ks2) ≫= ids).
Proof.
  rewrite !bind_app, bind_cons.
  intros (H1 & Hd1 & (Hk & Hd2 & H2)%NoDup_app)%NoDup_app. split_and!.
  - done.
  - apply NoDup_app. split_and!; [done | | done].
    intros x Hx1 Hx2. apply (Hd1 x Hx1). apply elem_of_app. by right.
  - intros n Hn [Hin | Hin]%elem_of_app.
    + apply (Hd1 n Hin). apply elem_of_app. by left.
    + by apply (Hd2 n).
Qed.

Lemma represents_allocated h par t n : represents h par t -> n ∈ ids t -> is_Some (h !! n).
Proof.
  revert par. induction t as [r ks IH] using shape_ind'. intros par Hrep Hn.
  apply represents_unfold in Hrep as (Har & _ & _ & Hkids).
  apply ids_root_or_kid in Hn as [-> | (k & Hk & Hn)]; [done |].
  rewrite Forall_forall in IH, Hkids. eapply (IH k Hk); [by apply Hkids | done].
Qed.

(** [delete()] on a node of a tree, through the loop that hangs its
    children on the parent and the final [remove_child]. *)
Lemma delete_in_tree h par p ks1 c kc ks2 fuel :
  represents h par (Shape p (ks1 ++ Shape c kc :: ks2)) ->
  NoDup (ids (Shape p (ks1 ++ Shape c kc :: ks2))) ->
  shape_size (Shape p (ks1 ++ Shape c kc :: ks2)) <= fuel ->
  exists h', delete fuel h c = Ok h' ∧
    represents h' par (Shape p (ks1 ++ ks2 ++ kc)) ∧
    up_of h' c = None ∧ children_of h' c = children_of h c ∧
    forall n, n ∉ ids (Shape p (ks1 ++ Shape c kc :: ks2)) ->
      children_of h' n = children_of h n ∧ up_of h' n = up_of h n.
Proof.
  intros Hrep Hnd Hfuel.
  pose proof Hrep as (Hap & Hchp & Hupp & Hkids)%represents_unfold.
  assert (Hc : represents h (Some p) (Shape c kc)).
  { rewrite Forall_forall in Hkids. apply Hkids, elem_of_app. right. apply list_elem_of_here. }
  pose proof Hc as (Hac & Hchc & Hupc & Hkc)%represents_unfold.
  destruct (NoDup_ids_kids _ _ Hnd) as [Hp Hndk].
  destruct (NoDup_kids_split _ _ _ Hndk) as (Hndc & Hnd12 & Hdis).
  destruct (NoDup_ids_kids _ _ Hndc) as [Hcc Hndkc].
  assert (Hpc : p ≠ c).
  { intros ->. apply Hp. rewrite bind_app, bind_cons. apply elem_of_app. right.
    apply list_elem_of_here. }
  assert (Hpkc : p ∉ map shape_root kc).
  { intros (k & -> & Hk)%list_elem_of_fmap. apply Hp.
    rewrite bind_app, bind_cons. apply elem_of_app. right. apply elem_of_app. left.
    eapply (ids_kid c kc k); [done | apply root_in_ids]. }
  assert (Hckc : c ∉ map shape_root kc).
  { intros (k & -> & Hk)%list_elem_of_fmap. apply Hcc, list_elem_of_bind.
    exists k. split; [apply root_in_ids | done]. }
  (* the call *)
  unfold delete. rewrite Hupc.
  destruct (get_leaves_tree _ _ _ _ Hrep Hfuel) as (lv & Hlv & _).
  assert (Hlen : __len__ fuel h p = Ok (length lv)).
  { unfold __len__. cbn [shape_root] in Hlv. by rewrite Hlv. }
  rewrite Hlen. simpl. rewrite bool_decide_false by by eapply len_not_zero.
  rewrite delete_loop_enough; [| done |].
  2: { rewrite Hchc, length_map. pose proof (length_kids_size c kc).
       pose proof (shape_size_kid p (ks1 ++ Shape c kc :: ks2) (Shape c kc)) as Hk.
       rewrite elem_of_app, elem_of_cons in Hk. specialize (Hk ltac:(auto)). lia. }
  rewrite drop_0. simpl.
  set (h1 := foldl (fun h ch => attach h p ch) h (children_of h c)).
  assert (Hkca : Forall (fun x => is_Some (h !! x)) (children_of h c)).
  { rewrite Hchc. apply Forall_forall. intros x (k & -> & Hk)%list_elem_of_fmap.
    eapply (represents_allocated h (Some p) (Shape c kc)); [done |].
    eapply ids_kid; [done | apply root_in_ids]. }
  assert (Hch1 : forall n, children_of h1 n =
                   if decide (n = p) then children_of h p ++ children_of h c
                   else children_of h n).
  { intros n. unfold h1. by rewrite foldl_attach_children. }
  assert (Hup1 : forall n, up_of h1 n =
                   if decide (n ∈ children_of h c) then Some p else up_of h n).
  { intros n. unfold h1. by rewrite foldl_attach_up. }
  assert (Hal1 : forall n, is_Some (h1 !! n) <-> is_Some (h !! n)).
  { intros n. unfold h1. by rewrite foldl_attach_allocated. }
  unfold remove_child. rewrite Hch1, decide_True by done.
  rewrite Hchp, Hchc, map_app. cbn [map shape_root]. rewrite <- app_assoc. cbn [app].
  rewrite list_remove_middle.
  2: { intros (k & Heq & Hk)%list_elem_of_fmap.
       apply (Hdis c); [apply (root_in_ids (Shape c kc)) |].
       apply list_elem_of_bind. exists k. split; [rewrite Heq; apply root_in_ids |].
       apply elem_of_app. by left. }
  simpl. eexists. split; [done |].
  set (l := map shape_root ks1 ++ map shape_root ks2 ++ map shape_root kc).
  set (h' := alter (set_up None) c (alter (set_children l) p h1)).
  assert (Hch' : forall n, children_of h' n = if decide (n = p) then l else children_of h n).
  { intros n. unfold h'. rewrite children_of_keep by done.
    rewrite children_of_set_children by by apply Hal1.
    case_decide; [done |]. by rewrite Hch1, decide_False. }
  assert (Hup' : forall n, up_of h' n =
                   if decide (n = c) then None
                   else if decide (n ∈ map shape_root kc) then Some p else up_of h n).
  { intros n. unfold h'. rewrite up_of_set_up by by rewrite allocated_alter, Hal1.
    case_decide; [done |]. rewrite up_of_keep by done. by rewrite Hup1, Hchc. }
  assert (Hal' : forall n, is_Some (h' !! n) <-> is_Some (h !! n)).
  { intros n. unfold h'. by rewrite !allocated_alter, Hal1. }
  split; [| split_and!].
  - apply represents_unfold. split_and!.
    + by apply Hal'.
    + rewrite Hch', decide_True by done. unfold l. by rewrite !map_app.
    + rewrite Hup', decide_False by done. by rewrite decide_False.
    + apply Forall_forall. intros k Hk.
      rewrite app_assoc in Hk. apply elem_of_app in Hk as [Hk | Hk].
      * (* a sibling of the deleted node *)
        assert (Hk' : k ∈ ks1 ++ Shape c kc :: ks2).
        { apply elem_of_app in Hk as [Hk | Hk]; apply elem_of_app; [by left |].
          right. by apply list_elem_of_further. }
        assert (Hkout : forall n, n ∈ ids k -> n ≠ p ∧ n ≠ c ∧ n ∉ map shape_root kc).
        { intros n Hn. split_and!.
          - intros ->. apply Hp, list_elem_of_bind. eauto.
          - intros ->. apply (Hdis c); [apply (root_in_ids (Shape c kc)) |].
            apply list_elem_of_bind. eauto.
          - intros (k' & -> & Hk'')%list_elem_of_fmap.
            apply (Hdis (shape_root k')).
            + eapply (ids_kid c kc k'); [done | apply root_in_ids].
            + apply list_elem_of_bind. eauto. }
        rewrite Forall_forall in Hkids.
        apply (represents_change h h' k (Some p) (Some p)).
        -- by apply Hkids.
        -- exact (NoDup_bind_kid _ k Hndk Hk').
        -- destruct (Hkout (shape_root k) (root_in_ids k)) as (? & ? & ?).
           rewrite Hup', !decide_False by done. eapply represents_up. by apply Hkids.
        -- intros n Hn. destruct (Hkout n Hn) as (? & ? & ?). split.
           ++ apply Hal'. eapply represents_allocated; [by apply Hkids | done].
           ++ by rewrite Hch', decide_False.
        -- intros n Hn _. destruct (Hkout n Hn) as (? & ? & ?).
           by rewrite Hup', !decide_False.
      * (* a child of the deleted node *)
        assert (Hkout : forall n, n ∈ ids k -> n ≠ p ∧ n ≠ c).
        { intros n Hn. split.
          - intros ->. apply Hp. rewrite bind_app, bind_cons. apply elem_of_app. right.
            apply elem_of_app. left. by eapply (ids_kid c kc k).
          - intros ->. apply Hcc, list_elem_of_bind. eauto. }
        rewrite Forall_forall in Hkc.
        apply (represents_change h h' k (Some c) (Some p)).
        -- by apply Hkc.
        -- exact (NoDup_bind_kid _ k Hndkc Hk).
        -- destruct (Hkout (shape_root k) (root_in_ids k)) as (? & ?).
           rewrite Hup', decide_False by done. rewrite decide_True; [done |].
           apply list_elem_of_fmap. eauto.
        -- intros n Hn. destruct (Hkout n Hn) as (? & ?). split.
           ++ apply Hal'. eapply represents_allocated; [by apply Hkc | done].
           ++ by rewrite Hch', decide_False.
        -- intros n Hn Hroot. destruct (Hkout n Hn) as (? & ?).
           rewrite Hup', decide_False by done. rewrite decide_False; [done |].
           intros (k' & -> & Hk'')%list_elem_of_fmap. apply Hroot. f_equal.
           eapply (NoDup_bind_same kc k' k (shape_root k')); try done.
           apply root_in_ids.
  - by rewrite Hup', decide_True.
  - rewrite Hch', decide_False by done. done.
  - intros n Hn. cbn [ids] in Hn. apply not_elem_of_cons in Hn as [Hnp Hn].
    rewrite bind_app, bind_cons in Hn.
    rewrite !not_elem_of_app in Hn. destruct Hn as (_ & Hnc & _).
    cbn [ids] in Hnc. apply not_elem_of_cons in Hnc as [Hnc Hnkc].
    split.
    + by rewrite Hch', decide_False.
    + rewrite Hup', decide_False by done. rewrite decide_False; [done |].
      intros (k & -> & Hk)%list_elem_of_fmap. apply Hnkc, list_elem_of_bind.
      exists k. split; [apply root_in_ids | done].
Qed.

(** X11. [delete()] on a node [c] with parent [p], in a tree: the call
    returns; [p] keeps its other children in their order, followed by the
    children of [c] in their order, each with its subtree; [c] is left
    without parent, with its [children] list as it was; nothing changes
    outside the subtree of [p]. *)
Theorem delete_hangs_children_on_parent h par p ks1 c kc ks2 fuel :
  represents h par (Shape p (ks1 ++ Shape c kc :: ks2)) ->
  NoDup (ids (Shape p (ks1 ++ Shape c kc :: ks2))) ->
  shape_size (Shape p (ks1 ++ Shape c kc :: ks2)) <= fuel ->
  exists h', delete fuel h c = Ok h' ∧
    represents h' par (Shape p (ks1 ++ ks2 ++ kc)) ∧
    up_of h' c = None ∧ children_of h' c = children_of h c ∧
    forall n, n ∉ ids (Shape p (ks1 ++ Shape c kc :: ks2)) ->
      children_of h' n = children_of h n ∧ up_of h' n = up_of h n.
Proof. apply delete_in_tree. Qed.


(** X12. [detach()] on a node [c] with parent [p], in a tree: [p] keeps its
    other children, and [c] becomes the root of its own subtree, kept
    whole. *)
Theorem detach_cuts_subtree h par p ks1 c kc ks2 fuel :
  represents h par (Shape p (ks1 ++ Shape c kc :: ks2)) ->
  NoDup (ids (Shape p (ks1 ++ Shape c kc :: ks2))) ->
  shape_size (Shape p (ks1 ++ Shape c kc :: ks2)) <= fuel ->
  exists h', detach fuel h c = Ok h' ∧
    represents h' par (Shape p (ks1 ++ ks2)) ∧
    represents h' None (Shape c kc) ∧
    forall n, n ≠ p -> n ≠ c ->
      children_of h' n = children_of h n ∧ up_of h' n = up_of h n.
Proof.
  intros Hrep Hnd Hfuel.
  pose proof Hrep as (Hap & Hchp & Hupp & Hkids)%represents_unfold.
  assert (Hc : represents h (Some p) (Shape c kc)).
  { rewrite Forall_forall in Hkids. apply Hkids, elem_of_app. right. apply list_elem_of_here. }
  pose proof Hc as (Hac & Hchc & Hupc & Hkc)%represents_unfold.
  destruct (NoDup_ids_kids _ _ Hnd) as [Hp Hndk].
  destruct (NoDup_kids_split _ _ _ Hndk) as (Hndc & Hnd12 & Hdis).
  assert (Hpc : p ≠ c).
  { intros ->. apply Hp. rewrite bind_app, bind_cons. apply elem_of_app. right.
    apply list_elem_of_here. }
  unfold detach. rewrite Hupc.
  destruct (get_leaves_tree _ _ _ _ Hrep Hfuel) as (lv & Hlv & _).
  assert (Hlen : __len__ fuel h p = Ok (length lv)).
  { unfold __len__. cbn [shape_root] in Hlv. by rewrite Hlv. }
  rewrite Hlen. simpl. rewrite bool_decide_false by by eapply len_not_zero.
  rewrite Hchp, map_app. cbn [map shape_root].
  rewrite list_remove_middle.
  2: { intros (k & Heq & Hk)%list_elem_of_fmap.
       apply (Hdis c); [apply (root_in_ids (Shape c kc)) |].
       apply list_elem_of_bind. exists k. split; [rewrite Heq; apply root_in_ids |].
       apply elem_of_app. by left. }
  simpl. eexists. split; [done |].
  set (l := map shape_root ks1 ++ map shape_root ks2).
  set (h' := alter (set_up None) c (alter (set_children l) p h)).
  assert (Hch' : forall n, children_of h' n = if decide (n = p) then l else children_of h n).
  { intros n. unfold h'. rewrite children_of_keep by done.
    by rewrite children_of_set_children. }
  assert (Hup' : forall n, up_of h' n = if decide (n = c) then None else up_of h n).
  { intros n. unfold h'. rewrite up_of_set_up by by rewrite allocated_alter.
    case_decide; [done |]. by rewrite up_of_keep. }
  assert (Hal' : forall n, is_Some (h' !! n) <-> is_Some (h !! n)).
  { intros n. unfold h'. by rewrite !allocated_alter. }
  split; [| split].
  - apply represents_unfold. split_and!.
    + by apply Hal'.
    + rewrite Hch', decide_True by done. unfold l. by rewrite !map_app.
    + by rewrite Hup', decide_False.
    + apply Forall_forall. intros k Hk.
      assert (Hk' : k ∈ ks1 ++ Shape c kc :: ks2).
      { apply elem_of_app in Hk as [Hk | Hk]; apply elem_of_app; [by left |].
        right. by apply list_elem_of_further. }
      assert (Hkout : forall n, n ∈ ids k -> n ≠ p ∧ n ≠ c).
      { intros n Hn. split.
        - intros ->. apply Hp, list_elem_of_bind. eauto.
        - intros ->. apply (Hdis c); [apply (root_in_ids (Shape c kc)) |].
          apply list_elem_of_bind. eauto. }
      rewrite Forall_forall in Hkids.
      apply (represents_change h h' k (Some p) (Some p)).
      * by apply Hkids.
      * exact (NoDup_bind_kid _ k Hndk Hk').
      * destruct (Hkout (shape_root k) (root_in_ids k)) as (? & ?).
        rewrite Hup', decide_False by done. eapply represents_up. by apply Hkids.
      * intros n Hn. destruct (Hkout n Hn) as (? & ?). split.
        -- apply Hal'. eapply represents_allocated; [by apply Hkids | done].
        -- by rewrite Hch', decide_False.
      * intros n Hn _. destruct (Hkout n Hn) as (? & ?). by rewrite Hup', decide_False.
  - apply (represents_change h h' (Shape c kc) (Some p) None); [done | done | | |].
    + by rewrite Hup', decide_True.
    + intros n Hn. split.
      * apply Hal'. by eapply represents_allocated.
      * rewrite Hch', decide_False; [done |]. intros ->. apply Hp.
        rewrite bind_app, bind_cons. apply elem_of_app. right. apply elem_of_app. by left.
    + intros n Hn Hroot. by rewrite Hup', decide_False.
  - intros n Hnp Hnc. by rewrite Hch', Hup', !decide_False.
Qed.

(** X13. [add_child(name=nm, dist=d)] on a node of a tree creates a node
    that was not in the store and appends it as the last child, a leaf;
    the structure is again a tree, and the new node has the given name
    and dist and the default support 1.0. *)
Theorem add_child_appends_leaf h par p ks nm d :
  represents h par (Shape p ks) -> NoDup (ids (Shape p ks)) ->
  h !! new_ref h = None ∧
  snd (add_child h p None (Some (StrOf nm)) (Some (FloatOf d)) None) = Ok (new_ref h) ∧
  represents (fst (add_child h p None (Some (StrOf nm)) (Some (FloatOf d)) None))
    par (Shape p (ks ++ [Shape (new_ref h) []])) ∧
  NoDup (ids (Shape p (ks ++ [Shape (new_ref h) []]))) ∧
  name_of (fst (add_child h p None (Some (StrOf nm)) (Some (FloatOf d)) None)) (new_ref h)
    = nm ∧
  dist_of (fst (add_child h p None (Some (StrOf nm)) (Some (FloatOf d)) None)) (new_ref h)
    = d ∧
  support_of (fst (add_child h p None (Some (StrOf nm)) (Some (FloatOf d)) None)) (new_ref h)
    = num_one.
Proof.
  intros Hrep Hnd.
  pose proof Hrep as (Hap & Hchp & Hupp & Hkids)%represents_unfold.
  destruct (NoDup_ids_kids _ _ Hnd) as [Hp Hndk].
  set (c := new_ref h).
  assert (Hc : h !! c = None) by apply new_ref_fresh.
  assert (Hcp : c ≠ p) by (intros Heq; rewrite Heq in Hc; rewrite Hc in Hap; by destruct Hap).
  assert (Hcids : c ∉ ids (Shape p ks)).
  { intros Hin. eapply represents_allocated in Hin; [| done]. rewrite Hc in Hin.
    by destruct Hin. }
  cbn [add_child converted py_str py_float except_ValueError fst snd].
  fold c. set (h' := @attach D _ p c).
  assert (Hlk : forall n, h' !! n =
    if decide (n = c) then
      Some (set_up (Some p) (add_feature_dist d (add_feature_name nm new_node)))
    else if decide (n = p) then
      (fun o => set_children (children o ++ [c]) o) <$> h !! p
    else h !! n).
  { intros n. unfold h', attach. rewrite !lookup_alter, !lookup_insert.
    repeat case_decide; simplify_eq; try done. }
  assert (Hch' : forall n, n ≠ c -> children_of h' n =
                   if decide (n = p) then children_of h p ++ [c] else children_of h n).
  { intros n Hn. unfold children_of. rewrite Hlk, decide_False by done.
    case_decide; [subst; destruct Hap as [o ->]; done | done]. }
  assert (Hup' : forall n, n ≠ c -> up_of h' n = up_of h n).
  { intros n Hn. unfold up_of. rewrite Hlk, decide_False by done.
    case_decide; [subst; destruct Hap as [o ->]; done | done]. }
  split_and!; try done.
  - apply represents_unfold. split_and!.
    + rewrite Hlk, decide_False, decide_True by done. destruct Hap as [o ->]. by eexists.
    + rewrite Hch', decide_True by done. rewrite Hchp, map_app. done.
    + by rewrite Hup'.
    + apply Forall_app. split.
      * apply Forall_forall. intros k Hk. rewrite Forall_forall in Hkids.
        assert (Hkout : forall n, n ∈ ids k -> n ≠ p ∧ n ≠ c).
        { intros n Hn. split.
          - intros ->. apply Hp, list_elem_of_bind. eauto.
          - intros ->. apply Hcids. by eapply ids_kid. }
        apply (represents_change h h' k (Some p) (Some p)).
        -- by apply Hkids.
        -- exact (NoDup_bind_kid _ k Hndk Hk).
        -- destruct (Hkout (shape_root k) (root_in_ids k)) as (? & ?).
           rewrite Hup' by done. eapply represents_up. by apply Hkids.
        -- intros n Hn. destruct (Hkout n Hn) as (? & ?). split.
           ++ rewrite Hlk, !decide_False by done.
              eapply represents_allocated; [by apply Hkids | done].
           ++ by rewrite Hch', decide_False.
        -- intros n Hn _. destruct (Hkout n Hn) as (? & ?). by rewrite Hup'.
      * apply Forall_singleton. apply represents_unfold.
        unfold children_of, up_of. rewrite Hlk, decide_True by done.
        split_and!; [by eexists | done | done | constructor].
  - cbn [ids]. rewrite bind_app. cbn [ids] in Hnd, Hcids.
    apply NoDup_cons in Hnd as [Hp' Hndk']. apply not_elem_of_cons in Hcids as [_ Hck].
    apply NoDup_cons. split.
    + rewrite elem_of_app. intros [Hin | Hin]; [done |].
      simpl in Hin. apply list_elem_of_singleton in Hin. congruence.
    + apply NoDup_app. split_and!; [done | | simpl; apply NoDup_singleton].
      intros x Hx Hx'. simpl in Hx'. apply list_elem_of_singleton in Hx'. congruence.
  - unfold name_of. by rewrite Hlk, decide_True.
  - unfold dist_of. by rewrite Hlk, decide_True.
  - unfold support_of. by rewrite Hlk, decide_True.
Qed.


(** ** Round trips and compositions *)

Lemma set_children_same (o : @TreeNode D) : set_children (children o) o = o.
Proof. by destruct o. Qed.

Lemma list_remove_last (x : positive) l : x ∉ l -> list_remove x (l ++ [x]) = Ok l.
Proof. intros Hx. rewrite list_remove_middle by done. by rewrite app_nil_r. Qed.

(** X14. [remove_child(c)] after [add_child(c)], for a node [c] that was
    not among the children: the store is as before the two calls but for
    [c.up], which is None; when [c] had no parent it is the store as it
    was. *)
Theorem remove_child_undoes_add_child h self c :
  is_Some (h !! self) -> is_Some (h !! c) -> c ∉ children_of h self ->
  snd (add_child h self (Some c) None None None) = Ok c ∧
  remove_child (fst (add_child h self (Some c) None None None)) self c
    = Ok (alter (set_up None) c h) ∧
  (up_of h c = None -> alter (set_up None) c h = h).
Proof.
  intros [os Hs] [oc Hc] Hnin. cbn [add_child fst snd]. split_and!; [done | |].
  - unfold remove_child, attach. rewrite children_of_keep by done.
    rewrite children_of_alter_eq, Hs. cbn [children set_children].
    assert (Hl : children_of h self = children os) by (unfold children_of; by rewrite Hs).
    rewrite Hl in Hnin. rewrite list_remove_last by done. simpl. f_equal.
    apply map_eq. intros n. rewrite !lookup_alter.
    repeat (case_decide; simplify_eq); rewrite ?Hs, ?Hc; simpl; try done;
      f_equal; first [by destruct os | by destruct oc].
  - intros Hup. apply map_eq. intros n. rewrite lookup_alter.
    case_decide; [subst | done]. rewrite Hc. simpl. f_equal.
    unfold up_of in Hup. rewrite Hc in Hup. destruct oc; simpl in *. by subst.
Qed.

(** X15. Cut and paste: [c.detach()] followed by [q.add_child(c)] keeps the
    link invariant, makes [q] the parent of [c] and [c] the last child of
    [q], and [c] is no longer among the children of its former parent. *)
Theorem detach_then_add_child h fuel c q h1 :
  links_ok h -> is_Some (h !! c) -> is_Some (h !! q) ->
  detach fuel h c = Ok h1 ->
  snd (add_child h1 q (Some c) None None None) = Ok c ∧
  links_ok (fst (add_child h1 q (Some c) None None None)) ∧
  up_of (fst (add_child h1 q (Some c) None None None)) c = Some q ∧
  children_of (fst (add_child h1 q (Some c) None None None)) q = children_of h1 q ++ [c] ∧
  forall p, up_of h c = Some p -> p ≠ q ->
    c ∉ children_of (fst (add_child h1 q (Some c) None None None)) p.
Proof.
  intros Hl Hc Hq Hd.
  pose proof (detach_links ∅ h fuel c h1 Hl Hd) as Hl1.
  assert (Hal : forall n, is_Some (h1 !! n) <-> is_Some (h !! n)).
  { intros n. apply detach_cases in Hd as [[_ ->] | (p & _ & Hr)]; [done |].
    unfold remove_child in Hr.
    destruct (except_ValueError _) as [l | |]; simpl in Hr; try done.
    injection Hr as <-. by rewrite !allocated_alter. }
  assert (Hup1 : up_of h1 c = None).
  { apply detach_cases in Hd as [[Hup ->] | (p & _ & Hr)]; [done |].
    apply remove_child_reads in Hr as (l & _ & _ & Hu). by rewrite Hu, decide_True. }
  cbn [add_child fst snd]. split_and!.
  - done.
  - apply (add_child_links ∅ h1 q (Some c) None None None c); try done.
    + by apply Hal.
    + split_and!; [by apply Hal | done | done].
  - apply up_of_attach_child. by apply Hal.
  - apply children_of_attach_self. by apply Hal.
  - intros p Hup Hpq. rewrite children_of_attach_ne by done.
    apply detach_cases in Hd as [[Hnone _] | (p' & Hup' & Hr)]; [congruence |].
    assert (p' = p) as -> by congruence.
    apply remove_child_reads in Hr as (l & Hrem & Hch & _).
    rewrite Hch, decide_True by done.
    eapply list_remove_once; [exact Hrem |].
    apply links_except_spec in Hl as (_ & H2 & _). by apply H2.
Qed.

(** X16. [swap_childs()] twice gives back the store as it was. *)
Theorem swap_childs_twice h self : swap_childs (swap_childs h self) self = h.
Proof.
  unfold swap_childs at 2. case_bool_decide as Hlen.
  - unfold swap_childs. rewrite children_of_alter_eq.
    destruct (h !! self) as [o |] eqn:Ho.
    + assert (Hch : children_of h self = children o) by (unfold children_of; by rewrite Ho).
      rewrite Hch in Hlen. cbn [children set_children]. rewrite length_reverse.
      rewrite bool_decide_true by done.
      apply map_eq. intros n. rewrite !lookup_alter.
      repeat case_decide; simplify_eq; try done.
      rewrite Ho. cbn [fmap option_fmap option_map]. f_equal.
      destruct o as [cs u f cl di na su ca].
      unfold set_children. cbn [children up features collapsed dist name support
        collapse_attr]. by rewrite reverse_involutive.
    + unfold children_of in Hlen. rewrite Ho in Hlen. simpl in Hlen. lia.
  - unfold swap_childs. by rewrite bool_decide_false.
Qed.


(** X17. [unroot()] on the root of a tree that has two children: the first
    child that is not a leaf is deleted, its children hung from the root
    after the other child; with two leaves the call raises TreeError. *)
Theorem unroot_root_with_two_children h r c0 kc0 c1 kc1 fuel :
  is_tree h (Shape r [Shape c0 kc0; Shape c1 kc1]) ->
  shape_size (Shape r [Shape c0 kc0; Shape c1 kc1]) <= fuel ->
  (is_leaf h c0 = false ->
   exists h', unroot fuel h r = Ok h' ∧
     represents h' None (Shape r (Shape c1 kc1 :: kc0)) ∧ up_of h' c0 = None) ∧
  (is_leaf h c0 = true -> is_leaf h c1 = false ->
   exists h', unroot fuel h r = Ok h' ∧
     represents h' None (Shape r (Shape c0 kc0 :: kc1)) ∧ up_of h' c1 = None) ∧
  (is_leaf h c0 = true -> is_leaf h c1 = true -> unroot fuel h r = Raise TreeError).
Proof.
  intros [Hrep Hnd] Hfuel.
  pose proof Hrep as (_ & Hch & Hup & _)%represents_unfold.
  unfold unroot, is_root. rewrite Hup, Hch. cbn [map shape_root].
  split_and!.
  - intros ->. cbn [negb].
    destruct (delete_in_tree h None r [] c0 kc0 [Shape c1 kc1] fuel
                Hrep Hnd Hfuel) as (h' & Hd & Hrep' & Hupc & _).
    exists h'. by split_and!.
  - intros -> ->. cbn [negb].
    destruct (delete_in_tree h None r [Shape c0 kc0] c1 kc1 [] fuel
                Hrep Hnd Hfuel) as (h' & Hd & Hrep' & Hupc & _).
    exists h'. by split_and!.
  - by intros -> ->.
Qed.

(** ** Queries *)

(** X18. [get_distance(a, b)] in a tree returns the sum, from 0.0, of the
    [dist] of the nodes from [a] up to the common ancestor returned by
    [get_common_ancestor] (excluded), then of those from [b] up to it;
    [get_distance(a, a)] is 0.0. *)
Theorem get_distance_sums_branches h t a b fuel :
  is_tree h t -> a ∈ ids t -> b ∈ ids t -> 2 * shape_size t <= fuel ->
  (exists r pa pb,
     get_common_ancestor fuel h a [b] = Ok (Some r) ∧
     climbs h r a pa ∧ climbs h r b pb ∧
     get_distance fuel h a b =
       Ok (foldl (fun acc y => num_add acc (dist_of h y))
             (foldl (fun acc y => num_add acc (dist_of h y)) num_zero pa) pb)) ∧
  (a = b -> get_distance fuel h a b = Ok num_zero).
Proof.
  intros Ht Ha Hb Hfuel.
  destruct (get_distance_paths _ _ _ _ _ Ht Ha Hb Hfuel)
    as (r & pa & pb & Hr & _ & Hpa & Hpb & Hd & _).
  split; [by exists r, pa, pb |].
  intros <-.
  destruct (common_ancestor_shape _ _ _ _ _ Ht Ha Ha Hfuel)
    as (s & Hs & Hr' & Has & _ & Hmin).
  assert (r = shape_root s) as -> by congruence.
  assert (shape_root s = a) as Hroot.
  { destruct s as [rs ks]. apply ids_root_or_kid in Has as [-> | (k & Hk & Hak)]; [done |].
    by destruct (Hmin k Hk). }
  rewrite Hroot in Hpa, Hpb. apply climbs_self in Hpa as ->. apply climbs_self in Hpb as ->.
  done.
Qed.

(** X19. [get_common_ancestor] with any number of targets in the tree
    returns the root of the lowest subtree that holds [self] and every
    target. *)
Theorem get_common_ancestor_of_several h t a bs fuel :
  is_tree h t -> a ∈ ids t -> (forall b, b ∈ bs -> b ∈ ids t) ->
  2 * shape_size t <= fuel ->
  exists s, subshape s t ∧
    get_common_ancestor fuel h a bs = Ok (Some (shape_root s)) ∧
    a ∈ ids s ∧ (forall b, b ∈ bs -> b ∈ ids s) ∧
    forall k, k ∈ shape_kids s -> ¬ (a ∈ ids k ∧ forall b, b ∈ bs -> b ∈ ids k).
Proof.
  intros [Hrep Hnd] Ha Hbs Hfuel.
  destruct (common_ancestor_climb h ({[a]} ∪ list_to_set bs) t None a fuel
              Hrep Hnd Ha Hfuel) as [Hin _].
  destruct Hin as (s & Hs & Has & Hts & Hmin & Hloop).
  { intros x. rewrite elem_of_union, elem_of_singleton, !elem_of_list_to_set.
    intros [-> | Hx]; auto. }
  exists s. split_and!; [done | done | done | |].
  - intros b Hb.
    assert (Hin : b ∈@{gset positive} {[a]} ∪ list_to_set bs).
    { apply elem_of_union_r. by apply elem_of_list_to_set. }
    apply Hts in Hin. by apply elem_of_list_to_set in Hin.
  - intros k Hk [Hak Hbk]. apply (Hmin k Hk Hak).
    intros x. rewrite elem_of_union, elem_of_singleton, !elem_of_list_to_set.
    intros [-> | Hx]; auto.
Qed.

(** X20. With a target that is not in the tree of [self],
    [get_common_ancestor] returns None and [get_distance] raises
    TreeError. *)
Theorem get_distance_not_connected h t a b fuel :
  is_tree h t -> a ∈ ids t -> b ∉ ids t -> 2 * shape_size t <= fuel ->
  get_common_ancestor fuel h a [b] = Ok None ∧
  get_distance fuel h a b = Raise TreeError.
Proof.
  intros [Hrep Hnd] Ha Hb Hfuel.
  destruct (common_ancestor_climb h ({[a]} ∪ list_to_set [b]) t None a fuel
              Hrep Hnd Ha Hfuel) as [_ Hout].
  destruct Hout as (j & Hj & Hloop).
  { intros Hsub. apply Hb.
    assert (Hin : b ∈@{gset positive} {[a]} ∪ list_to_set [b]).
    { apply elem_of_union_r. apply elem_of_list_to_set, list_elem_of_here. }
    apply Hsub in Hin. by apply elem_of_list_to_set in Hin. }
  assert (Hnone : get_common_ancestor fuel h a [b] = Ok None).
  { unfold get_common_ancestor. rewrite Hloop. by destruct (fuel - j). }
  split; [done |]. unfold get_distance. by rewrite Hnone.
Qed.

Lemma farthest_loop_negative h rec cs acc :
  (forall ch, ch ∈ cs -> exists x, rec ch = Ok (x, num_zero) ∧
     num_ge (num_add num_zero (dist_of h ch)) (snd acc) = false) ->
  farthest_loop rec h false cs acc = Ok acc.
Proof.
  induction cs as [| ch cs IH]; intros Hcs; simpl; [done |].
  destruct (Hcs ch) as (x & -> & Hge); [apply list_elem_of_here |]. simpl.
  unfold farthest_step. rewrite Hge. apply IH.
  intros ch' Hch'. apply Hcs. by apply list_elem_of_further.
Qed.

(** X21. [get_farthest_leaf()] on a node whose children are leaves at a
    negative [dist] (so that [0.0 + dist >= 0.0] fails for each) returns
    the pair (None, 0.0): no child replaces the initial [max_node]. *)
Theorem get_farthest_leaf_negative_dists h self fuel :
  is_leaf h self = false ->
  (forall ch, ch ∈ children_of h self ->
     is_leaf h ch = true ∧ num_ge (num_add num_zero (dist_of h ch)) num_zero = false) ->
  get_farthest_leaf (S (S fuel)) h self false = Ok (None, num_zero).
Proof.
  intros Hleaf Hcs. cbn [get_farthest_leaf]. rewrite Hleaf.
  apply farthest_loop_negative. intros ch Hch. destruct (Hcs ch Hch) as [-> Hge].
  eauto.
Qed.

(** ** [prune]: what becomes of the nodes it returns *)

Lemma prune_up_tracks root fuel : forall G h n current h',
  rooted root G h -> prune_up fuel h n current = Ok h' ->
  exists G', rooted root G' h' ∧ G ⊆ G' ∧
    (forall m, up_of h m ≠ None -> m ∈ G' ∨ up_of h' m ≠ None) ∧
    (current = Some n -> up_of h n ≠ None -> n ∈ G').
Proof.
  induction fuel as [| fuel IH]; intros G h n current h' Hp.
  - destruct current as [c |]; simpl.
    + destruct (bool_decide (c = n) || bool_decide (length (children_of h c) = 1)) eqn:Hcond;
        [done |].
      intros [= <-]. exists G. split_and!; [done | done | auto |].
      intros [= ->]. rewrite bool_decide_true in Hcond by done. done.
    + intros [= <-]. exists G. split_and!; [done | done | auto | done].
  - destruct current as [c |]; simpl.
    2: { intros [= <-]. exists G. split_and!; [done | done | auto | done]. }
    destruct (bool_decide (c = n) || bool_decide (length (children_of h c) = 1)) eqn:Hcond.
    2: { intros [= <-]. exists G. split_and!; [done | done | auto |].
         intros [= ->]. rewrite bool_decide_true in Hcond by done. done. }
    destruct (delete (S fuel) h c) as [h1 | |] eqn:Hd; simpl; try done.
    destruct (up_of h c) as [p |] eqn:Hup.
    + intros Hrec.
      pose proof (rooted_delete _ _ _ _ _ _ _ Hp Hup Hd) as Hp1.
      destruct Hp as (Hl & _ & _).
      destruct (delete_reads _ _ _ _ _ _ Hl Hup Hd) as (_ & l & _ & _ & Hu).
      destruct (IH _ _ _ _ _ Hp1 Hrec) as (G' & Hp' & Hsub & Hm & _).
      exists G'. split_and!; [done | set_solver + Hsub | |].
      * intros m Hupm. destruct (decide (m = c)) as [-> | Hmc].
        -- left. apply Hsub. set_solver +.
        -- apply Hm. rewrite Hu, decide_False by done.
           by destruct (decide (m ∈ children_of h c)).
      * intros [= ->] _. apply Hsub. set_solver +.
    + apply delete_cases in Hd as [[_ ->] | (? & ? & ? & _)]; [| congruence].
      intros Hrec. assert (h' = h) as -> by (destruct fuel; simpl in Hrec; congruence).
      exists G. split_and!; [done | done | auto |].
      intros [= ->] Hn. congruence.
Qed.

Lemma prune_loop_tracks root fuel : forall to_delete G h h',
  rooted root G h -> prune_loop fuel h to_delete = Ok h' ->
  exists G', rooted root G' h' ∧ G ⊆ G' ∧
    (forall m, up_of h m ≠ None -> m ∈ G' ∨ up_of h' m ≠ None) ∧
    (forall n, n ∈ to_delete -> up_of h n ≠ None -> n ∈ G').
Proof.
  induction to_delete as [| n to_delete IH]; intros G h h' Hp; simpl.
  - intros [= <-]. exists G. split_and!; [done | done | auto |].
    by intros n ?%elem_of_nil.
  - destruct (prune_up fuel h n (Some n)) as [h1 | |] eqn:Hup; simpl; try done.
    intros Hrec.
    destruct (prune_up_tracks _ _ _ _ _ _ _ Hp Hup) as (G1 & Hp1 & Hsub1 & Hm1 & Hn1).
    destruct (IH _ _ _ Hp1 Hrec) as (G' & Hp' & Hsub & Hm & Hl).
    exists G'. split_and!; [done | set_solver + Hsub Hsub1 | |].
    + intros m Hupm. destruct (Hm1 m Hupm) as [HmG | Hupm1]; [left; by apply Hsub | auto].
    + intros m Hin Hupm. apply elem_of_cons in Hin as [-> | Hin].
      * apply Hsub, Hn1; done.
      * destruct (Hm1 m Hupm) as [HmG | Hupm1]; [by apply Hsub | by apply Hl].
Qed.

Lemma rooted_reachable root G h n :
  rooted root G h -> reachable h root n ->
  (n ∉ G) ∧ forall g, g ∈ G -> g ∉ children_of h n.
Proof.
  intros (Hl & Hroot & HrG) Hreach.
  apply links_except_spec in Hl as (H1 & H2 & H3 & H4).
  assert (HnG : n ∉ G).
  { revert n Hreach. apply rtc_ind_r; [done |].
    intros m x Hm Hx HmG Hg. pose proof (H1 _ _ HmG Hx) as Hux.
    apply H3 in Hg. congruence. }
  split; [done |]. intros g Hg Hin. pose proof (H1 _ _ HnG Hin) as Hug.
  apply H3 in Hg. congruence.
Qed.

(** X22. After a [prune] call on a root whose links are consistent, every
    node of the returned set that had a parent is left without parent,
    cannot be reached from the root any more, and is in the [children] of
    no node that can.  ([set_iter], the order in which the loop iterates
    the set, is only asked to go through every member.) *)
Theorem prune_detaches_removed set_iter fuel h self leaves method h' removed :
  links_ok h -> up_of h self = None ->
  (forall n, n ∈ removed -> n ∈ set_iter removed) ->
  prune set_iter fuel h self leaves method = Ok (h', removed) ->
  forall n, n ∈ removed -> up_of h n ≠ None ->
    up_of h' n = None ∧ ¬ reachable h' self n ∧
    forall m, reachable h' self m -> n ∉ children_of h' m.
Proof.
  intros Hl Hroot Hiter Hp n Hn Hupn.
  apply prune_store in Hp.
  destruct (prune_loop_tracks self fuel (set_iter removed) ∅ h h')
    as (G' & Hp' & _ & _ & Hdel);
    [split_and!; [done | done | set_solver +] | done |].
  assert (HnG : n ∈ G') by (apply Hdel; [by apply Hiter | done]).
  split_and!.
  - destruct Hp' as (Hl' & _). apply links_except_spec in Hl' as (_ & _ & H3 & _).
    by apply H3.
  - intros Hreach. by destruct (rooted_reachable _ _ _ _ Hp' Hreach).
  - intros m Hreach. destruct (rooted_reachable _ _ _ _ Hp' Hreach) as [_ Hch].
    by apply Hch.
Qed.

(** ** Drawing: [get_ascii] *)

Lemma str_app_assoc (s1 s2 s3 : string) : (s1 +:+ s2) +:+ s3 = s1 +:+ (s2 +:+ s3).
Proof.
  induction s1 as [| a s1 IH]; [done |].
  change (String a ((s1 +:+ s2) +:+ s3) = String a (s1 +:+ s2 +:+ s3)). by f_equal.
Qed.

Lemma removelast_snoc {A} (l : list A) :
  l ≠ [] -> exists l' x, l = l' ++ [x] ∧ removelast l = l'.
Proof.
  intros Hl. destruct (exists_last Hl) as (l' & x & ->).
  exists l', x. by rewrite removelast_last.
Qed.

Lemma ascii_children_draws h rec all compact : forall ks mids result,
  Forall (fun k => forall char2, exists lines mid,
            rec (shape_root k) char2 = Ok (lines, mid) ∧ draws h compact k lines mid) ks ->
  exists M R,
    ascii_children rec all (map shape_root ks) compact (mids, result)
      = Ok (mids ++ M, result ++ R) ∧
    length M = length ks ∧
    length R = ascii_step compact * length (ks ≫= shown_leaves h) ∧
    (ks ≠ [] -> 0 < length (ks ≫= shown_leaves h)) ∧
    Forall (fun x => length result <= x ∧
                     x + ascii_sep compact < length result + length R) M ∧
    (forall (x0 : nat) M' y, M = x0 :: M' -> last M = Some y -> x0 <= y) ∧
    (forall i leaf, (ks ≫= shown_leaves h) !! i = Some leaf ->
       exists pre, R !! (ascii_step compact * i) = Some (pre +:+ "-" +:+ name_of h leaf)).
Proof.
  induction ks as [| k ks IH]; intros mids result Hks.
  - exists [], []. simpl. rewrite !app_nil_r. split_and!; try done; lia.
  - apply Forall_cons in Hks as [Hk Hks]. cbn [map ascii_children].
    destruct (Hk (if decide (Some (shape_root k) = head all) then "/"
                  else if decide (Some (shape_root k) = last all) then "\" else "-"))
      as (lines & mid & -> & Hmid & Hpos & Hlen & Hcontent).
    cbn [mbind result_bind].
    set (sepl := if compact then [] else [EmptyString]).
    assert (Hsepl : length sepl = ascii_sep compact) by (unfold sepl; by destruct compact).
    assert (Hres : (if compact then result ++ lines else (result ++ lines) ++ [EmptyString])
                   = result ++ lines ++ sepl).
    { unfold sepl. destruct compact; [by rewrite app_nil_r | by rewrite <- app_assoc]. }
    rewrite Hres.
    destruct (IH (mids ++ [mid + length result]) (result ++ lines ++ sepl) Hks)
      as (M & R & -> & HlM & HlR & _ & Hbound & _ & HR).
    exists ((mid + length result) :: M), (lines ++ sepl ++ R).
    assert (HlenR : length (lines ++ sepl ++ R)
                    = ascii_step compact * length ((k :: ks) ≫= shown_leaves h)).
    { rewrite bind_cons, !length_app, Hsepl, HlR. lia. }
    split_and!.
    + by rewrite <- !app_assoc.
    + simpl. by rewrite HlM.
    + done.
    + intros _. rewrite bind_cons, length_app. lia.
    + constructor.
      * rewrite !length_app, Hsepl. lia.
      * eapply Forall_impl; [exact Hbound |]. intros x. cbn beta.
        rewrite !length_app, Hsepl. lia.
    + intros x0 M' y [= <- <-] Hlast. destruct M as [| x1 M]; [by injection Hlast as <- |].
      rewrite last_cons_cons in Hlast. apply last_Some_elem_of in Hlast.
      rewrite Forall_forall in Hbound. apply Hbound in Hlast.
      rewrite !length_app, Hsepl in Hlast. lia.
    + intros i leaf. rewrite bind_cons. intros Hi.
      apply lookup_app_Some in Hi as [Hi | [Hge Hi]].
      * destruct (Hcontent i leaf Hi) as [pre Hpre]. exists pre.
        by apply lookup_app_l_Some.
      * destruct (HR _ leaf Hi) as [pre Hpre]. exists pre.
        assert (Hidx : ascii_step compact * i
                       = length (lines ++ sepl)
                         + ascii_step compact * (i - length (shown_leaves h k))).
        { rewrite length_app, Hsepl. clear -Hlen Hge.
          unfold ascii_step, ascii_sep in *. destruct compact; lia. }
        set (j := ascii_step compact * (i - length (shown_leaves h k))) in *.
        rewrite app_assoc, Hidx, lookup_app_r by lia.
        rewrite <- Hpre. f_equal. lia.
Qed.


Lemma str_last_prefix p : p = PAD ∨ p = PA +:+ "|" -> exists lc, str_last p = Ok lc.
Proof. intros [-> | ->]; eexists; reflexivity. Qed.

Lemma asciiArt_draws t : forall h par fuel char1 compact,
  represents h par t -> shape_size t <= fuel ->
  exists lines mid,
    _asciiArt fuel h (shape_root t) char1 false compact = Ok (lines, mid) ∧
    draws h compact t lines mid.
Proof.
  induction t as [r ks IH] using shape_ind'. intros h par fuel char1 compact Hrep Hfuel.
  apply represents_unfold in Hrep as (_ & Hch & _ & Hkids).
  destruct fuel as [| fuel]; [simpl in Hfuel; lia |].
  cbn [_asciiArt shape_root]. destruct (is_leaf h r) eqn:Hleaf; cbn [negb].
  { (* a leaf *)
    eexists _, _. split; [done |]. unfold draws. cbn [shown_leaves]. rewrite Hleaf.
    split_and!; [simpl; lia | simpl; lia | by destruct compact |].
    intros [| i] leaf; [| done]. intros [= <-]. exists char1.
    by rewrite Nat.mul_0_r. }
  (* an internal node *)
  assert (Hks : ks ≠ []).
  { intros ->. unfold is_leaf in Hleaf. rewrite Hch in Hleaf. simpl in Hleaf.
    by rewrite orb_true_r in Hleaf. }
  rewrite Hch.
  destruct (ascii_children_draws h
              (fun c char2 => _asciiArt fuel h c char2 false compact)
              (map shape_root ks) compact ks [] [])
    as (M & R & -> & HlM & HlR & HL & Hbound & Hsorted & HR).
  { rewrite Forall_forall in IH, Hkids. apply Forall_forall. intros k Hk char2.
    apply (IH k Hk h (Some r)); [by apply Hkids |].
    pose proof (shape_size_kid r ks k Hk). lia. }
  cbn [mbind result_bind app].
  specialize (HL Hks). set (L := length (ks ≫= shown_leaves h)) in *.
  assert (Hshown : shown_leaves h (Shape r ks) = ks ≫= shown_leaves h).
  { cbn [shown_leaves]. by rewrite Hleaf. }
  (* [result.pop()] *)
  assert (Hpop : exists result,
    (if negb compact then list_pop R else Ok R) = Ok result ∧
    length result + ascii_sep compact = ascii_step compact * L ∧
    forall i, i + ascii_sep compact < length R -> result !! i = R !! i).
  { destruct compact; cbn [negb].
    - exists R. split_and!; [done | simpl in *; lia | done].
    - destruct (removelast_snoc R) as (R' & x & HR' & Hrl).
      { intros ->. simpl in HlR. lia. }
      exists R'. unfold list_pop. rewrite Hrl. split_and!.
      + destruct R; [by destruct R' | done].
      + rewrite HR', length_app in HlR. simpl in *. lia.
      + intros i Hi. rewrite HR'. rewrite lookup_app_l; [done |].
        rewrite HR', length_app in Hi. simpl in Hi. lia. }
  destruct Hpop as (result & -> & Hlres & Hres). cbn [mbind result_bind].
  (* [mids[0]] and [mids[-1]] *)
  destruct M as [| x0 M']; [destruct ks; simpl in HlM; done |].
  destruct (last (x0 :: M')) as [y |] eqn:Hlast; [| by apply last_None in Hlast].
  pose proof (Hsorted x0 M' y eq_refl eq_refl) as Hlohi.
  assert (Hhi : y < length result).
  { apply last_Some_elem_of in Hlast. rewrite Forall_forall in Hbound.
    apply Hbound in Hlast. simpl in Hlast. lia. }
  unfold list_get. cbn [lookup list_lookup mbind result_bind].
  set (prefixes := replicate (x0 + 1) PAD ++ replicate (y - x0 - 1) (PA +:+ "|")
                     ++ replicate (length result - y) PAD).
  assert (Hlp : length result <= length prefixes).
  { unfold prefixes. rewrite !length_app, !length_replicate. lia. }
  assert (Hmid : (x0 + y) / 2 <= y).
  { apply Nat.Div0.div_le_upper_bound. lia. }
  assert (Hpre : forall i p, prefixes !! i = Some p -> p = PAD ∨ p = PA +:+ "|").
  { intros i p Hp. apply list_elem_of_lookup_2 in Hp. unfold prefixes in Hp.
    rewrite !elem_of_app in Hp.
    destruct Hp as [Hp | [Hp | Hp]]; apply elem_of_replicate in Hp as [-> _]; auto. }
  destruct (lookup_lt_is_Some_2 prefixes ((x0 + y) / 2)) as [p Hp]; [lia |].
  rewrite Hp. cbn [mbind result_bind].
  destruct (str_last_prefix p (Hpre _ _ Hp)) as [lc ->]. cbn [mbind result_bind].
  eexists _, _. split; [done |].
  set (prefixes' := <[(x0 + y) / 2 := char1 +:+ "--------" +:+ lc]> prefixes).
  assert (Hlz : length (zip_with (fun p l => p +:+ l) prefixes' result) = length result).
  { rewrite length_zip_with. unfold prefixes'. rewrite length_insert. lia. }
  unfold draws. rewrite Hshown. fold L. split_and!.
  - lia.
  - done.
  - by rewrite Hlz.
  - intros i leaf Hi. destruct (HR i leaf Hi) as [pre Hi'].
    assert (Hir : ascii_step compact * i + ascii_sep compact < length R).
    { apply lookup_lt_Some in Hi. fold L in Hi. rewrite HlR. clear -Hi.
      unfold ascii_step, ascii_sep. destruct compact; lia. }
    rewrite <- Hres in Hi' by done.
    destruct (lookup_lt_is_Some_2 prefixes' (ascii_step compact * i)) as [q Hq].
    { unfold prefixes'. rewrite length_insert. apply lookup_lt_Some in Hi'. lia. }
    exists (q +:+ pre). apply lookup_zip_with_Some.
    exists q, (pre +:+ "-" +:+ name_of h leaf). by rewrite str_app_assoc.
Qed.

(** X23. [get_ascii()] (so [str(node)]) on a tree returns the lines of a
    drawing joined by newlines and never raises: one line per shown leaf
    when [compact], and in between an extra line otherwise; the leaves
    come top-down in left-to-right order, the line of each ending with
    ["-"] and its name.  The leaves shown are the nodes at which
    [is_leaf()] holds first on the way down: nothing below a collapsed
    node is drawn. *)
Theorem get_ascii_draws_leaves h t s fuel compact :
  is_tree h t -> subshape s t -> shape_size s <= fuel ->
  exists lines,
    get_ascii fuel h (shape_root s) false compact
      = Ok (String.concat (String (Ascii.ascii_of_nat 10) EmptyString) lines) ∧
    length lines + ascii_sep compact
      = ascii_step compact * length (shown_leaves h s) ∧
    0 < length (shown_leaves h s) ∧
    forall i leaf, shown_leaves h s !! i = Some leaf ->
      exists pre,
        lines !! (ascii_step compact * i) = Some (pre +:+ "-" +:+ name_of h leaf).
Proof.
  intros [Hrep _] Hsub Hfuel.
  destruct (represents_subshape _ _ _ _ Hrep Hsub) as (par' & Hs & _).
  destruct (asciiArt_draws s h par' fuel "-" compact Hs Hfuel)
    as (lines & mid & Hart & _ & Hpos & Hlen & Hlines).
  exists lines. unfold get_ascii. rewrite Hart. by split_and!.
Qed.

End Facts.

(** * Examples and counterexamples *)

Lemma store5_is_tree : is_tree store5 shape5.
Proof. tree_example. Qed.

Lemma store8_is_tree : is_tree store8 shape8.
Proof. tree_example. Qed.

Lemma store5Z_is_tree : is_tree store5Z shape5.
Proof. tree_example. Qed.

Lemma store5_long_is_tree : is_tree store5_long shape5.
Proof. tree_example. Qed.

Lemma store3_is_tree : is_tree store3 shape3.
Proof. tree_example. Qed.

Lemma store3Z_is_tree : is_tree store3Z shape3.
Proof. tree_example. Qed.

Lemma store4_is_tree : is_tree store4 shape4.
Proof. tree_example. Qed.

(** *** C1 *)

(** In the tree of the docstrings the call on A = 6 with C = 5 returns a
    lowest common ancestor. *)
Lemma get_common_ancestor_is_lowest_witness :
  exists r, get_common_ancestor 16 store8 6 [5%positive] = Ok (Some r) ∧
    ancestor_or_self store8 r 6 ∧ ancestor_or_self store8 r 5 ∧
    forall d, ancestor_or_self store8 r d -> d ≠ r ->
              ¬ (ancestor_or_self store8 d 6 ∧ ancestor_or_self store8 d 5).
Proof.
  apply (get_common_ancestor_is_lowest store8 shape8 6 5 16).
  - tree_example.
  - by_evaluation.
  - by_evaluation.
  - vm_compute. lia.
Defined.

(** The same call, evaluated: the node 2, whose descendants are A, B
    and C. *)
Example get_common_ancestor_docstring :
  get_common_ancestor 16 store8 6 [5%positive] = Ok (Some 2%positive).
Proof. reflexivity. Qed.

(** *** C2 *)



(** The distance of the docstring tree, from A = 6 to D = 8. *)
Example get_distance_docstring :
  get_distance 16 store8 6 8 = Ok (0.1 + 0.001 + 1.0 + 0.00001 + 0.000001)%float.
Proof. vm_compute. reflexivity. Qed.

(** *** C3 *)

(** C3, at the tree [((4,5)2,3)1]: [traverse] yields the root, then its
    two children, then the children of 2; preorder visits the subtree of 2
    (the nodes 2, 4, 5) before the sibling 3. *)
Theorem traverse_preorder_yields_level_order :
  traverse 5 store5 1 Preorder = Ok [1; 2; 3; 4; 5]%positive ∧
  ids shape5 = [1; 2; 4; 5; 3]%positive.
Proof. split; reflexivity. Qed.

(** *** C4 *)



(** *** C5 *)

(** C5, at the tree [((3,4)2)1] whose root has one child: once the branch
    towards the outgroup 3 is removed the root has no child left, and
    [self.children[0]] raises IndexError. *)
Theorem set_outgroup_single_child_root :
  bool_decide (is_tree store4 shape4) = true ∧
  ancestor_or_self store4 1 3 ∧
  set_outgroup 10 store4 1 3 = Raise IndexError.
Proof.
  split_and!; [by vm_compute | | reflexivity].
  eapply rtc_l; [reflexivity |]. eapply rtc_l; [reflexivity |]. apply rtc_refl.
Qed.

(** With a root that has two children the call returns: in
    [((4:1,5:1)2:1,3:1)1] with outgroup 4 the root gets the children 2 and
    4, both at distance 0.5, half of the branch above 4. *)
Example set_outgroup_two_children :
  children_of (returned (set_outgroup 10 store5 1 4) ∅) 1 = [2; 4]%positive ∧
  dist_of (returned (set_outgroup 10 store5 1 4) ∅) 4 = 0.5%float ∧
  dist_of (returned (set_outgroup 10 store5 1 4) ∅) 2 = 0.5%float.
Proof. split_and!; vm_compute; reflexivity. Qed.

(** *** C6 *)


(** In the docstring tree, pruning with "keep" and the leaves A and D
    leaves the node J = 3 with its single child D = 8: J had one child
    before the call and lost none. *)
Example prune_keeps_old_single_child :
  children_of
    (fst (returned (prune elements 16 store8 1 [SelName "A"; SelName "D"] Keep) (∅, ∅))) 1
    = [3; 6]%positive ∧
  children_of
    (fst (returned (prune elements 16 store8 1 [SelName "A"; SelName "D"] Keep) (∅, ∅))) 3
    = [8%positive].
Proof. split; vm_compute; reflexivity. Qed.


(** *** C7 *)

Lemma prune_keep_all_leaves_witness :
  prune elements 5 store5 1 [SelNode 3; SelNode 4; SelNode 5] Keep = Ok (store5, ∅).
Proof.
  apply (prune_keep_all_leaves elements 5 store5 shape5 [SelNode 3; SelNode 4; SelNode 5]).
  - tree_example.
  - vm_compute. lia.
  - reflexivity.
  - vm_compute. reflexivity.
Defined.

(** *** C8 *)



(** *** C9 *)

(** In [((4,5)2,3)1], [add_child] on 3 with the node 4, which is a child
    of 2: 4 stays in the children of 2 and its parent is now 3. *)
Lemma add_child_of_parented_node_breaks_links :
  bool_decide (links_ok store5) = true ∧
  snd (add_child store5 3 (Some 4%positive) None None None) = Ok 4%positive ∧
  children_of (fst (add_child store5 3 (Some 4%positive) None None None)) 2
    = [4; 5]%positive ∧
  up_of (fst (add_child store5 3 (Some 4%positive) None None None)) 4 = Some 3%positive ∧
  bool_decide (links_ok (fst (add_child store5 3 (Some 4%positive) None None None)))
    = false.
Proof. split_and!; vm_compute; reflexivity. Qed.

Lemma operations_keep_links_witness :
  links_ok store5 ∧
  links_ok (fst (add_child store5 3 None None None None)) ∧
  links_except {[2%positive]} (returned (delete 5 store5 2) ∅).
Proof.
  assert (Hl : links_ok store5) by by_evaluation.
  assert (Hself3 : is_Some (store5 !! 3%positive)) by (eexists; reflexivity).
  assert (Hself2 : is_Some (store5 !! 2%positive)) by (eexists; reflexivity).
  split_and!; [exact Hl | |].
  - exact (proj1 (operations_keep_links store5 3 Hl Hself3)
             None None None None (new_ref store5) I eq_refl).
  - exact (proj1 (proj2 (proj2 (proj2 (proj2 (proj2 (proj2
             (operations_keep_links store5 2 Hl Hself2)))))))
             5 (returned (delete 5 store5 2) ∅) eq_refl).
Defined.

(** * Further examples *)

(** *** [set_outgroup] *)

Lemma climbs_store5 : climbs store5 1 4 [4; 2]%positive.
Proof.
  eapply climbs_up; [done | reflexivity |].
  eapply climbs_up; [done | reflexivity | constructor].
Qed.

Lemma climbs_store4 : climbs store4 1 3 [3; 2]%positive.
Proof.
  eapply climbs_up; [done | reflexivity |].
  eapply climbs_up; [done | reflexivity | constructor].
Qed.


Lemma set_outgroup_returns_witness :
  exists h', set_outgroup 10 store5 1 4 = Ok h'.
Proof.
  apply (set_outgroup_returns 10 store5 1 4 [4; 2]%positive).
  - by_evaluation.
  - by vm_compute.
  - exact climbs_store5.
  - done.
  - simpl. lia.
  - vm_compute. lia.
Defined.

Lemma set_outgroup_one_child_IndexError_witness :
  set_outgroup 10 store4 1 3 = Raise IndexError.
Proof.
  apply (set_outgroup_one_child_IndexError 10 store4 1 3 [3; 2]%positive).
  - by_evaluation.
  - exact climbs_store4.
  - done.
  - simpl. lia.
  - reflexivity.
Defined.


(** *** Traversal *)

Lemma traverse_preorder_tree_witness :
  exists l, traverse 5 store5 1 Preorder = Ok l ∧
    l = level_order 5 [shape5] ∧ l ≡ₚ ids shape5 ∧ NoDup l.
Proof.
  apply (traverse_preorder_tree store5 shape5 shape5 5).
  - exact store5_is_tree.
  - constructor.
  - vm_compute. lia.
Defined.

(** In [((4,5)2,3)1] the node 4 is yielded at index 3, after its parent 2
    at index 1. *)
Lemma traverse_preorder_parent_first_witness :
  3 = 0 ∧ 4%positive = 1%positive ∨
  exists j p, j < 3 ∧ [1; 2; 3; 4; 5]%positive !! j = Some p ∧ 4%positive ∈ children_of store5 p.
Proof.
  apply (traverse_preorder_parent_first store5 5 1 [1; 2; 3; 4; 5]%positive 3 4);
    reflexivity.
Defined.

Lemma traverse_postorder_tree_witness :
  traverse 10 store5 1 Postorder = Ok (postorder shape5).
Proof.
  apply (traverse_postorder_tree store5 shape5 shape5 10).
  - exact store5_is_tree.
  - constructor.
  - vm_compute. lia.
Defined.

(** The postorder of [((4,5)2,3)1]. *)
Example postorder_shape5 : postorder shape5 = [4; 5; 2; 3; 1]%positive.
Proof. reflexivity. Qed.

(** *** Membership, the root, the number of leaves *)

Lemma contains_strict_descendants_witness :
  __contains__ 5 store5 1 (SelNode 4)
    = Ok (Some (bool_decide (4%positive ∈ ids shape5 ∧ 4%positive ≠ 1%positive))) ∧
  __contains__ 5 store5 1 (SelNode 1) = Ok (Some false) ∧
  exists b, __contains__ 5 store5 1 (SelName "NoName") = Ok (Some b) ∧
    (b = true <->
     exists x, x ∈ ids shape5 ∧ x ≠ 1%positive ∧ name_of store5 x = "NoName").
Proof.
  apply (contains_strict_descendants store5 shape5 shape5 5 4 "NoName").
  - exact store5_is_tree.
  - constructor.
  - vm_compute. lia.
Defined.

Lemma get_tree_root_of_tree_witness : get_tree_root 5 store5 4 = Ok 1%positive.
Proof.
  apply (get_tree_root_of_tree store5 shape5 4 5).
  - exact store5_is_tree.
  - by_evaluation.
  - vm_compute. lia.
Defined.

Lemma len_counts_leaves_witness :
  __len__ 5 store5 1
    = Ok (length (filter (fun n => is_leaf store5 n = true) (ids shape5))) ∧
  0 < length (filter (fun n => is_leaf store5 n = true) (ids shape5)).
Proof.
  apply (len_counts_leaves store5 shape5 shape5 5).
  - exact store5_is_tree.
  - constructor.
  - vm_compute. lia.
Defined.

(** *** Editing a tree *)

(** In [((4,5)2,3)1], deleting the node 2 gives [(3,4,5)1]. *)
Lemma delete_hangs_children_on_parent_witness :
  exists h', delete 5 store5 2 = Ok h' ∧
    represents h' None (Shape 1 [Shape 3 []; Shape 4 []; Shape 5 []]) ∧
    up_of h' 2 = None ∧ children_of h' 2 = children_of store5 2 ∧
    forall n, n ∉ ids shape5 ->
      children_of h' n = children_of store5 n ∧ up_of h' n = up_of store5 n.
Proof.
  apply (delete_hangs_children_on_parent store5 None 1 [] 2 [Shape 4 []; Shape 5 []]
           [Shape 3 []] 5).
  - exact (proj1 store5_is_tree).
  - exact (proj2 store5_is_tree).
  - vm_compute. lia.
Defined.

(** In [((4,5)2,3)1], detaching the node 2 leaves [(3)1] and [(4,5)2]. *)
Lemma detach_cuts_subtree_witness :
  exists h', detach 5 store5 2 = Ok h' ∧
    represents h' None (Shape 1 [Shape 3 []]) ∧
    represents h' None (Shape 2 [Shape 4 []; Shape 5 []]) ∧
    forall n, n ≠ 1%positive -> n ≠ 2%positive ->
      children_of h' n = children_of store5 n ∧ up_of h' n = up_of store5 n.
Proof.
  apply (detach_cuts_subtree store5 None 1 [] 2 [Shape 4 []; Shape 5 []] [Shape 3 []] 5).
  - exact (proj1 store5_is_tree).
  - exact (proj2 store5_is_tree).
  - vm_compute. lia.
Defined.

Lemma add_child_appends_leaf_witness :
  store5 !! new_ref store5 = None ∧
  snd (add_child store5 1 None (Some (StrOf "x")) (Some (FloatOf 0.5%float)) None)
    = Ok (new_ref store5) ∧
  represents (fst (add_child store5 1 None (Some (StrOf "x")) (Some (FloatOf 0.5%float)) None))
    None (Shape 1 (shape_kids shape5 ++ [Shape (new_ref store5) []])) ∧
  NoDup (ids (Shape 1 (shape_kids shape5 ++ [Shape (new_ref store5) []]))) ∧
  name_of (fst (add_child store5 1 None (Some (StrOf "x")) (Some (FloatOf 0.5%float)) None))
    (new_ref store5) = "x" ∧
  dist_of (fst (add_child store5 1 None (Some (StrOf "x")) (Some (FloatOf 0.5%float)) None))
    (new_ref store5) = 0.5%float ∧
  support_of (fst (add_child store5 1 None (Some (StrOf "x")) (Some (FloatOf 0.5%float)) None))
    (new_ref store5) = num_one.
Proof.
  apply (add_child_appends_leaf store5 None 1 (shape_kids shape5) "x" 0.5%float).
  - exact (proj1 store5_is_tree).
  - exact (proj2 store5_is_tree).
Defined.

Lemma remove_child_undoes_add_child_witness :
  snd (add_child store3 2 (Some 3%positive) None None None) = Ok 3%positive ∧
  remove_child (fst (add_child store3 2 (Some 3%positive) None None None)) 2 3
    = Ok (alter (set_up None) 3%positive store3) ∧
  (up_of store3 3 = None -> alter (set_up None) 3%positive store3 = store3).
Proof.
  apply (remove_child_undoes_add_child store3 2 3).
  - by eexists.
  - by eexists.
  - by_evaluation.
Defined.

(** In [((4,5)2,3)1], the node 4 moved under the node 3. *)
Lemma detach_then_add_child_witness :
  snd (add_child (returned (detach 5 store5 4) ∅) 3 (Some 4%positive) None None None)
    = Ok 4%positive ∧
  links_ok (fst (add_child (returned (detach 5 store5 4) ∅) 3 (Some 4%positive)
                   None None None)) ∧
  up_of (fst (add_child (returned (detach 5 store5 4) ∅) 3 (Some 4%positive)
                None None None)) 4 = Some 3%positive ∧
  children_of (fst (add_child (returned (detach 5 store5 4) ∅) 3 (Some 4%positive)
                      None None None)) 3
    = children_of (returned (detach 5 store5 4) ∅) 3 ++ [4%positive] ∧
  forall p, up_of store5 4 = Some p -> p ≠ 3%positive ->
    4%positive ∉ children_of (fst (add_child (returned (detach 5 store5 4) ∅) 3
                                     (Some 4%positive) None None None)) p.
Proof.
  apply (detach_then_add_child store5 5 4 3 (returned (detach 5 store5 4) ∅)).
  - by_evaluation.
  - by eexists.
  - by eexists.
  - vm_compute. reflexivity.
Defined.

Lemma unroot_root_with_two_children_witness :
  (is_leaf store5 2 = false ->
   exists h', unroot 5 store5 1 = Ok h' ∧
     represents h' None (Shape 1 [Shape 3 []; Shape 4 []; Shape 5 []]) ∧
     up_of h' 2 = None) ∧
  (is_leaf store5 2 = true -> is_leaf store5 3 = false ->
   exists h', unroot 5 store5 1 = Ok h' ∧
     represents h' None (Shape 1 [Shape 2 [Shape 4 []; Shape 5 []]]) ∧
     up_of h' 3 = None) ∧
  (is_leaf store5 2 = true -> is_leaf store5 3 = true ->
   unroot 5 store5 1 = Raise TreeError).
Proof.
  apply (unroot_root_with_two_children store5 1 2 [Shape 4 []; Shape 5 []] 3 [] 5).
  - exact store5_is_tree.
  - vm_compute. lia.
Defined.

(** *** Queries *)

Lemma get_distance_sums_branches_witness :
  (exists r pa pb,
     get_common_ancestor 10 store5 4 [3%positive] = Ok (Some r) ∧
     climbs store5 r 4 pa ∧ climbs store5 r 3 pb ∧
     get_distance 10 store5 4 3 =
       Ok (foldl (fun acc y => num_add acc (dist_of store5 y))
             (foldl (fun acc y => num_add acc (dist_of store5 y)) num_zero pa) pb)) ∧
  (4%positive = 3%positive -> get_distance 10 store5 4 3 = Ok num_zero).
Proof.
  apply (get_distance_sums_branches store5 shape5 4 3 10).
  - exact store5_is_tree.
  - by_evaluation.
  - by_evaluation.
  - vm_compute. lia.
Defined.

Lemma get_common_ancestor_of_several_witness :
  exists s, subshape s shape8 ∧
    get_common_ancestor 16 store8 6 [7; 5]%positive = Ok (Some (shape_root s)) ∧
    6%positive ∈ ids s ∧ (forall b, b ∈ [7; 5]%positive -> b ∈ ids s) ∧
    forall k, k ∈ shape_kids s ->
      ¬ (6%positive ∈ ids k ∧ forall b, b ∈ [7; 5]%positive -> b ∈ ids k).
Proof.
  apply (get_common_ancestor_of_several store8 shape8 6 [7; 5]%positive 16).
  - exact store8_is_tree.
  - by_evaluation.
  - intros b Hb. repeat (apply elem_of_cons in Hb as [-> | Hb]; [by_evaluation |]).
    by apply elem_of_nil in Hb.
  - vm_compute. lia.
Defined.

Lemma get_distance_not_connected_witness :
  get_common_ancestor 10 store5 4 [9%positive] = Ok None ∧
  get_distance 10 store5 4 9 = Raise TreeError.
Proof.
  apply (get_distance_not_connected store5 shape5 4 9 10).
  - exact store5_is_tree.
  - by_evaluation.
  - by_evaluation.
  - vm_compute. lia.
Defined.

Lemma get_farthest_leaf_negative_dists_witness :
  get_farthest_leaf 2 store3_negative 1 false = Ok (None, num_zero).
Proof.
  apply (get_farthest_leaf_negative_dists store3_negative 1 0).
  - reflexivity.
  - intros ch Hch. repeat (apply elem_of_cons in Hch as [-> | Hch]; [by vm_compute |]).
    by apply elem_of_nil in Hch.
Defined.

(** *** [prune] *)

(** In [((4,5)2,3)1], pruning with "keep" and the leaf 4 removes the
    leaves 3 and 5. *)
Lemma prune_detaches_removed_witness :
  up_of (fst (returned (prune elements 10 store5 1 [SelNode 4] Keep) (∅, ∅))) 5 = None ∧
  ¬ reachable (fst (returned (prune elements 10 store5 1 [SelNode 4] Keep) (∅, ∅))) 1 5 ∧
  forall m,
    reachable (fst (returned (prune elements 10 store5 1 [SelNode 4] Keep) (∅, ∅))) 1 m ->
    5%positive ∉ children_of
      (fst (returned (prune elements 10 store5 1 [SelNode 4] Keep) (∅, ∅))) m.
Proof.
  apply (prune_detaches_removed elements 10 store5 1 [SelNode 4] Keep _
           (snd (returned (prune elements 10 store5 1 [SelNode 4] Keep) (∅, ∅)))).
  - by_evaluation.
  - reflexivity.
  - intros n Hn. by apply elem_of_elements.
  - vm_compute. reflexivity.
  - by_evaluation.
  - by vm_compute.
Defined.

(** *** Drawing *)

(** The drawing of [((4,5)2,3)1], every node named NoName. *)
Example get_ascii_store5 :
  get_ascii 5 store5 1 false false
  = Ok (String.concat (String (Ascii.ascii_of_nat 10) EmptyString)
          [ "                    /-NoName";
            "          /--------|";
            "---------|          \-NoName";
            "         |";
            "          \-NoName" ]).
Proof. vm_compute. reflexivity. Qed.

Lemma get_ascii_draws_leaves_witness :
  exists lines,
    get_ascii 5 store5 1 false false
      = Ok (String.concat (String (Ascii.ascii_of_nat 10) EmptyString) lines) ∧
    length lines + ascii_sep false
      = ascii_step false * length (shown_leaves store5 shape5) ∧
    0 < length (shown_leaves store5 shape5) ∧
    forall i leaf, shown_leaves store5 shape5 !! i = Some leaf ->
      exists pre,
        lines !! (ascii_step false * i) = Some (pre +:+ "-" +:+ name_of store5 leaf).
Proof.
  apply (get_ascii_draws_leaves store5 shape5 shape5 5 false).
  - exact store5_is_tree.
  - constructor.
  - vm_compute. lia.
Defined.
